(** * Job shop scheduling as a constrained quadratic model

    A shallow embedding of [src/job_shop_scheduler.py]: the class
    [JobShopSchedulingCQM] (variable definition, precedence, exclusivity and
    makespan constraints, objective, the two solver calls, the data-frame
    projection) and the entry point [run_shop_scheduler].

    Python integers are [Z]; dictionaries that are only read by key are
    [gmap]s; dictionaries whose iteration order is observable (samples, the
    solution table) are association lists; exceptions are the [Raise] branch
    of [result]; warnings, prints and solver calls are events appended to an
    explicit [world]. *)

From stdpp Require Import gmap strings pretty list.
From Stdlib Require Import Ascii.

Local Open Scope string_scope.
Local Open Scope Z_scope.

(** ** Exceptions and the error monad *)

Inductive exn :=
| KeyError
| IndexError
| ValueError (msg : string)
| AttributeError
| TypeError
| NameError (name : string)
| ExternalFault.

Inductive result (A : Type) :=
| Ok (a : A)
| Raise (e : exn).
Arguments Ok {A} a.
Arguments Raise {A} e.

#[global] Instance result_ret : MRet result := λ A a, Ok a.
#[global] Instance result_bind : MBind result := λ A B f m,
  match m with
  | Ok a => f a
  | Raise e => Raise e
  end.

Definition of_option {A} (o : option A) (e : exn) : result A :=
  match o with
  | Some a => Ok a
  | None => Raise e
  end.

(** [for a in l: body] over a state that the body may abort. *)
Fixpoint for_each {A S} (l : list A) (body : A → S → result S) (s : S)
  : result S :=
  match l with
  | [] => Ok s
  | a :: l' => s' ← body a s; for_each l' body s'
  end.

(** ** The schedule data source *)

Record Task := { resource : Z; duration : Z }.

#[global] Instance Task_eq_dec : EqDecision Task.
Proof. solve_decision. Defined.

(** Modelled from the spec: the class [JobShopData] of [model_data.py], which
    the scheduler imports and only reads.  The spec gives its contract: the
    job identifiers, the resources, the ordered task sequence of each job, a
    lookup from (job, resource) to the task that runs there, which is an
    error when there is none, and a global upper bound on the makespan. *)
Record JobShopData := {
  jobs : list Z;
  resources : list Z;
  job_tasks : gmap Z (list Task);
  resource_job_tasks : gmap (Z * Z) Task;
  max_makespan : Z
}.

(** Modelled from the spec: the method of [JobShopData] that returns the
    global upper bound on the makespan. *)
Definition get_max_makespan (model_data : JobShopData) : Z :=
  max_makespan model_data.

(** Modelled from the spec: the lookup of [JobShopData] from (job, resource)
    to the task that runs there; an error if there is no such task. *)
Definition get_resource_job_tasks (model_data : JobShopData)
    (job resource : Z) : result Task :=
  of_option (resource_job_tasks model_data !! (job, resource)) KeyError.

(** ** Symbolic expressions and the constrained quadratic model

    [Integer] and [Binary] build a symbolic variable; the arithmetic operators
    of the library build an expression over them, kept here as the operator
    tree the source writes. *)

Inductive vartype :=
| BINARY
| INTEGER (lower_bound upper_bound : Z).

Record variable := { vname : string; vtype : vartype }.

Inductive expr :=
| Sym (v : variable)
| Num (n : Z)
| Add (a b : expr)
| Sub (a b : expr)
| Mul (a b : expr).

#[global] Instance vartype_eq_dec : EqDecision vartype.
Proof. solve_decision. Defined.
#[global] Instance variable_eq_dec : EqDecision variable.
Proof. solve_decision. Defined.
#[global] Instance expr_eq_dec : EqDecision expr.
Proof. solve_decision. Defined.

Definition Integer (name : string) (lower_bound upper_bound : Z) : expr :=
  Sym {| vname := name; vtype := INTEGER lower_bound upper_bound |}.

Definition Binary (name : string) : expr :=
  Sym {| vname := name; vtype := BINARY |}.

Declare Scope expr_scope.
Delimit Scope expr_scope with E.
Bind Scope expr_scope with expr.
Infix "+" := Add : expr_scope.
Infix "-" := Sub : expr_scope.
Infix "*" := Mul : expr_scope.

(** The symbolic variables of an expression, left to right. *)
Fixpoint symbols (e : expr) : list variable :=
  match e with
  | Sym v => [v]
  | Num _ => []
  | Add a b | Sub a b | Mul a b => symbols a ++ symbols b
  end.

(** [e.variables]: the names, each once, in order of first appearance. *)
Definition variables (e : expr) : list string :=
  remove_dups (vname <$> symbols e).

(** Polynomial degree of the operator tree (an upper bound on the degree of
    the model the library stores). *)
Fixpoint degree (e : expr) : nat :=
  match e with
  | Sym _ => 1
  | Num _ => 0
  | Add a b | Sub a b => degree a `max` degree b
  | Mul a b => (degree a + degree b)%nat
  end.

(** A comparison [lhs >= rhs]; the source compares against numbers only. *)
Record comparison := { lhs : expr; rhs : Z }.

#[global] Instance comparison_eq_dec : EqDecision comparison.
Proof. solve_decision. Defined.

Notation "e >== n" := {| lhs := e%E; rhs := n |} (at level 70).

Record ConstrainedQuadraticModel := {
  objective : expr;
  constraints : list (string * comparison)
}.

Definition new_cqm : ConstrainedQuadraticModel :=
  {| objective := Num 0; constraints := [] |}.

Definition labels (cqm : ConstrainedQuadraticModel) : list string :=
  fst <$> constraints cqm.

(** [cqm.add_constraint(comparison, label=...)]: the library refuses a label
    that is already in use and otherwise appends the constraint. *)
Definition add_constraint (cqm : ConstrainedQuadraticModel)
    (c : comparison) (label : string) : result ConstrainedQuadraticModel :=
  if decide (label ∈ labels cqm)
  then Raise (ValueError "a constraint has already been labeled")
  else Ok {| objective := objective cqm;
             constraints := constraints cqm ++ [(label, c)] |}.

Definition set_objective (cqm : ConstrainedQuadraticModel) (e : expr)
  : ConstrainedQuadraticModel :=
  {| objective := e; constraints := constraints cqm |}.

(** ** Samples: insertion-ordered dictionaries from variable name to value *)

Definition sample := list (string * Z).

Fixpoint dict_get {K V} `{EqDecision K} (d : list (K * V)) (k : K)
  : option V :=
  match d with
  | [] => None
  | (k', v) :: d' => if decide (k' = k) then Some v else dict_get d' k
  end.

Fixpoint dict_set {K V} `{EqDecision K} (d : list (K * V)) (k : K) (v : V)
  : list (K * V) :=
  match d with
  | [] => [(k, v)]
  | (k', v') :: d' =>
      if decide (k' = k) then (k, v) :: d' else (k', v') :: dict_set d' k v
  end.

(** Value of an expression under a sample; [None] when a variable of the
    expression has no value in the sample. *)
Fixpoint eval (s : sample) (e : expr) : option Z :=
  match e with
  | Sym v => dict_get s (vname v)
  | Num n => Some n
  | Add a b => x ← eval s a; y ← eval s b; Some (x + y)
  | Sub a b => x ← eval s a; y ← eval s b; Some (x - y)
  | Mul a b => x ← eval s a; y ← eval s b; Some (x * y)
  end.

Definition satisfies (s : sample) (c : comparison) : Prop :=
  ∃ v, eval s (lhs c) = Some v ∧ rhs c ≤ v.

Definition feasible (s : sample) (cqm : ConstrainedQuadraticModel) : Prop :=
  ∀ lc, lc ∈ constraints cqm → satisfies s lc.2.

(** ** Names and labels: Python's [str.format] on integers *)

Definition x_name (j i : Z) : string :=
  "x" +:+ pretty j +:+ "_" +:+ pretty i.

Definition y_name (j k i : Z) : string :=
  "y" +:+ pretty j +:+ "_" +:+ pretty k +:+ "_" +:+ pretty i.

Definition precedence_label (job machine_curr : Z) : string :=
  "pj" +:+ pretty job +:+ "_m" +:+ pretty machine_curr.

Definition overlap_label (j k i : Z) : string :=
  "OneJobj" +:+ pretty j +:+ "_j" +:+ pretty k +:+ "_m" +:+ pretty i.

Definition disjunction1_label (j k i : Z) : string :=
  "disjunction1" +:+ pretty j +:+ "_j" +:+ pretty k +:+ "_m" +:+ pretty i.

Definition disjunction2_label (j k i : Z) : string :=
  "disjunction2" +:+ pretty j +:+ "_j" +:+ pretty k +:+ "_m" +:+ pretty i.

Definition makespan_label (job : Z) : string :=
  "makespan_ctr" +:+ pretty job.

(** ** Python list and string helpers used by the source *)

(** [l[:-1]] *)
Definition py_init {A} (l : list A) : list A := take (length l - 1)%nat l.

(** [l[1:]] *)
Definition py_tail {A} (l : list A) : list A := drop 1 l.

(** [l[-1]] *)
Definition py_last {A} (l : list A) : result A := of_option (last l) IndexError.

(** A dictionary comprehension: later bindings of a key replace earlier
    ones. *)
Definition dict_of `{Countable K} {V} (l : list (K * V)) : gmap K V :=
  foldl (λ m kv, <[kv.1 := kv.2]> m) ∅ l.

(** [s.startswith('x')] *)
Definition startswith_x (s : string) : bool :=
  match s with
  | String c _ => bool_decide (c = "x"%char)
  | EmptyString => false
  end.

(** [s[1:]] *)
Definition str_tail (s : string) : string :=
  match s with
  | String _ r => r
  | EmptyString => EmptyString
  end.

(** [s.split(sep)] for a one-character separator. *)
Fixpoint split (sep : ascii) (s : string) : list string :=
  match s with
  | EmptyString => [EmptyString]
  | String c r =>
      if decide (c = sep) then EmptyString :: split sep r
      else match split sep r with
           | w :: ws => String c w :: ws
           | [] => [String c EmptyString]
           end
  end.

Definition digit (c : ascii) : option Z :=
  let n := Z.of_N (N_of_ascii c) in
  if decide (48 ≤ n ≤ 57) then Some (n - 48) else None.

Definition is_py_space (c : ascii) : bool :=
  let n := Z.of_N (N_of_ascii c) in
  bool_decide (9 ≤ n ≤ 13 ∨ 28 ≤ n ≤ 32).

Fixpoint lstrip (s : string) : string :=
  match s with
  | String c r => if is_py_space c then lstrip r else s
  | EmptyString => EmptyString
  end.

Definition strip (s : string) : string :=
  String.rev (lstrip (String.rev (lstrip s))).

(** Digits after the first one; a single underscore may separate two
    digits. *)
Fixpoint digits_go (acc : Z) (s : string) : option Z :=
  match s with
  | EmptyString => Some acc
  | String c r =>
      if decide (c = "_"%char) then
        match r with
        | String d r' => v ← digit d; digits_go (10 * acc + v) r'
        | EmptyString => None
        end
      else v ← digit c; digits_go (10 * acc + v) r
  end.

Definition digits (s : string) : option Z :=
  match s with
  | String c r => v ← digit c; digits_go v r
  | EmptyString => None
  end.

(** [int(s)] on a string, base ten. *)
Definition py_int (s : string) : result Z :=
  let invalid := ValueError "invalid literal for int() with base 10" in
  match strip s with
  | String "-" r => n ← of_option (digits r) invalid; Ok (- n)
  | String "+" r => of_option (digits r) invalid
  | r => of_option (digits r) invalid
  end.

(** [s * n] *)
Fixpoint str_repeat (s : string) (n : nat) : string :=
  match n with
  | O => EmptyString
  | S n' => s +:+ str_repeat s n'
  end.

(** [" \n" + "=" * n + title + "=" * n] *)
Definition banner (n : nat) (title : string) : string :=
  String " " (String "010" (str_repeat "=" n +:+ title +:+ str_repeat "=" n)).

(** ** Sample sets returned by a solver *)

Record datum := { d_sample : sample; energy : Z; is_feasible : bool }.

Definition SampleSet := list datum.

(** Stable insertion of a record by energy, and the stable sort on it: the
    order in which [SampleSet.data(sorted_by='energy')] yields records. *)
Fixpoint insert_by_energy (d : datum) (l : list datum) : list datum :=
  match l with
  | [] => [d]
  | d' :: l' =>
      if decide (energy d' ≤ energy d) then d' :: insert_by_energy d l'
      else d :: l
  end.

Definition sort_by_energy (l : SampleSet) : SampleSet :=
  foldr insert_by_energy [] l.

(** [sampleset.filter(lambda d: d.is_feasible)] *)
Definition filter_feasible (l : SampleSet) : SampleSet :=
  filter (λ d, is_feasible d = true) l.

(** [sampleset.truncate(n)]: the [n] records of lowest energy (records of
    equal energy in their order of arrival). *)
Definition truncate (n : nat) (l : SampleSet) : SampleSet :=
  take n (sort_by_energy l).

(** [sampleset.first]: the record of lowest energy; an empty set has none. *)
Definition first (l : SampleSet) : result datum :=
  of_option (head (sort_by_energy l)) (ValueError "SampleSet is empty").

(** ** The world: what a run does besides computing *)

Inductive event :=
| Warn (msg : string)
| Print (msg : string)
| PrintSampleSet (s : SampleSet)
| SampleCQM (cqm : ConstrainedQuadraticModel) (time_limit : option Z)
| SampleMIP (cqm : ConstrainedQuadraticModel) (time_limit : Z)
| Tabulate (completion_time max_make_span model_building solver_call
            total_runtime : Z).

Record world := { trace : list event; ticks : nat }.

(** What the run gets from outside: the two samplers (an answer or a fault),
    the wall clock, and the module global [start_time], which only the
    script's main block defines. *)
Record environment := {
  leap_sample_cqm : ConstrainedQuadraticModel → option Z → result SampleSet;
  mip_sample_cqm : ConstrainedQuadraticModel → Z → result SampleSet;
  clock : nat → Z;
  start_time : option Z
}.

Definition Eff (A : Type) : Type := world → result A * world.

Definition eff_ret {A} (a : A) : Eff A := λ w, (Ok a, w).

Definition eff_bind {A B} (m : Eff A) (f : A → Eff B) : Eff B := λ w,
  match m w with
  | (Ok a, w') => f a w'
  | (Raise e, w') => (Raise e, w')
  end.

Notation "x ⇐ m ;; k" := (eff_bind m (λ x, k))
  (at level 100, m at next level, right associativity).
Notation "m ;;; k" := (eff_bind m (λ _, k))
  (at level 100, right associativity).

Definition lift {A} (r : result A) : Eff A := λ w, (r, w).

Definition emit (e : event) : Eff unit := λ w,
  (Ok tt, {| trace := trace w ++ [e]; ticks := ticks w |}).

(** [time()] *)
Definition time (env : environment) : Eff Z := λ w,
  (Ok (clock env (ticks w)), {| trace := trace w; ticks := S (ticks w) |}).

(** ** The class [JobShopSchedulingCQM] *)

Definition solution_table := list ((Z * Z) * (Task * Z * Z)).

(** The attributes of the object.  [cqm] is [None] until [define_cqm_model];
    [makespan] starts as an empty dictionary, here [None]. *)
Record JobShopSchedulingCQM := {
  model_data : JobShopData;
  cqm : option ConstrainedQuadraticModel;
  x : gmap (Z * Z) expr;
  y : gmap (Z * Z * Z) expr;
  makespan : option expr;
  best_sample : sample;
  solution : solution_table;
  completion_time : Z
}.

(** [__init__] *)
Definition init (model_data : JobShopData) : JobShopSchedulingCQM :=
  {| model_data := model_data; cqm := None; x := ∅; y := ∅;
     makespan := None; best_sample := []; solution := [];
     completion_time := 0 |}.

(** Assignments to attributes of the object. *)
Definition with_cqm (self : JobShopSchedulingCQM)
    (c : ConstrainedQuadraticModel) : JobShopSchedulingCQM :=
  {| model_data := model_data self; cqm := Some c; x := x self; y := y self;
     makespan := makespan self; best_sample := best_sample self;
     solution := solution self; completion_time := completion_time self |}.

Definition with_solution (self : JobShopSchedulingCQM)
    (sol : solution_table) : JobShopSchedulingCQM :=
  {| model_data := model_data self; cqm := cqm self; x := x self;
     y := y self; makespan := makespan self;
     best_sample := best_sample self; solution := sol;
     completion_time := completion_time self |}.

Definition with_variables (self : JobShopSchedulingCQM) (ms : expr)
    (xs : gmap (Z * Z) expr) (ys : gmap (Z * Z * Z) expr)
  : JobShopSchedulingCQM :=
  {| model_data := model_data self; cqm := cqm self; x := xs; y := ys;
     makespan := Some ms; best_sample := best_sample self;
     solution := solution self; completion_time := completion_time self |}.

(** [define_cqm_model]: a new, empty model. *)
Definition define_cqm_model (self : JobShopSchedulingCQM)
  : JobShopSchedulingCQM :=
  with_cqm self new_cqm.

(** [define_variables]: the makespan variable and the two dictionary
    comprehensions, over all jobs and resources. *)
Definition define_variables (self : JobShopSchedulingCQM)
    (model_data : JobShopData) : JobShopSchedulingCQM :=
  with_variables self
    (Integer "makespan" 0 (get_max_makespan model_data))
    (dict_of
       (j ← jobs model_data; i ← resources model_data;
        [((j, i), Integer (x_name j i) 0 (get_max_makespan model_data))]))
    (dict_of
       (j ← jobs model_data; k ← jobs model_data; i ← resources model_data;
        [((j, k, i), Binary (y_name j k i))])).

(** [self.cqm.add_constraint(c, label=...)] *)
Definition self_add_constraint (self : JobShopSchedulingCQM)
    (c : comparison) (label : string) : result JobShopSchedulingCQM :=
  m ← of_option (cqm self) AttributeError;
  m' ← add_constraint m c label;
  Ok (with_cqm self m').

(** [define_objective_function]: [self.cqm.set_objective(self.makespan)].
    The entry point calls it after [define_variables]; before that call the
    attribute still holds the empty dictionary, taken here as an error. *)
Definition define_objective_function (self : JobShopSchedulingCQM)
  : result JobShopSchedulingCQM :=
  m ← of_option (cqm self) AttributeError;
  ms ← of_option (makespan self) TypeError;
  Ok (with_cqm self (set_objective m ms)).

(** [add_precedence_constraints]: for each job, one constraint per pair of
    [zip(tasks[:-1], tasks[1:])].  The method is looked up on [self.cqm]
    before the arguments are evaluated. *)
Definition add_precedence_constraints (self : JobShopSchedulingCQM)
    (model_data : JobShopData) : result JobShopSchedulingCQM :=
  for_each (jobs model_data) (λ job self,
    tasks ← of_option (job_tasks model_data !! job) KeyError;
    for_each (zip (py_init tasks) (py_tail tasks)) (λ pc self,
      let prev_task := pc.1 in
      let curr_task := pc.2 in
      let machine_curr := resource curr_task in
      let machine_prev := resource prev_task in
      _ ← of_option (cqm self) AttributeError;
      x_curr ← of_option (x self !! (job, machine_curr)) KeyError;
      x_prev ← of_option (x self !! (job, machine_prev)) KeyError;
      self_add_constraint self
        (x_curr - x_prev >== duration prev_task)
        (precedence_label job machine_curr)) self) self.

(** [add_quadratic_overlap_constraint]: the three nested loops with the
    test [j < k], the two task lookups, and the test on the durations. *)
Definition add_quadratic_overlap_constraint (self : JobShopSchedulingCQM)
    (model_data : JobShopData) : result JobShopSchedulingCQM :=
  for_each (jobs model_data) (λ j self,
    for_each (jobs model_data) (λ k self,
      if decide (j < k) then
        for_each (resources model_data) (λ i self,
          task_k ← get_resource_job_tasks model_data k i;
          task_j ← get_resource_job_tasks model_data j i;
          if decide (duration task_k > 0 ∧ duration task_j > 0) then
            _ ← of_option (cqm self) AttributeError;
            x_ji ← of_option (x self !! (j, i)) KeyError;
            x_ki ← of_option (x self !! (k, i)) KeyError;
            y_jki ← of_option (y self !! (j, k, i)) KeyError;
            self_add_constraint self
              (x_ji - x_ki
               + Num (duration task_k - duration task_j) * y_jki
               + Num 2 * y_jki * (x_ki - x_ji)
               >== duration task_k)
              (overlap_label j k i)
          else Ok self) self
      else Ok self) self) self.

(** [add_disjunctive_constraints]: the same loops; the task of [k] is looked
    up before the first constraint and the task of [j] before the second;
    the durations are not tested. *)
Definition add_disjunctive_constraints (self : JobShopSchedulingCQM)
    (model_data : JobShopData) : result JobShopSchedulingCQM :=
  let V := get_max_makespan model_data in
  for_each (jobs model_data) (λ j self,
    for_each (jobs model_data) (λ k self,
      if decide (j < k) then
        for_each (resources model_data) (λ i self,
          task_k ← get_resource_job_tasks model_data k i;
          _ ← of_option (cqm self) AttributeError;
          x_ji ← of_option (x self !! (j, i)) KeyError;
          x_ki ← of_option (x self !! (k, i)) KeyError;
          y_jki ← of_option (y self !! (j, k, i)) KeyError;
          self ← self_add_constraint self
            (x_ji - x_ki - Num (duration task_k) + y_jki * Num V >== 0)
            (disjunction1_label j k i);
          task_j ← get_resource_job_tasks model_data j i;
          self_add_constraint self
            (x_ki - x_ji - Num (duration task_j)
             + (Num 1 - y_jki) * Num V >== 0)
            (disjunction2_label j k i)) self
      else Ok self) self) self.

(** [add_makespan_constraint]: for each job, one constraint on its last
    task, [job_tasks[job][-1]]. *)
Definition add_makespan_constraint (self : JobShopSchedulingCQM)
    (model_data : JobShopData) : result JobShopSchedulingCQM :=
  for_each (jobs model_data) (λ job self,
    tasks ← of_option (job_tasks model_data !! job) KeyError;
    last_job_task ← py_last tasks;
    let last_machine := resource last_job_task in
    _ ← of_option (cqm self) AttributeError;
    x_last ← of_option (x self !! (job, last_machine)) KeyError;
    ms ← of_option (makespan self) TypeError;
    self_add_constraint self
      (ms - x_last >== duration last_job_task)
      (makespan_label job)) self.

(** The value a sample gives the first variable of an expression:
    [sample[e.variables[0]]]. *)
Definition sample_at (s : sample) (e : expr) : result Z :=
  name ← of_option (head (variables e)) IndexError;
  of_option (dict_get s name) KeyError.

(** One item of the dictionary comprehension that fills [self.solution]. *)
Definition extract_entry (self : JobShopSchedulingCQM)
    (model_data : JobShopData) (s : sample) (j i : Z)
  : result ((Z * Z) * (Task * Z * Z)) :=
  task ← get_resource_job_tasks model_data j i;
  x_ji ← of_option (x self !! (j, i)) KeyError;
  start ← sample_at s x_ji;
  task' ← get_resource_job_tasks model_data j i;
  Ok ((j, i), (task, start, duration task')).

Definition with_result (self : JobShopSchedulingCQM) (s : sample)
    (sol : solution_table) (t : Z) : JobShopSchedulingCQM :=
  {| model_data := model_data self; cqm := cqm self; x := x self;
     y := y self; makespan := makespan self; best_sample := s;
     solution := sol; completion_time := t |}.

(** [call_cqm_solver]: sample, keep the feasible records if there are any
    and warn otherwise, take the first record of the ten best, and read the
    solution and the completion time off its sample. *)
Definition call_cqm_solver (env : environment) (self : JobShopSchedulingCQM)
    (time_limit : option Z) (model_data : JobShopData)
  : Eff JobShopSchedulingCQM :=
  m ⇐ lift (of_option (cqm self) AttributeError);;
  emit (SampleCQM m time_limit);;;
  raw_sampleset ⇐ lift (leap_sample_cqm env m time_limit);;
  let feasible_sampleset := filter_feasible raw_sampleset in
  let num_feasible := length feasible_sampleset in
  best_samples ⇐
    (if decide (0 < num_feasible)%nat
     then eff_ret (truncate (10 `min` num_feasible) feasible_sampleset)
     else emit (Warn "Warning: Did not find feasible solution");;;
          eff_ret (truncate 10 raw_sampleset));;
  emit (Print (banner 30 "BEST SAMPLE SET"));;;
  emit (PrintSampleSet best_samples);;;
  best ⇐ lift (first best_samples);;
  let best_sample := d_sample best in
  sol ⇐ lift (for_each
    (i ← resources model_data; j ← jobs model_data; [(j, i)])
    (λ ji sol,
       entry ← extract_entry self model_data best_sample ji.1 ji.2;
       Ok (dict_set sol entry.1 entry.2)) []);;
  t ⇐ lift (of_option (dict_get best_sample "makespan") KeyError);;
  eff_ret (with_result self best_sample sol t).

(** One iteration of the loop over [best_sol.items()]. *)
Definition mip_entry (self : JobShopSchedulingCQM) (item : string * Z)
    (sol : solution_table) : result solution_table :=
  let var := item.1 in
  let val := item.2 in
  if startswith_x var then
    match split "_" (str_tail var) with
    | [job; machine] =>
        job' ← py_int job;
        machine' ← py_int machine;
        task ← get_resource_job_tasks (model_data self) job' machine';
        Ok (dict_set sol (job', machine') (task, val, duration task))
    | _ => Raise (ValueError "not enough or too many values to unpack")
    end
  else Ok sol.

(** [call_mip_solver]: sample, take the first record, and fill
    [self.solution] from the variables named [x...]; [self.completion_time]
    and [self.best_sample] are not assigned.  The method has no [return]
    statement: the caller gets [None], here [tt]. *)
Definition call_mip_solver (env : environment) (self : JobShopSchedulingCQM)
    (time_limit : Z) : Eff (unit * JobShopSchedulingCQM) :=
  m ⇐ lift (of_option (cqm self) AttributeError);;
  emit (SampleMIP m time_limit);;;
  sol ⇐ lift (mip_sample_cqm env m time_limit);;
  best ⇐ lift (first sol);;
  let best_sol := d_sample best in
  table ⇐ lift (for_each best_sol (mip_entry self) []);;
  eff_ret (tt, with_solution self table).

Definition DataFrame := list (Z * Task * Z * Z * Z).

(** [solution_as_dataframe]: one row [j, task, start, start + dur, i] per
    item of [self.solution]. *)
Definition solution_as_dataframe (self : JobShopSchedulingCQM) : DataFrame :=
  (λ e, match e with
        | ((j, i), (task, start, dur)) => (j, task, start, start + dur, i)
        end) <$> solution self.

(** The model the entry point builds before it calls a solver. *)
Definition build_model (job_data : JobShopData)
    (allow_quadratic_constraints : bool) : result JobShopSchedulingCQM :=
  let model := init job_data in
  let model := define_cqm_model model in
  let model := define_variables model job_data in
  model ← add_precedence_constraints model job_data;
  model ← (if allow_quadratic_constraints
           then add_quadratic_overlap_constraint model job_data
           else add_disjunctive_constraints model job_data);
  model ← add_makespan_constraint model job_data;
  define_objective_function model.

(** [run_shop_scheduler].  The configuration check is the first statement;
    [time() - start_time] reads the clock and then the global. *)
Definition run_shop_scheduler (env : environment) (job_data : JobShopData)
    (max_time : option Z) (use_mip_solver verbose
     allow_quadratic_constraints : bool) : Eff DataFrame :=
  if allow_quadratic_constraints && use_mip_solver then
    lift (Raise (ValueError "Cannot use quadratic constraints with MIP solver"))
  else
    now ⇐ time env;;
    started ⇐ lift (of_option (start_time env) (NameError "start_time"));;
    let model_building_start := now - started in
    model ⇐ lift (build_model job_data allow_quadratic_constraints);;
    solver_start_time ⇐ time env;;
    model ⇐
      (if use_mip_solver
       then r ⇐ call_mip_solver env model 100;; eff_ret r.2
       else call_cqm_solver env model max_time job_data);;
    now ⇐ time env;;
    let solver_time := now - solver_start_time in
    (if verbose then
       emit (Print (banner 55 "SOLUTION RESULTS"));;;
       now ⇐ time env;;
       emit (Tabulate (completion_time model) (get_max_makespan job_data)
               model_building_start solver_time (now - started))
     else eff_ret tt);;;
    eff_ret (solution_as_dataframe model).

(** ** The constraints as the specification states them

    The builder's loops are compared below with these lists, written from
    the specification's formulas over the variables [start(j,i)],
    [y[j,k,i]] and [makespan]. *)

Definition start_var (model_data : JobShopData) (j i : Z) : expr :=
  Integer (x_name j i) 0 (max_makespan model_data).

Definition order_var (j k i : Z) : expr := Binary (y_name j k i).

Definition makespan_var (model_data : JobShopData) : expr :=
  Integer "makespan" 0 (max_makespan model_data).

(** The pairs (prev, curr) of neighbours in a sequence. *)
Fixpoint consecutive {A} (l : list A) : list (A * A) :=
  match l with
  | a :: r => match r with
              | b :: _ => (a, b) :: consecutive r
              | [] => []
              end
  | [] => []
  end.

Definition tasks_of (model_data : JobShopData) (job : Z) : list Task :=
  default [] (job_tasks model_data !! job).

Definition task_on (model_data : JobShopData) (job i : Z) : option Task :=
  resource_job_tasks model_data !! (job, i).

(** [start(curr) - start(prev) >= duration(prev)] *)
Definition precedence_constraint (model_data : JobShopData) (job : Z)
    (prev curr : Task) : string * comparison :=
  (precedence_label job (resource curr),
   start_var model_data job (resource curr)
   - start_var model_data job (resource prev) >== duration prev).

Definition precedence_constraints (model_data : JobShopData)
  : list (string * comparison) :=
  job ← jobs model_data;
  pc ← consecutive (tasks_of model_data job);
  [precedence_constraint model_data job pc.1 pc.2].

(** The triples [(j, k, i)] of two jobs with [j < k] and a resource. *)
Definition pair_resources (model_data : JobShopData) : list (Z * Z * Z) :=
  j ← jobs model_data; k ← jobs model_data;
  if decide (j < k) then i ← resources model_data; [(j, k, i)] else [].

(** [start(j,i) - start(k,i) - duration(k,i) + y[j,k,i]*V >= 0] *)
Definition disjunction1 (model_data : JobShopData) (j k i : Z)
    (task_k : Task) : string * comparison :=
  (disjunction1_label j k i,
   start_var model_data j i - start_var model_data k i
   - Num (duration task_k)
   + order_var j k i * Num (max_makespan model_data) >== 0).

(** [start(k,i) - start(j,i) - duration(j,i) + (1 - y[j,k,i])*V >= 0] *)
Definition disjunction2 (model_data : JobShopData) (j k i : Z)
    (task_j : Task) : string * comparison :=
  (disjunction2_label j k i,
   start_var model_data k i - start_var model_data j i
   - Num (duration task_j)
   + (Num 1 - order_var j k i) * Num (max_makespan model_data) >== 0).

Definition disjunctive_at (model_data : JobShopData) (jki : Z * Z * Z)
  : list (string * comparison) :=
  match jki with
  | (j, k, i) =>
      match task_on model_data j i, task_on model_data k i with
      | Some task_j, Some task_k =>
          [disjunction1 model_data j k i task_k;
           disjunction2 model_data j k i task_j]
      | _, _ => []
      end
  end.

Definition disjunctive_constraints (model_data : JobShopData)
  : list (string * comparison) :=
  pair_resources model_data ≫= disjunctive_at model_data.

(** [start(j,i) - start(k,i) + (duration(k,i) - duration(j,i))*y[j,k,i]
     + 2*y[j,k,i]*(start(k,i) - start(j,i)) >= duration(k,i)] *)
Definition overlap (model_data : JobShopData) (j k i : Z)
    (task_j task_k : Task) : string * comparison :=
  (overlap_label j k i,
   start_var model_data j i - start_var model_data k i
   + Num (duration task_k - duration task_j) * order_var j k i
   + Num 2 * order_var j k i
     * (start_var model_data k i - start_var model_data j i)
   >== duration task_k).

Definition overlap_at (model_data : JobShopData) (jki : Z * Z * Z)
  : list (string * comparison) :=
  match jki with
  | (j, k, i) =>
      match task_on model_data j i, task_on model_data k i with
      | Some task_j, Some task_k =>
          if decide (0 < duration task_k ∧ 0 < duration task_j)
          then [overlap model_data j k i task_j task_k]
          else []
      | _, _ => []
      end
  end.

Definition overlap_constraints (model_data : JobShopData)
  : list (string * comparison) :=
  pair_resources model_data ≫= overlap_at model_data.

(** [makespan - start(last task's resource) >= duration(last task)] *)
Definition makespan_constraint (model_data : JobShopData) (job : Z)
    (last_task : Task) : string * comparison :=
  (makespan_label job,
   makespan_var model_data - start_var model_data job (resource last_task)
   >== duration last_task).

Definition makespan_constraints (model_data : JobShopData)
  : list (string * comparison) :=
  job ← jobs model_data;
  match last (tasks_of model_data job) with
  | Some t => [makespan_constraint model_data job t]
  | None => []
  end.

(** A model with more constraints. *)
Definition extend (m : ConstrainedQuadraticModel)
    (cs : list (string * comparison)) : ConstrainedQuadraticModel :=
  {| objective := objective m; constraints := constraints m ++ cs |}.

(** The labels of [cs] are new to [m] and differ from each other. *)
Definition fresh_for (m : ConstrainedQuadraticModel)
    (cs : list (string * comparison)) : Prop :=
  NoDup cs.*1 ∧ ∀ l, l ∈ cs.*1 → l ∉ labels m.

(** ** Instances used as examples

    The two-job, two-resource scenario of the specification: job 0 runs on
    resource 1 for 3 then on resource 2 for 2; job 1 runs on resource 2 for 4
    then on resource 1 for 1. *)

Definition data_of (js rs : list Z) (tasks : list (Z * list Task))
    (bound : Z) : JobShopData :=
  {| jobs := js; resources := rs;
     job_tasks := list_to_map tasks;
     resource_job_tasks :=
       list_to_map (jt ← tasks; t ← jt.2; [((jt.1, resource t), t)]);
     max_makespan := bound |}.

Definition two_by_two : JobShopData :=
  data_of [0; 1] [1; 2]
    [(0, [{| resource := 1; duration := 3 |};
          {| resource := 2; duration := 2 |}]);
     (1, [{| resource := 2; duration := 4 |};
          {| resource := 1; duration := 1 |}])]
    10.

(** One job with a single task, on the first of two resources. *)
Definition one_task : JobShopData :=
  data_of [0] [0; 1] [(0, [{| resource := 0; duration := 5 |}])] 5.

(** Two jobs on one resource; the task of job 0 takes no time. *)
Definition zero_duration : JobShopData :=
  data_of [0; 1] [0]
    [(0, [{| resource := 0; duration := 0 |}]);
     (1, [{| resource := 0; duration := 4 |}])]
    4.

(** An assignment for [two_by_two] with makespan 6, and one that starts every
    task at time 0. *)
Definition schedule_6 : sample :=
  [("x0_1", 0); ("x0_2", 4); ("x1_1", 4); ("x1_2", 0);
   ("y0_1_1", 1); ("y0_1_2", 0); ("makespan", 6)].

Definition all_at_0 (makespan : Z) : sample :=
  [("x0_1", 0); ("x0_2", 0); ("x1_1", 0); ("x1_2", 0);
   ("y0_1_1", 0); ("y0_1_2", 0); ("makespan", makespan)].

(** An environment whose samplers answer [answer], with a clock that counts
    its readings and the global [start_time] set to 0. *)
Definition answering (answer : SampleSet) : environment :=
  {| leap_sample_cqm := λ _ _, Ok answer;
     mip_sample_cqm := λ _ _, Ok answer;
     clock := Z.of_nat;
     start_time := Some 0 |}.

Definition optimal_answer : SampleSet :=
  [{| d_sample := schedule_6; energy := 6; is_feasible := true |}].

Definition infeasible_answer : SampleSet :=
  [{| d_sample := all_at_0 5; energy := 5; is_feasible := false |};
   {| d_sample := all_at_0 3; energy := 3; is_feasible := false |}].

(** An answer whose sample of lowest energy is infeasible and whose other
    sample is feasible. *)
Definition mixed_answer : SampleSet :=
  [{| d_sample := all_at_0 3; energy := 3; is_feasible := false |};
   {| d_sample := schedule_6; energy := 6; is_feasible := true |}].

Definition quiet : world := {| trace := []; ticks := 0 |}.

(** ** Well-formedness of the data, as the loops need it *)

(** For the precedence loop: every job has a task sequence, its tasks run on
    resources of the data source, and the tasks after the first run on
    different resources. *)
Definition sequenced (model_data : JobShopData) : Prop :=
  Forall (λ job,
    match job_tasks model_data !! job with
    | Some tasks =>
        Forall (λ t, resource t ∈ resources model_data) tasks
        ∧ NoDup (resource <$> py_tail tasks)
    | None => False
    end) (jobs model_data).

#[global] Instance sequenced_dec model_data : Decision (sequenced model_data).
Proof.
  apply Forall_dec. intros job.
  destruct (job_tasks model_data !! job); apply _.
Defined.

(** For the exclusivity loops: the two jobs of every triple both have a task
    on the resource of the triple. *)
Definition all_shared (model_data : JobShopData) : Prop :=
  Forall (λ jki,
    is_Some (task_on model_data jki.1.1 jki.2)
    ∧ is_Some (task_on model_data jki.1.2 jki.2))
    (pair_resources model_data).

#[global] Instance all_shared_dec model_data :
  Decision (all_shared model_data).
Proof. apply Forall_dec. intros jki. apply _. Defined.

(** For the makespan loop: every job has a last task, on a resource of the
    data source. *)
Definition terminated (model_data : JobShopData) : Prop :=
  Forall (λ job,
    match job_tasks model_data !! job with
    | Some tasks =>
        match last tasks with
        | Some t => resource t ∈ resources model_data
        | None => False
        end
    | None => False
    end) (jobs model_data).

#[global] Instance terminated_dec model_data :
  Decision (terminated model_data).
Proof.
  apply Forall_dec. intros job.
  destruct (job_tasks model_data !! job) as [tasks|]; [|apply _].
  destruct (last tasks); apply _.
Defined.

(** For the extraction of a solution: every job has a task on every
    resource, and a sample gives a value to every start-time variable and to
    the makespan. *)
Definition all_pairs (model_data : JobShopData) : list (Z * Z) :=
  i ← resources model_data; j ← jobs model_data; [(j, i)].

Definition complete (model_data : JobShopData) : Prop :=
  Forall (λ ji, is_Some (task_on model_data ji.1 ji.2))
    (all_pairs model_data).

Definition covers (model_data : JobShopData) (s : sample) : Prop :=
  Forall (λ ji, is_Some (dict_get s (x_name ji.1 ji.2)))
    (all_pairs model_data)
  ∧ is_Some (dict_get s "makespan").

#[global] Instance complete_dec model_data : Decision (complete model_data).
Proof. apply Forall_dec. intros ji. apply _. Defined.

#[global] Instance covers_dec model_data s : Decision (covers model_data s).
Proof. apply and_dec; [|apply _]. apply Forall_dec. intros ji. apply _. Defined.

(** ** Notions used in the proofs *)

Fixpoint no_underscore (s : string) : Prop :=
  match s with
  | EmptyString => True
  | String c r => c ≠ "_"%char ∧ no_underscore r
  end.

(** The first record is one of lowest energy. *)
Definition head_lowest (l : SampleSet) : Prop :=
  ∀ d, head l = Some d → ∀ d', d' ∈ l → energy d ≤ energy d'.

(** Push the literal prefix of a concatenation to the front. *)
Ltac norm_str :=
  repeat match goal with
  | |- context [String ?c ?s +:+ ?t] =>
      change (String c s +:+ t) with (String c (s +:+ t))
  | |- context [EmptyString +:+ ?t] => change (EmptyString +:+ t) with t
  end.

(** The symbolic variables a constraint of the model may mention: the
    makespan, a start time, or an indicator y[j,k,i] with [j < k]. *)
Definition allowed_symbol (model_data : JobShopData) (v : variable) : Prop :=
  v = {| vname := "makespan"; vtype := INTEGER 0 (max_makespan model_data) |}
  ∨ (∃ j i, v = {| vname := x_name j i;
                   vtype := INTEGER 0 (max_makespan model_data) |})
  ∨ (∃ j k i, j < k ∧ j ∈ jobs model_data ∧ k ∈ jobs model_data
        ∧ i ∈ resources model_data
        ∧ v = {| vname := y_name j k i; vtype := BINARY |}).

Definition allowed_constraints (model_data : JobShopData)
    (m : ConstrainedQuadraticModel) : Prop :=
  ∀ lc v, lc ∈ constraints m → v ∈ symbols (lhs lc.2) →
    allowed_symbol model_data v.

(** The object is the one [define_variables] left, with some model whose
    constraints mention allowed variables only. *)
Definition built_on (model_data : JobShopData) (s0 : JobShopSchedulingCQM)
    (self : JobShopSchedulingCQM) : Prop :=
  ∃ m, self = with_cqm s0 m ∧ allowed_constraints model_data m.

(** Invert a successful run of a sequence of steps. *)
Ltac bind_inv :=
  repeat match goal with
  | H : of_option ?o _ = Ok _ |- _ =>
      let E := fresh "E" in
      destruct o eqn:E; simpl in H; [injection H as <- | discriminate H]
  | H : (?m ≫= _) = Ok _ |- _ =>
      let E := fresh "E" in
      destruct m eqn:E; simpl in H; [|discriminate H]
  end.

(** ** Notions for the local solver's table *)

Fixpoint string_forall (P : ascii → Prop) (s : string) : Prop :=
  match s with
  | EmptyString => True
  | String c r => P c ∧ string_forall P r
  end.

(** The names of the start-time variables of the pairs that have a task. *)
Definition x_names (model_data : JobShopData) : list string :=
  (λ ji, x_name ji.1 ji.2) <$> (map_to_list (resource_job_tasks model_data)).*1.

(** Every variable of the sample whose name starts with [x] is the
    start-time variable of a pair that has a task. *)
Definition decodable (model_data : JobShopData) (s : sample) : Prop :=
  Forall (λ item, startswith_x item.1 = false ∨ item.1 ∈ x_names model_data) s.

#[global] Instance decodable_dec model_data s : Decision (decodable model_data s).
Proof. apply Forall_dec. intros item. apply _. Defined.

(** The time a sequence of tasks takes when run back to back. *)
Definition total_duration (l : list Task) : Z :=
  foldr (λ t acc, duration t + acc) 0 l.

(** ** The solver calls of a run

    The events of a trace that are a call of one of the two samplers. *)

Definition is_solver_call (e : event) : bool :=
  match e with
  | SampleCQM _ _ | SampleMIP _ _ => true
  | _ => false
  end.

Definition solver_calls (tr : list event) : list event :=
  List.filter is_solver_call tr.

(** The two lookups of the data source agree: the task of a job on a
    resource is one of the tasks of the job, and runs on that resource. *)
Definition lookups_agree (model_data : JobShopData) : Prop :=
  map_Forall (λ (ji : Z * Z) task,
    task ∈ tasks_of model_data ji.1 ∧ resource task = ji.2)
    (resource_job_tasks model_data).

#[global] Instance lookups_agree_dec model_data :
  Decision (lookups_agree model_data).
Proof. apply map_Forall_dec. intros ji task. apply _. Defined.

(** No task takes a negative time. *)
Definition durations_nonneg (model_data : JobShopData) : Prop :=
  Forall (λ job, Forall (λ t, 0 ≤ duration t) (tasks_of model_data job))
    (jobs model_data).

#[global] Instance durations_nonneg_dec model_data :
  Decision (durations_nonneg model_data).
Proof. apply Forall_dec. intros job. apply _. Defined.

(** * Properties *)

(** ** Names are injective *)

Lemma pretty_N_char_no_underscore n : pretty_N_char n ≠ "_"%char.
Proof. unfold pretty_N_char. repeat case_match; discriminate. Qed.

Lemma pretty_N_go_no_underscore n s :
  no_underscore s → no_underscore (pretty_N_go n s).
Proof.
  revert s. induction (N.lt_wf_0 n) as [n _ IH]; intros s Hs.
  destruct (decide (n = 0)%N) as [->|Hn].
  - by rewrite pretty_N_go_0.
  - rewrite pretty_N_go_step by lia. apply IH.
    + apply N.div_lt; lia.
    + split; [apply pretty_N_char_no_underscore | done].
Qed.

Lemma pretty_N_no_underscore (n : N) : no_underscore (pretty n).
Proof.
  unfold pretty, pretty_N. case_decide; [by compute|].
  by apply pretty_N_go_no_underscore.
Qed.

Lemma pretty_Z_no_underscore (z : Z) : no_underscore (pretty z).
Proof.
  destruct z as [|p|p]; unfold pretty, pretty_Z.
  - by compute.
  - apply pretty_N_no_underscore.
  - split; [discriminate | apply pretty_N_no_underscore].
Qed.

(** A string is cut in one way only at its first underscore. *)
Lemma cut_at_underscore a a' b b' :
  no_underscore a → no_underscore a' →
  a +:+ String "_" b = a' +:+ String "_" b' → a = a' ∧ b = b'.
Proof.
  revert a'. induction a as [|c a IH]; intros [|c' a'] Ha Ha' E;
    simpl in *; simplify_eq; try done.
  - by destruct Ha'.
  - by destruct Ha.
  - destruct Ha, Ha'. by destruct (IH a') as [-> ->].
Qed.

Lemma pretty_cut (j j' : Z) b b' :
  pretty j +:+ String "_" b = pretty j' +:+ String "_" b' → j = j' ∧ b = b'.
Proof.
  intros E. apply cut_at_underscore in E as [E ->];
    auto using pretty_Z_no_underscore.
  by apply (inj pretty) in E.
Qed.

Lemma x_name_inj j i j' i' : x_name j i = x_name j' i' → j = j' ∧ i = i'.
Proof.
  unfold x_name; norm_str. intros [= E]. apply pretty_cut in E as [-> E].
  by apply (inj pretty) in E.
Qed.

Lemma y_name_inj j k i j' k' i' :
  y_name j k i = y_name j' k' i' → j = j' ∧ k = k' ∧ i = i'.
Proof.
  unfold y_name; norm_str. intros [= E]. apply pretty_cut in E as [-> E].
  apply pretty_cut in E as [-> E]. by apply (inj pretty) in E.
Qed.

Lemma precedence_label_inj j i j' i' :
  precedence_label j i = precedence_label j' i' → j = j' ∧ i = i'.
Proof.
  unfold precedence_label; norm_str. intros [= E].
  apply pretty_cut in E as [-> [= E]]. by apply (inj pretty) in E.
Qed.

Lemma overlap_label_inj j k i j' k' i' :
  overlap_label j k i = overlap_label j' k' i' → j = j' ∧ k = k' ∧ i = i'.
Proof.
  unfold overlap_label; norm_str. intros [= E].
  apply pretty_cut in E as [-> [= E]]. apply pretty_cut in E as [-> [= E]].
  by apply (inj pretty) in E.
Qed.

Lemma disjunction1_label_inj j k i j' k' i' :
  disjunction1_label j k i = disjunction1_label j' k' i' →
  j = j' ∧ k = k' ∧ i = i'.
Proof.
  unfold disjunction1_label; norm_str. intros [= E].
  apply pretty_cut in E as [-> [= E]]. apply pretty_cut in E as [-> [= E]].
  by apply (inj pretty) in E.
Qed.

Lemma disjunction2_label_inj j k i j' k' i' :
  disjunction2_label j k i = disjunction2_label j' k' i' →
  j = j' ∧ k = k' ∧ i = i'.
Proof.
  unfold disjunction2_label; norm_str. intros [= E].
  apply pretty_cut in E as [-> [= E]]. apply pretty_cut in E as [-> [= E]].
  by apply (inj pretty) in E.
Qed.

Lemma makespan_label_inj j j' : makespan_label j = makespan_label j' → j = j'.
Proof.
  unfold makespan_label; norm_str. intros [= E]. by apply (inj pretty) in E.
Qed.

Lemma disjunction_labels_differ j k i j' k' i' :
  disjunction1_label j k i ≠ disjunction2_label j' k' i'.
Proof. unfold disjunction1_label, disjunction2_label; norm_str. congruence. Qed.

(** ** Loops *)

Lemma for_each_app {A S} (l1 l2 : list A) (body : A → S → result S) s :
  for_each (l1 ++ l2) body s = s' ← for_each l1 body s; for_each l2 body s'.
Proof.
  revert s. induction l1 as [|a l1 IH]; intros s; simpl; [done|].
  destruct (body a s) as [s1|e]; simpl; [apply IH | done].
Qed.

Lemma for_each_invariant {A S} (P : S → Prop) (l : list A)
    (body : A → S → result S) s s' :
  P s →
  (∀ a s1 s2, a ∈ l → P s1 → body a s1 = Ok s2 → P s2) →
  for_each l body s = Ok s' → P s'.
Proof.
  revert s. induction l as [|a l IH]; intros s Hs Hbody; simpl.
  - by intros [= <-].
  - destruct (body a s) as [s1|e] eqn:E; simpl; [|done].
    apply IH.
    + eapply Hbody; [left | done | done].
    + intros b s2 s3 Hb. apply Hbody. by right.
Qed.

Lemma for_each_visits {A S} (l : list A) (body : A → S → result S) s s' a :
  for_each l body s = Ok s' → a ∈ l → ∃ s1 s2, body a s1 = Ok s2.
Proof.
  revert s. induction l as [|b l IH]; intros s; simpl.
  - by intros _ ?%elem_of_nil.
  - destruct (body b s) as [s1|e] eqn:E; simpl; [|done].
    intros Hrun [->|Hin]%elem_of_cons; [by exists s, s1 | by eapply IH].
Qed.

Lemma extend_nil m : extend m [] = m.
Proof. destruct m. unfold extend; simpl. by rewrite app_nil_r. Qed.

Lemma extend_extend m cs1 cs2 :
  extend (extend m cs1) cs2 = extend m (cs1 ++ cs2).
Proof. unfold extend; simpl. by rewrite app_assoc. Qed.

Lemma labels_extend m cs : labels (extend m cs) = (labels m ++ cs.*1)%list.
Proof. unfold labels, extend; simpl. by rewrite fmap_app. Qed.

Lemma fresh_for_nil m : fresh_for m [].
Proof. split; [constructor | intros l Hl; by apply elem_of_nil in Hl]. Qed.

Lemma fresh_for_app m cs1 cs2 :
  fresh_for m (cs1 ++ cs2) → fresh_for m cs1 ∧ fresh_for (extend m cs1) cs2.
Proof.
  intros [Hnd Hfresh]. rewrite fmap_app in Hnd, Hfresh.
  apply NoDup_app in Hnd as (Hnd1 & Hdisj & Hnd2).
  split; split; try done.
  - intros l Hl. apply Hfresh, elem_of_app. by left.
  - intros l Hl. rewrite labels_extend, elem_of_app. intros [Hm|H1].
    + revert Hm. apply Hfresh, elem_of_app. by right.
    + by apply (Hdisj l).
Qed.

Lemma self_add_constraint_fresh self m c label :
  label ∉ labels m →
  self_add_constraint (with_cqm self m) c label
  = Ok (with_cqm self (extend m [(label, c)])).
Proof.
  intros Hl. unfold self_add_constraint, add_constraint; simpl.
  by rewrite decide_False.
Qed.

(** A loop whose every round appends the constraints [out a], and nothing
    else, appends them all, provided the labels do not clash. *)
Lemma for_each_emits {A} (self : JobShopSchedulingCQM) (l : list A)
    (body : A → JobShopSchedulingCQM → result JobShopSchedulingCQM)
    (out : A → list (string * comparison)) m :
  (∀ a m', a ∈ l → fresh_for m' (out a) →
     body a (with_cqm self m') = Ok (with_cqm self (extend m' (out a)))) →
  fresh_for m (l ≫= out) →
  for_each l body (with_cqm self m)
  = Ok (with_cqm self (extend m (l ≫= out))).
Proof.
  revert m. induction l as [|a l IH]; intros m Hbody Hfresh; simpl.
  - by rewrite extend_nil.
  - simpl in Hfresh. apply fresh_for_app in Hfresh as [H1 H2].
    rewrite (Hbody a m) by (done || left). simpl.
    rewrite IH, ?extend_extend; [done| |done].
    intros b m' Hb. apply Hbody. by right.
Qed.

Lemma fmap_bind_list {A B C} (f : B → C) (g : A → list B) (l : list A) :
  f <$> (l ≫= g) = l ≫= (λ a, f <$> g a).
Proof.
  induction l as [|a l IH]; [done|].
  by rewrite !bind_cons, fmap_app, IH.
Qed.

Lemma bind_singleton_fmap {A B} (f : A → B) (l : list A) :
  l ≫= (λ a, [f a]) = f <$> l.
Proof. induction l as [|a l IH]; [done|]. by rewrite bind_cons, IH. Qed.

Lemma length_bind_sum {A B} (g : A → list B) (l : list A) :
  length (l ≫= g) = sum_list_with (λ a, length (g a)) l.
Proof.
  induction l as [|a l IH]; [done|].
  by rewrite bind_cons, length_app, IH.
Qed.

(** Labels stay distinct across the rounds of a loop when they are distinct
    within each round and no label belongs to two rounds. *)
Lemma NoDup_labels_bind {A} (l : list A)
    (out : A → list (string * comparison)) :
  NoDup l →
  (∀ a, a ∈ l → NoDup (out a).*1) →
  (∀ a1 a2 lab, a1 ∈ l → a2 ∈ l →
     lab ∈ (out a1).*1 → lab ∈ (out a2).*1 → a1 = a2) →
  NoDup (l ≫= out).*1.
Proof.
  intros Hl Hout Hinj. rewrite fmap_bind_list. by apply NoDup_bind.
Qed.

(** ** The variables [define_variables] creates *)

Arguments extend : simpl never.

Lemma dict_of_lookup `{Countable K} {V} (f : K → V) (l : list (K * V)) k :
  (∀ kv, kv ∈ l → kv.2 = f kv.1) →
  dict_of l !! k = if decide (k ∈ l.*1) then Some (f k) else None.
Proof.
  unfold dict_of.
  cut (∀ m : gmap K V, (∀ kv, kv ∈ l → kv.2 = f kv.1) →
         foldl (λ m kv, <[kv.1 := kv.2]> m) m l !! k
         = if decide (k ∈ l.*1) then Some (f k) else m !! k).
  { intros Hcut Hf. rewrite Hcut by done. by rewrite lookup_empty. }
  induction l as [|[k' v] l IH]; intros m Hf; simpl.
  - done.
  - rewrite IH by (intros kv Hkv; apply Hf; by right).
    destruct (decide (k ∈ l.*1)) as [Hin|Hin].
    + rewrite decide_True; [done | by right].
    + destruct (decide (k' = k)) as [->|Hne].
      * rewrite decide_True by left. rewrite lookup_insert_eq.
        f_equal. apply (Hf (k, v)). left.
      * rewrite decide_False, lookup_insert_ne; [done..|].
        intros [?|?]%elem_of_cons; done.
Qed.

Lemma x_define_variables self model_data j i :
  x (define_variables self model_data) !! (j, i)
  = if decide (j ∈ jobs model_data ∧ i ∈ resources model_data)
    then Some (start_var model_data j i) else None.
Proof.
  unfold define_variables, with_variables; simpl.
  rewrite (dict_of_lookup (λ ji, start_var model_data ji.1 ji.2)).
  - apply option_eq; intros e. repeat case_decide; try done.
    + exfalso. match goal with H : ¬ _ |- _ => apply H end.
      match goal with H : _ ∈ _.*1 |- _ =>
        apply list_elem_of_fmap in H as ([? e'] & ? & Hin) end.
      apply list_elem_of_bind in Hin as (j' & Hin & Hj).
      apply list_elem_of_bind in Hin as (i' & Hin & Hi).
      apply list_elem_of_singleton in Hin. by simplify_eq/=.
    + exfalso. match goal with H : ¬ _ ∈ _.*1 |- _ => apply H end.
      match goal with H : _ ∧ _ |- _ => destruct H as [Hj Hi] end.
      apply list_elem_of_fmap.
      exists ((j, i), start_var model_data j i). split; [done|].
      apply list_elem_of_bind. exists j. split; [|done].
      apply list_elem_of_bind. exists i. split; [|done].
      by apply list_elem_of_singleton.
  - intros [[j' i'] e] Hin.
    apply list_elem_of_bind in Hin as (j'' & Hin & _).
    apply list_elem_of_bind in Hin as (i'' & Hin & _).
    apply list_elem_of_singleton in Hin. by simplify_eq/=.
Qed.

Lemma y_define_variables self model_data j k i :
  y (define_variables self model_data) !! (j, k, i)
  = if decide (j ∈ jobs model_data ∧ k ∈ jobs model_data
               ∧ i ∈ resources model_data)
    then Some (order_var j k i) else None.
Proof.
  unfold define_variables, with_variables; simpl.
  rewrite (dict_of_lookup (λ jki, order_var jki.1.1 jki.1.2 jki.2)).
  - apply option_eq; intros e. repeat case_decide; try done.
    + exfalso. match goal with H : ¬ _ |- _ => apply H end.
      match goal with H : _ ∈ _.*1 |- _ =>
        apply list_elem_of_fmap in H as ([? e'] & ? & Hin) end.
      apply list_elem_of_bind in Hin as (j' & Hin & Hj).
      apply list_elem_of_bind in Hin as (k' & Hin & Hk).
      apply list_elem_of_bind in Hin as (i' & Hin & Hi).
      apply list_elem_of_singleton in Hin. by simplify_eq/=.
    + exfalso. match goal with H : ¬ _ ∈ _.*1 |- _ => apply H end.
      match goal with H : _ ∧ _ |- _ => destruct H as (Hj & Hk & Hi) end.
      apply list_elem_of_fmap.
      exists ((j, k, i), order_var j k i). split; [done|].
      apply list_elem_of_bind. exists j. split; [|done].
      apply list_elem_of_bind. exists k. split; [|done].
      apply list_elem_of_bind. exists i. split; [|done].
      by apply list_elem_of_singleton.
  - intros [[[j' k'] i'] e] Hin.
    apply list_elem_of_bind in Hin as (j'' & Hin & _).
    apply list_elem_of_bind in Hin as (k'' & Hin & _).
    apply list_elem_of_bind in Hin as (i'' & Hin & _).
    apply list_elem_of_singleton in Hin. by simplify_eq/=.
Qed.

Lemma variable_names_differ :
  (∀ j i, x_name j i ≠ "makespan") ∧
  (∀ j k i, y_name j k i ≠ "makespan") ∧
  (∀ j i j' k' i', x_name j i ≠ y_name j' k' i').
Proof. unfold x_name, y_name. split_and!; intros; norm_str; congruence. Qed.

(** C5, as stated, fails: on the instance [one_task], whose only job has no
    task on resource 1, a start-time variable is still created for the pair
    (0, 1), and the diagonal indicator y[0,0,0] is created too. *)
Lemma define_variables_not_only_tasks :
  task_on one_task 0 1 = None ∧
  x (define_variables (init one_task) one_task) !! (0, 1)
  = Some (Integer "x0_1" 0 5) ∧
  y (define_variables (init one_task) one_task) !! (0, 0, 0)
  = Some (Binary "y0_0_0").
Proof. by vm_compute. Qed.

(** C5, amended: [define_variables] creates an integer start-time variable
    with domain [0, max makespan] for every pair of a job and a resource of
    the data source, whether or not the job has a task there; a boolean
    indicator for every triple of two jobs and a resource, the two jobs equal
    or not; and the single integer makespan variable with domain
    [0, max makespan].  Distinct keys get distinctly named variables. *)
Theorem define_variables_creates self model_data :
  let self' := define_variables self model_data in
  let V := get_max_makespan model_data in
  (∀ j i e, x self' !! (j, i) = Some e ↔
     j ∈ jobs model_data ∧ i ∈ resources model_data
     ∧ e = Integer (x_name j i) 0 V) ∧
  (∀ j k i e, y self' !! (j, k, i) = Some e ↔
     j ∈ jobs model_data ∧ k ∈ jobs model_data ∧ i ∈ resources model_data
     ∧ e = Binary (y_name j k i)) ∧
  makespan self' = Some (Integer "makespan" 0 V) ∧
  cqm self' = cqm self ∧
  (∀ j i j' i', x_name j i = x_name j' i' → j = j' ∧ i = i') ∧
  (∀ j k i j' k' i', y_name j k i = y_name j' k' i' →
     j = j' ∧ k = k' ∧ i = i') ∧
  (∀ j i, x_name j i ≠ "makespan") ∧
  (∀ j k i, y_name j k i ≠ "makespan") ∧
  (∀ j i j' k' i', x_name j i ≠ y_name j' k' i').
Proof.
  intros self' V. split_and!.
  - intros j i e. unfold self'. rewrite x_define_variables.
    unfold start_var, V, get_max_makespan.
    case_decide as Hin; split.
    + intros [= <-]. by destruct Hin.
    + by intros (_ & _ & ->).
    + done.
    + intros (? & ? & _). by destruct Hin.
  - intros j k i e. unfold self'. rewrite y_define_variables.
    unfold order_var.
    case_decide as Hin; split.
    + intros [= <-]. by destruct Hin as (? & ? & ?).
    + by intros (_ & _ & _ & ->).
    + done.
    + intros (? & ? & ? & _). by destruct Hin.
  - done.
  - done.
  - apply x_name_inj.
  - apply y_name_inj.
  - apply variable_names_differ.
  - apply variable_names_differ.
  - apply variable_names_differ.
Qed.

(** ** Precedence constraints *)

Lemma zip_init_tail {A} (l : list A) :
  zip (py_init l) (py_tail l) = consecutive l.
Proof.
  unfold py_init, py_tail. induction l as [|a [|b r] IH]; [done..|].
  simpl in *. rewrite Nat.sub_0_r in IH. by rewrite <- IH.
Qed.

Lemma consecutive_lookup {A} (l : list A) prev curr :
  (prev, curr) ∈ consecutive l ↔
  ∃ n : nat, l !! n = Some prev ∧ l !! S n = Some curr.
Proof.
  induction l as [|a [|b r] IH].
  - simpl. split; [by intros ?%elem_of_nil | by intros (? & ? & ?)].
  - simpl. split; [by intros ?%elem_of_nil |].
    intros ([|n] & ? & ?); simplify_eq/=.
  - change (consecutive (a :: b :: r)) with ((a, b) :: consecutive (b :: r)).
    rewrite elem_of_cons, IH. split.
    + intros [[= -> ->]|(n & ? & ?)]; [by exists 0%nat | by exists (S n)].
    + intros ([|n] & ? & ?); simplify_eq/=; [by left | right; by exists n].
Qed.

Lemma length_consecutive {A} (l : list A) :
  length (consecutive l) = (length l - 1)%nat.
Proof.
  induction l as [|a [|b r] IH]; [done..|].
  change (consecutive (a :: b :: r)) with ((a, b) :: consecutive (b :: r)).
  simpl in *. rewrite IH. lia.
Qed.

Lemma consecutive_elem_of {A} (l : list A) prev curr :
  (prev, curr) ∈ consecutive l → prev ∈ l ∧ curr ∈ py_tail l.
Proof.
  intros (n & Hp & Hc)%consecutive_lookup. split.
  - by eapply list_elem_of_lookup_2.
  - unfold py_tail. eapply list_elem_of_lookup_2. by rewrite lookup_drop.
Qed.

Lemma consecutive_snd {A} (l : list A) : (consecutive l).*2 = py_tail l.
Proof.
  induction l as [|a [|b r] IH]; [done..|].
  change (consecutive (a :: b :: r)) with ((a, b) :: consecutive (b :: r)).
  rewrite fmap_cons, IH. done.
Qed.

Lemma sequenced_elim model_data job :
  sequenced model_data → job ∈ jobs model_data →
  ∃ tasks, job_tasks model_data !! job = Some tasks
    ∧ (∀ t, t ∈ tasks → resource t ∈ resources model_data)
    ∧ NoDup (resource <$> py_tail tasks).
Proof.
  intros Hseq Hjob. unfold sequenced in Hseq.
  rewrite Forall_forall in Hseq. specialize (Hseq job Hjob).
  destruct (job_tasks model_data !! job) as [tasks|]; [|done].
  destruct Hseq as [Hres Hnd]. exists tasks. split_and!; [done| |done].
  by apply Forall_forall.
Qed.

Lemma precedence_constraints_elem_of model_data lc :
  lc ∈ precedence_constraints model_data ↔
  ∃ job prev curr, job ∈ jobs model_data
    ∧ (prev, curr) ∈ consecutive (tasks_of model_data job)
    ∧ lc = precedence_constraint model_data job prev curr.
Proof.
  unfold precedence_constraints. rewrite list_elem_of_bind. split.
  - intros (job & Hin & Hjob).
    apply list_elem_of_bind in Hin as ([prev curr] & Hin & Hpc).
    apply list_elem_of_singleton in Hin. by exists job, prev, curr.
  - intros (job & prev & curr & Hjob & Hpc & ->). exists job. split; [|done].
    apply list_elem_of_bind. exists (prev, curr). split; [|done].
    by apply list_elem_of_singleton.
Qed.

Lemma precedence_labels model_data job :
  (consecutive (tasks_of model_data job)
   ≫= λ pc, [precedence_constraint model_data job pc.1 pc.2]).*1
  = precedence_label job <$> (resource <$> py_tail (tasks_of model_data job)).
Proof.
  rewrite bind_singleton_fmap, <- consecutive_snd, <- !list_fmap_compose.
  done.
Qed.

Lemma precedence_constraints_fresh model_data m :
  NoDup (jobs model_data) → sequenced model_data →
  (∀ job i, precedence_label job i ∉ labels m) →
  fresh_for m (precedence_constraints model_data).
Proof.
  intros Hnd Hseq Hm. split.
  - apply NoDup_labels_bind; [done|..].
    + intros job Hjob.
      destruct (sequenced_elim _ _ Hseq Hjob) as (tasks & Htasks & _ & Hres).
      rewrite precedence_labels. unfold tasks_of. rewrite Htasks; simpl.
      apply NoDup_fmap_2_strong; [|done].
      intros i1 i2 _ _ E. by apply precedence_label_inj in E as [_ ?].
    + intros j1 j2 lab _ _. rewrite !precedence_labels.
      intros (i1 & -> & _)%list_elem_of_fmap (i2 & E & _)%list_elem_of_fmap.
      by apply precedence_label_inj in E as [? _].
  - unfold precedence_constraints. rewrite fmap_bind_list.
    intros lab (job & Hlab & _)%list_elem_of_bind.
    rewrite precedence_labels in Hlab.
    apply list_elem_of_fmap in Hlab as (i & -> & _). apply Hm.
Qed.

Lemma add_precedence_constraints_emits self model_data m :
  sequenced model_data →
  fresh_for m (precedence_constraints model_data) →
  add_precedence_constraints
    (with_cqm (define_variables self model_data) m) model_data
  = Ok (with_cqm (define_variables self model_data)
          (extend m (precedence_constraints model_data))).
Proof.
  intros Hseq Hfresh. unfold add_precedence_constraints.
  pose proof (x_define_variables self model_data) as Hx.
  set (s := define_variables self model_data) in *. clearbody s.
  apply (for_each_emits s); [|done].
  intros job m1 Hjob Hfresh1.
  destruct (sequenced_elim _ _ Hseq Hjob) as (tasks & Htasks & Hres & _).
  unfold tasks_of in *. rewrite Htasks in *; simpl in *.
  rewrite zip_init_tail.
  apply (for_each_emits s); [|done].
  intros [prev curr] m2 [Hprev Hcurr]%consecutive_elem_of [_ Hfresh2]; simpl.
  assert (curr ∈ tasks) by (by eapply subseteq_drop).
  rewrite !Hx, !decide_True by (split; [done | by apply Hres]). simpl.
  apply self_add_constraint_fresh, Hfresh2. left.
Qed.

Lemma length_precedence_constraints model_data :
  length (precedence_constraints model_data)
  = sum_list_with (λ job, length (tasks_of model_data job) - 1)%nat
      (jobs model_data).
Proof.
  unfold precedence_constraints. rewrite length_bind_sum.
  induction (jobs model_data) as [|job l IH]; [done|]. simpl.
  by rewrite IH, bind_singleton_fmap, length_fmap, length_consecutive.
Qed.

Lemma satisfies_precedence model_data s job prev curr a b :
  dict_get s (x_name job (resource curr)) = Some a →
  dict_get s (x_name job (resource prev)) = Some b →
  satisfies s (precedence_constraint model_data job prev curr).2 ↔
  duration prev ≤ a - b.
Proof.
  intros Ha Hb. unfold satisfies; simpl. rewrite Ha, Hb; simpl. split.
  - by intros (v & [= <-] & ?).
  - intros ?. by eexists.
Qed.

(** C3: for every job and every pair (prev, curr) of neighbours in its task
    sequence the builder adds the constraint
    start(curr) - start(prev) >= duration(prev), one per job and non-first
    task and nothing else; a job with a single task contributes none. *)
Theorem precedence_constraints_added self model_data m :
  NoDup (jobs model_data) →
  sequenced model_data →
  (∀ job i, precedence_label job i ∉ labels m) →
  add_precedence_constraints
    (with_cqm (define_variables self model_data) m) model_data
  = Ok (with_cqm (define_variables self model_data)
          (extend m (precedence_constraints model_data)))
  ∧ (∀ lc, lc ∈ precedence_constraints model_data ↔
       ∃ job prev curr (n : nat),
         job ∈ jobs model_data
         ∧ tasks_of model_data job !! n = Some prev
         ∧ tasks_of model_data job !! S n = Some curr
         ∧ lc = (precedence_label job (resource curr),
                 start_var model_data job (resource curr)
                 - start_var model_data job (resource prev)
                 >== duration prev))
  ∧ NoDup (precedence_constraints model_data).*1
  ∧ length (precedence_constraints model_data)
    = sum_list_with (λ job, length (tasks_of model_data job) - 1)%nat
        (jobs model_data)
  ∧ (∀ job lc i, (length (tasks_of model_data job) ≤ 1)%nat →
       lc ∈ precedence_constraints model_data →
       lc.1 ≠ precedence_label job i)
  ∧ (∀ s job prev curr a b,
       dict_get s (x_name job (resource curr)) = Some a →
       dict_get s (x_name job (resource prev)) = Some b →
       satisfies s (precedence_constraint model_data job prev curr).2 ↔
       duration prev ≤ a - b).
Proof.
  intros Hnd Hseq Hm.
  pose proof (precedence_constraints_fresh _ _ Hnd Hseq Hm) as Hfresh.
  split_and!.
  - by apply add_precedence_constraints_emits.
  - intros lc. rewrite precedence_constraints_elem_of. split.
    + intros (job & prev & curr & Hjob & (n & ? & ?)%consecutive_lookup & ->).
      by exists job, prev, curr, n.
    + intros (job & prev & curr & n & Hjob & ? & ? & ->).
      exists job, prev, curr. split_and!; [done| |done].
      apply consecutive_lookup. by exists n.
  - apply Hfresh.
  - apply length_precedence_constraints.
  - intros job lc i Hlen
      (job' & prev & curr & _ & Hin & ->)%precedence_constraints_elem_of E.
    apply precedence_label_inj in E as [-> _].
    destruct (consecutive (tasks_of model_data job)) eqn:Hc.
    + by apply elem_of_nil in Hin.
    + apply (f_equal length) in Hc. rewrite length_consecutive in Hc.
      simpl in Hc. lia.
  - intros. by apply satisfies_precedence.
Qed.

Lemma precedence_constraints_added_witness :
  add_precedence_constraints
    (with_cqm (define_variables (init two_by_two) two_by_two) new_cqm)
    two_by_two
  = Ok (with_cqm (define_variables (init two_by_two) two_by_two)
          (extend new_cqm
             [("pj0_m2",
               Integer "x0_2" 0 10 - Integer "x0_1" 0 10 >== 3);
              ("pj1_m1",
               Integer "x1_1" 0 10 - Integer "x1_2" 0 10 >== 4)])).
Proof.
  refine (proj1 (precedence_constraints_added
                   (init two_by_two) two_by_two new_cqm _ _ _)).
  - by apply (bool_decide_unpack _); vm_compute.
  - by apply (bool_decide_unpack _); vm_compute.
  - intros job i Hin. inversion Hin.
Defined.

(** ** Resource exclusivity: the loop over pairs of jobs and resources *)

Lemma bind_assoc {A B C} (f : A → list B) (g : B → list C) (l : list A) :
  (l ≫= f) ≫= g = l ≫= (λ a, f a ≫= g).
Proof.
  induction l as [|a l IH]; [done|]. by rewrite !bind_cons, bind_app, IH.
Qed.

(** The three nested loops visit the triples of [pair_resources]. *)
Lemma nested_pairs {B} model_data (f : Z * Z * Z → list B) :
  (jobs model_data ≫= λ j, jobs model_data ≫= λ k,
     if decide (j < k) then resources model_data ≫= λ i, f (j, k, i)
     else [])
  = pair_resources model_data ≫= f.
Proof.
  unfold pair_resources. rewrite bind_assoc.
  apply list_bind_ext; [intros j | done]. rewrite bind_assoc.
  apply list_bind_ext; [intros k | done]. case_decide; [|done].
  rewrite bind_assoc. apply list_bind_ext; [intros i | done].
  by rewrite bind_singleton.
Qed.

Lemma pair_resources_elem_of model_data j k i :
  (j, k, i) ∈ pair_resources model_data ↔
  j ∈ jobs model_data ∧ k ∈ jobs model_data ∧ j < k
  ∧ i ∈ resources model_data.
Proof.
  unfold pair_resources. rewrite list_elem_of_bind. split.
  - intros (j' & (k' & Hin & Hk)%list_elem_of_bind & Hj).
    case_decide; [|by apply elem_of_nil in Hin].
    apply list_elem_of_bind in Hin as (i' & Hin & Hi).
    apply list_elem_of_singleton in Hin. by simplify_eq.
  - intros (Hj & Hk & Hlt & Hi). exists j. split; [|done].
    apply list_elem_of_bind. exists k. split; [|done].
    rewrite decide_True by done.
    apply list_elem_of_bind. exists i. split; [|done].
    by apply list_elem_of_singleton.
Qed.

Lemma NoDup_pair_resources model_data :
  NoDup (jobs model_data) → NoDup (resources model_data) →
  NoDup (pair_resources model_data).
Proof.
  intros Hj Hr. unfold pair_resources. apply NoDup_bind; [| |done].
  - intros j1 j2 [[j k] i] _ _
      (k1 & Hin1 & _)%list_elem_of_bind (k2 & Hin2 & _)%list_elem_of_bind.
    repeat case_decide; try by apply elem_of_nil in Hin1.
    + apply list_elem_of_bind in Hin1 as (i1 & ?%list_elem_of_singleton & _).
      apply list_elem_of_bind in Hin2 as (i2 & ?%list_elem_of_singleton & _).
      congruence.
    + by apply elem_of_nil in Hin2.
  - intros j _. apply NoDup_bind; [| |done].
    + intros k1 k2 [[j' k] i] _ _ Hin1 Hin2.
      repeat case_decide; try by apply elem_of_nil in Hin1.
      * apply list_elem_of_bind in Hin1
          as (i1 & ?%list_elem_of_singleton & _).
        apply list_elem_of_bind in Hin2
          as (i2 & ?%list_elem_of_singleton & _).
        congruence.
      * by apply elem_of_nil in Hin2.
    + intros k _. case_decide; [|constructor].
      rewrite bind_singleton_fmap. apply NoDup_fmap_2; [|done].
      by intros i1 i2 [= ->].
Qed.

Lemma all_shared_elim model_data j k i :
  all_shared model_data →
  j ∈ jobs model_data → k ∈ jobs model_data → j < k →
  i ∈ resources model_data →
  ∃ task_j task_k,
    task_on model_data j i = Some task_j
    ∧ task_on model_data k i = Some task_k.
Proof.
  intros Hs Hj Hk Hlt Hi. unfold all_shared in Hs.
  rewrite Forall_forall in Hs.
  destruct (Hs (j, k, i)) as [[tj Htj] [tk Htk]].
  { by apply pair_resources_elem_of. }
  by exists tj, tk.
Qed.

(** Labels of constraints indexed by triples are fresh when each triple has
    its own labels and none of them is in the model yet. *)
Lemma fresh_for_pairs model_data m
    (out : Z * Z * Z → list (string * comparison)) :
  NoDup (jobs model_data) → NoDup (resources model_data) →
  (∀ jki, NoDup (out jki).*1) →
  (∀ jki1 jki2 lab,
     lab ∈ (out jki1).*1 → lab ∈ (out jki2).*1 → jki1 = jki2) →
  (∀ jki lab, lab ∈ (out jki).*1 → lab ∉ labels m) →
  fresh_for m (pair_resources model_data ≫= out).
Proof.
  intros Hj Hr Hnd Hinj Hm. split.
  - apply NoDup_labels_bind; [by apply NoDup_pair_resources|auto|].
    intros jki1 jki2 lab _ _. apply Hinj.
  - rewrite fmap_bind_list. intros lab (jki & Hlab & _)%list_elem_of_bind.
    by eapply Hm.
Qed.

(** ** The disjunctive policy *)

Lemma disjunctive_at_labels model_data j k i lab :
  lab ∈ (disjunctive_at model_data (j, k, i)).*1 →
  lab = disjunction1_label j k i ∨ lab = disjunction2_label j k i.
Proof.
  unfold disjunctive_at.
  destruct (task_on model_data j i), (task_on model_data k i); simpl;
    try by intros ?%elem_of_nil.
  intros [->|[->|?%elem_of_nil]%elem_of_cons]%elem_of_cons; by auto.
Qed.

Lemma disjunctive_constraints_fresh model_data m :
  NoDup (jobs model_data) → NoDup (resources model_data) →
  (∀ j k i, (disjunction1_label j k i ∉ labels m)
            ∧ (disjunction2_label j k i ∉ labels m)) →
  fresh_for m (disjunctive_constraints model_data).
Proof.
  intros Hj Hr Hm. apply fresh_for_pairs; [done..| | |].
  - intros [[j k] i]. unfold disjunctive_at.
    destruct (task_on model_data j i), (task_on model_data k i); simpl;
      try constructor.
    + intros ?%list_elem_of_singleton.
      by eapply disjunction_labels_differ.
    + apply NoDup_singleton.
  - intros [[j k] i] [[j' k'] i'] lab
      [->| ->]%disjunctive_at_labels [E|E]%disjunctive_at_labels.
    + by apply disjunction1_label_inj in E as (-> & -> & ->).
    + by apply disjunction_labels_differ in E.
    + symmetry in E. by apply disjunction_labels_differ in E.
    + by apply disjunction2_label_inj in E as (-> & -> & ->).
  - intros [[j k] i] lab [->| ->]%disjunctive_at_labels; apply Hm.
Qed.

Lemma add_disjunctive_constraints_emits self model_data m :
  all_shared model_data →
  fresh_for m (disjunctive_constraints model_data) →
  add_disjunctive_constraints
    (with_cqm (define_variables self model_data) m) model_data
  = Ok (with_cqm (define_variables self model_data)
          (extend m (disjunctive_constraints model_data))).
Proof.
  intros Hs Hfresh. unfold add_disjunctive_constraints, disjunctive_constraints.
  pose proof (x_define_variables self model_data) as Hx.
  pose proof (y_define_variables self model_data) as Hy.
  set (s := define_variables self model_data) in *. clearbody s.
  unfold disjunctive_constraints in Hfresh.
  rewrite <- nested_pairs in Hfresh |- *.
  apply (for_each_emits s); [|done]. intros j m1 Hj Hfresh1.
  apply (for_each_emits s); [|done]. intros k m2 Hk Hfresh2.
  case_decide as Hlt; [|by rewrite extend_nil].
  apply (for_each_emits s); [|done]. intros i m3 Hi [Hnd Hfresh3].
  destruct (all_shared_elim _ j k i Hs) as (tj & tk & Htj & Htk); [done..|].
  unfold disjunctive_at, get_resource_job_tasks, task_on in *.
  rewrite Htj, Htk in *. simpl in *.
  rewrite !Hx, Hy, !decide_True by done. simpl.
  rewrite self_add_constraint_fresh by (apply Hfresh3; left). simpl.
  rewrite self_add_constraint_fresh; [by rewrite extend_extend|].
  rewrite labels_extend, elem_of_app. intros [Hin|Hin%list_elem_of_singleton].
  - revert Hin. apply Hfresh3. right; left.
  - symmetry in Hin. by apply disjunction_labels_differ in Hin.
Qed.

Lemma length_bind_const {A B} (g : A → list B) (l : list A) (c : nat) :
  (∀ a, a ∈ l → length (g a) = c) → length (l ≫= g) = (c * length l)%nat.
Proof.
  induction l as [|a l IH]; intros Hg; [simpl; lia|].
  rewrite bind_cons, length_app, IH, Hg; [simpl; lia|left|].
  intros b Hb. apply Hg. by right.
Qed.

Lemma disjunctive_constraints_elem_of model_data lc :
  lc ∈ disjunctive_constraints model_data ↔
  ∃ j k i task_j task_k,
    j ∈ jobs model_data ∧ k ∈ jobs model_data ∧ j < k
    ∧ i ∈ resources model_data
    ∧ task_on model_data j i = Some task_j
    ∧ task_on model_data k i = Some task_k
    ∧ (lc = disjunction1 model_data j k i task_k
       ∨ lc = disjunction2 model_data j k i task_j).
Proof.
  unfold disjunctive_constraints. rewrite list_elem_of_bind. split.
  - intros ([[j k] i] & Hin & (Hj & Hk & Hlt & Hi)%pair_resources_elem_of).
    unfold disjunctive_at in Hin.
    destruct (task_on model_data j i) as [tj|] eqn:Htj;
      [|by apply elem_of_nil in Hin].
    destruct (task_on model_data k i) as [tk|] eqn:Htk;
      [|by apply elem_of_nil in Hin].
    exists j, k, i, tj, tk. split_and!; try done.
    apply elem_of_cons in Hin as [->|Hin]; [by left|].
    apply list_elem_of_singleton in Hin. by right.
  - intros (j & k & i & tj & tk & Hj & Hk & Hlt & Hi & Htj & Htk & Hlc).
    exists (j, k, i). split; [|by apply pair_resources_elem_of].
    unfold disjunctive_at. rewrite Htj, Htk.
    destruct Hlc as [-> | ->]; [left | right; left].
Qed.

Lemma satisfies_disjunction model_data s j k i task_j task_k a b c :
  dict_get s (x_name j i) = Some a →
  dict_get s (x_name k i) = Some b →
  dict_get s (y_name j k i) = Some c →
  (satisfies s (disjunction1 model_data j k i task_k).2 ↔
   0 ≤ a - b - duration task_k + c * max_makespan model_data)
  ∧ (satisfies s (disjunction2 model_data j k i task_j).2 ↔
     0 ≤ b - a - duration task_j + (1 - c) * max_makespan model_data).
Proof.
  intros Ha Hb Hc. unfold satisfies; simpl. rewrite Ha, Hb, Hc; simpl.
  split; (split; [by intros (v & [= <-] & ?) | intros ?; by eexists]).
Qed.

(** C1: under the disjunctive policy the builder adds, for every pair of jobs
    j < k and every resource i (which both jobs use), exactly the two linear
    constraints
    start(j,i) - start(k,i) - duration(k,i) + y[j,k,i]*V >= 0 and
    start(k,i) - start(j,i) - duration(j,i) + (1 - y[j,k,i])*V >= 0,
    with V the data source's upper bound on the makespan. *)
Theorem disjunctive_constraints_added self model_data m :
  NoDup (jobs model_data) → NoDup (resources model_data) →
  all_shared model_data →
  (∀ j k i, (disjunction1_label j k i ∉ labels m)
            ∧ (disjunction2_label j k i ∉ labels m)) →
  let V := get_max_makespan model_data in
  add_disjunctive_constraints
    (with_cqm (define_variables self model_data) m) model_data
  = Ok (with_cqm (define_variables self model_data)
          (extend m (disjunctive_constraints model_data)))
  ∧ (∀ lc, lc ∈ disjunctive_constraints model_data ↔
       ∃ j k i task_j task_k,
         j ∈ jobs model_data ∧ k ∈ jobs model_data ∧ j < k
         ∧ i ∈ resources model_data
         ∧ task_on model_data j i = Some task_j
         ∧ task_on model_data k i = Some task_k
         ∧ (lc = (disjunction1_label j k i,
                  start_var model_data j i - start_var model_data k i
                  - Num (duration task_k) + order_var j k i * Num V >== 0)
            ∨ lc = (disjunction2_label j k i,
                    start_var model_data k i - start_var model_data j i
                    - Num (duration task_j)
                    + (Num 1 - order_var j k i) * Num V >== 0)))
  ∧ NoDup (disjunctive_constraints model_data).*1
  ∧ length (disjunctive_constraints model_data)
    = (2 * length (pair_resources model_data))%nat
  ∧ (∀ lc, lc ∈ disjunctive_constraints model_data →
       (degree (lhs lc.2) ≤ 1)%nat)
  ∧ (∀ s j k i task_j task_k a b c,
       dict_get s (x_name j i) = Some a →
       dict_get s (x_name k i) = Some b →
       dict_get s (y_name j k i) = Some c →
       (satisfies s (disjunction1 model_data j k i task_k).2 ↔
        0 ≤ a - b - duration task_k + c * V)
       ∧ (satisfies s (disjunction2 model_data j k i task_j).2 ↔
          0 ≤ b - a - duration task_j + (1 - c) * V)).
Proof.
  intros Hj Hr Hs Hm V.
  pose proof (disjunctive_constraints_fresh _ _ Hj Hr Hm) as Hfresh.
  split_and!.
  - by apply add_disjunctive_constraints_emits.
  - apply disjunctive_constraints_elem_of.
  - apply Hfresh.
  - apply length_bind_const. intros [[j k] i] Hin.
    apply pair_resources_elem_of in Hin as (? & ? & ? & ?).
    destruct (all_shared_elim _ j k i Hs) as (tj & tk & Htj & Htk); [done..|].
    unfold disjunctive_at. by rewrite Htj, Htk.
  - intros lc (j & k & i & tj & tk & _ & _ & _ & _ & _ & _ & [-> | ->])
      %disjunctive_constraints_elem_of; simpl; lia.
  - intros. by apply satisfies_disjunction.
Qed.

Lemma disjunctive_constraints_added_witness :
  add_disjunctive_constraints
    (with_cqm (define_variables (init two_by_two) two_by_two) new_cqm)
    two_by_two
  = Ok (with_cqm (define_variables (init two_by_two) two_by_two)
          (extend new_cqm
             [("disjunction10_j1_m1",
               Integer "x0_1" 0 10 - Integer "x1_1" 0 10 - Num 1
               + Binary "y0_1_1" * Num 10 >== 0);
              ("disjunction20_j1_m1",
               Integer "x1_1" 0 10 - Integer "x0_1" 0 10 - Num 3
               + (Num 1 - Binary "y0_1_1") * Num 10 >== 0);
              ("disjunction10_j1_m2",
               Integer "x0_2" 0 10 - Integer "x1_2" 0 10 - Num 4
               + Binary "y0_1_2" * Num 10 >== 0);
              ("disjunction20_j1_m2",
               Integer "x1_2" 0 10 - Integer "x0_2" 0 10 - Num 2
               + (Num 1 - Binary "y0_1_2") * Num 10 >== 0)])).
Proof.
  refine (proj1 (disjunctive_constraints_added
                   (init two_by_two) two_by_two new_cqm _ _ _ _)).
  - by apply (bool_decide_unpack _); vm_compute.
  - by apply (bool_decide_unpack _); vm_compute.
  - by apply (bool_decide_unpack _); vm_compute.
  - intros j k i. split; intros Hin; inversion Hin.
Defined.

(** ** The bilinear policy *)

Lemma overlap_at_labels model_data j k i lab :
  lab ∈ (overlap_at model_data (j, k, i)).*1 → lab = overlap_label j k i.
Proof.
  unfold overlap_at.
  destruct (task_on model_data j i), (task_on model_data k i); simpl;
    try by intros ?%elem_of_nil.
  case_decide; simpl; [|by intros ?%elem_of_nil].
  by intros ->%list_elem_of_singleton.
Qed.

Lemma overlap_constraints_fresh model_data m :
  NoDup (jobs model_data) → NoDup (resources model_data) →
  (∀ j k i, overlap_label j k i ∉ labels m) →
  fresh_for m (overlap_constraints model_data).
Proof.
  intros Hj Hr Hm. apply fresh_for_pairs; [done..| | |].
  - intros [[j k] i]. unfold overlap_at.
    destruct (task_on model_data j i), (task_on model_data k i); simpl;
      try constructor.
    case_decide; simpl; [apply NoDup_singleton | constructor].
  - intros [[j k] i] [[j' k'] i'] lab ->%overlap_at_labels E%overlap_at_labels.
    by apply overlap_label_inj in E as (-> & -> & ->).
  - intros [[j k] i] lab ->%overlap_at_labels. apply Hm.
Qed.

Lemma add_quadratic_overlap_constraint_emits self model_data m :
  all_shared model_data →
  fresh_for m (overlap_constraints model_data) →
  add_quadratic_overlap_constraint
    (with_cqm (define_variables self model_data) m) model_data
  = Ok (with_cqm (define_variables self model_data)
          (extend m (overlap_constraints model_data))).
Proof.
  intros Hs Hfresh.
  unfold add_quadratic_overlap_constraint, overlap_constraints.
  pose proof (x_define_variables self model_data) as Hx.
  pose proof (y_define_variables self model_data) as Hy.
  set (s := define_variables self model_data) in *. clearbody s.
  unfold overlap_constraints in Hfresh.
  rewrite <- nested_pairs in Hfresh |- *.
  apply (for_each_emits s); [|done]. intros j m1 Hj Hfresh1.
  apply (for_each_emits s); [|done]. intros k m2 Hk Hfresh2.
  case_decide as Hlt; [|by rewrite extend_nil].
  apply (for_each_emits s); [|done]. intros i m3 Hi Hfresh3.
  destruct (all_shared_elim _ j k i Hs) as (tj & tk & Htj & Htk); [done..|].
  unfold overlap_at, get_resource_job_tasks, task_on in *.
  rewrite Htj, Htk in *. simpl in *.
  destruct (decide (0 < duration tk ∧ 0 < duration tj)) as [Hpos|Hpos].
  - rewrite decide_True by lia.
    rewrite !Hx, Hy, !decide_True by done. simpl.
    apply self_add_constraint_fresh, Hfresh3. left.
  - rewrite decide_False by lia. by rewrite extend_nil.
Qed.

Lemma overlap_constraints_elem_of model_data lc :
  lc ∈ overlap_constraints model_data ↔
  ∃ j k i task_j task_k,
    j ∈ jobs model_data ∧ k ∈ jobs model_data ∧ j < k
    ∧ i ∈ resources model_data
    ∧ task_on model_data j i = Some task_j
    ∧ task_on model_data k i = Some task_k
    ∧ 0 < duration task_j ∧ 0 < duration task_k
    ∧ lc = overlap model_data j k i task_j task_k.
Proof.
  unfold overlap_constraints. rewrite list_elem_of_bind. split.
  - intros ([[j k] i] & Hin & (Hj & Hk & Hlt & Hi)%pair_resources_elem_of).
    unfold overlap_at in Hin.
    destruct (task_on model_data j i) as [tj|] eqn:Htj;
      [|by apply elem_of_nil in Hin].
    destruct (task_on model_data k i) as [tk|] eqn:Htk;
      [|by apply elem_of_nil in Hin].
    case_decide as Hpos; [|by apply elem_of_nil in Hin].
    apply list_elem_of_singleton in Hin.
    exists j, k, i, tj, tk. by split_and!; try apply Hpos.
  - intros (j & k & i & tj & tk & Hj & Hk & Hlt & Hi & Htj & Htk
            & Hpj & Hpk & ->).
    exists (j, k, i). split; [|by apply pair_resources_elem_of].
    unfold overlap_at. rewrite Htj, Htk, decide_True by done. left.
Qed.

Lemma satisfies_overlap model_data s j k i task_j task_k a b c :
  dict_get s (x_name j i) = Some a →
  dict_get s (x_name k i) = Some b →
  dict_get s (y_name j k i) = Some c →
  satisfies s (overlap model_data j k i task_j task_k).2 ↔
  duration task_k
  ≤ a - b + (duration task_k - duration task_j) * c + 2 * c * (b - a).
Proof.
  intros Ha Hb Hc. unfold satisfies; simpl. rewrite Ha, Hb, Hc; simpl.
  split; [by intros (v & [= <-] & ?) | intros ?; by eexists].
Qed.

(** C2: under the bilinear policy the builder adds, for every pair of jobs
    j < k and every resource i, the single quadratic constraint
    start(j,i) - start(k,i) + (duration(k,i) - duration(j,i))*y[j,k,i]
    + 2*y[j,k,i]*(start(k,i) - start(j,i)) >= duration(k,i),
    and only when both tasks have a strictly positive duration. *)
Theorem overlap_constraints_added self model_data m :
  NoDup (jobs model_data) → NoDup (resources model_data) →
  all_shared model_data →
  (∀ j k i, overlap_label j k i ∉ labels m) →
  add_quadratic_overlap_constraint
    (with_cqm (define_variables self model_data) m) model_data
  = Ok (with_cqm (define_variables self model_data)
          (extend m (overlap_constraints model_data)))
  ∧ (∀ lc, lc ∈ overlap_constraints model_data ↔
       ∃ j k i task_j task_k,
         j ∈ jobs model_data ∧ k ∈ jobs model_data ∧ j < k
         ∧ i ∈ resources model_data
         ∧ task_on model_data j i = Some task_j
         ∧ task_on model_data k i = Some task_k
         ∧ 0 < duration task_j ∧ 0 < duration task_k
         ∧ lc = (overlap_label j k i,
                 start_var model_data j i - start_var model_data k i
                 + Num (duration task_k - duration task_j) * order_var j k i
                 + Num 2 * order_var j k i
                   * (start_var model_data k i - start_var model_data j i)
                 >== duration task_k))
  ∧ NoDup (overlap_constraints model_data).*1
  ∧ (∀ jki, (length (overlap_at model_data jki) ≤ 1)%nat)
  ∧ (∀ lc, lc ∈ overlap_constraints model_data → degree (lhs lc.2) = 2%nat)
  ∧ (∀ s j k i task_j task_k a b c,
       dict_get s (x_name j i) = Some a →
       dict_get s (x_name k i) = Some b →
       dict_get s (y_name j k i) = Some c →
       satisfies s (overlap model_data j k i task_j task_k).2 ↔
       duration task_k
       ≤ a - b + (duration task_k - duration task_j) * c + 2 * c * (b - a)).
Proof.
  intros Hj Hr Hs Hm.
  pose proof (overlap_constraints_fresh _ _ Hj Hr Hm) as Hfresh.
  split_and!.
  - by apply add_quadratic_overlap_constraint_emits.
  - apply overlap_constraints_elem_of.
  - apply Hfresh.
  - intros [[j k] i]. unfold overlap_at.
    destruct (task_on model_data j i), (task_on model_data k i); simpl;
      try lia.
    case_decide; simpl; lia.
  - by intros lc (j & k & i & tj & tk & _ & _ & _ & _ & _ & _ & _ & _ & ->)
      %overlap_constraints_elem_of.
  - intros. by apply satisfies_overlap.
Qed.

Lemma overlap_constraints_added_witness :
  add_quadratic_overlap_constraint
    (with_cqm (define_variables (init two_by_two) two_by_two) new_cqm)
    two_by_two
  = Ok (with_cqm (define_variables (init two_by_two) two_by_two)
          (extend new_cqm
             [("OneJobj0_j1_m1",
               Integer "x0_1" 0 10 - Integer "x1_1" 0 10
               + Num (-2) * Binary "y0_1_1"
               + Num 2 * Binary "y0_1_1"
                 * (Integer "x1_1" 0 10 - Integer "x0_1" 0 10) >== 1);
              ("OneJobj0_j1_m2",
               Integer "x0_2" 0 10 - Integer "x1_2" 0 10
               + Num 2 * Binary "y0_1_2"
               + Num 2 * Binary "y0_1_2"
                 * (Integer "x1_2" 0 10 - Integer "x0_2" 0 10) >== 4)])).
Proof.
  refine (proj1 (overlap_constraints_added
                   (init two_by_two) two_by_two new_cqm _ _ _ _)).
  - by apply (bool_decide_unpack _); vm_compute.
  - by apply (bool_decide_unpack _); vm_compute.
  - by apply (bool_decide_unpack _); vm_compute.
  - intros j k i Hin. inversion Hin.
Defined.

(** Both exclusivity loops look up the two tasks of every triple: where a
    pair of jobs does not share a resource the builder raises instead of
    returning a model. *)
Lemma exclusivity_needs_shared self model_data allow self' :
  (if allow : bool
   then add_quadratic_overlap_constraint self model_data
   else add_disjunctive_constraints self model_data) = Ok self' →
  all_shared model_data.
Proof.
  intros Hrun. apply Forall_forall. intros [[j k] i].
  intros (Hj & Hk & Hlt & Hi)%pair_resources_elem_of.
  unfold task_on; cbn [fst snd].
  destruct allow.
  - unfold add_quadratic_overlap_constraint in Hrun.
    eapply for_each_visits in Hrun as (s1 & s2 & Hrun); [|exact Hj].
    eapply for_each_visits in Hrun as (s3 & s4 & Hrun); [|exact Hk].
    rewrite decide_True in Hrun by done.
    eapply for_each_visits in Hrun as (s5 & s6 & Hrun); [|exact Hi].
    unfold get_resource_job_tasks in Hrun. bind_inv. by split.
  - unfold add_disjunctive_constraints in Hrun.
    eapply for_each_visits in Hrun as (s1 & s2 & Hrun); [|exact Hj].
    eapply for_each_visits in Hrun as (s3 & s4 & Hrun); [|exact Hk].
    rewrite decide_True in Hrun by done.
    eapply for_each_visits in Hrun as (s5 & s6 & Hrun); [|exact Hi].
    unfold get_resource_job_tasks in Hrun. bind_inv. by split.
Qed.

(** ** Zero-duration tasks under the two policies *)

(** On [zero_duration] the task of job 0 on the shared resource 0 takes no
    time, and both disjunctive constraints of the pair are still added. *)
Lemma disjunctive_keeps_zero_duration :
  task_on zero_duration 0 0 = Some {| resource := 0; duration := 0 |} ∧
  task_on zero_duration 1 0 = Some {| resource := 0; duration := 4 |} ∧
  add_disjunctive_constraints
    (with_cqm (define_variables (init zero_duration) zero_duration) new_cqm)
    zero_duration
  = Ok (with_cqm (define_variables (init zero_duration) zero_duration)
          (extend new_cqm
             [("disjunction10_j1_m0",
               Integer "x0_0" 0 4 - Integer "x1_0" 0 4 - Num 4
               + Binary "y0_1_0" * Num 4 >== 0);
              ("disjunction20_j1_m0",
               Integer "x1_0" 0 4 - Integer "x0_0" 0 4 - Num 0
               + (Num 1 - Binary "y0_1_0") * Num 4 >== 0)])).
Proof. split_and!; by vm_compute. Qed.

(** For any data: under the bilinear policy a pair of tasks on a shared
    resource of which at least one has zero duration gets no exclusivity
    constraint; under the disjunctive policy the two constraints of the pair
    are added whatever the durations. *)
Theorem zero_duration_pairs self model_data m :
  NoDup (jobs model_data) → NoDup (resources model_data) →
  all_shared model_data →
  (∀ j k i, (overlap_label j k i ∉ labels m)
            ∧ (disjunction1_label j k i ∉ labels m)
            ∧ (disjunction2_label j k i ∉ labels m)) →
  ∃ bilinear disjunctive,
    add_quadratic_overlap_constraint
      (with_cqm (define_variables self model_data) m) model_data
    = Ok (with_cqm (define_variables self model_data) (extend m bilinear))
    ∧ add_disjunctive_constraints
        (with_cqm (define_variables self model_data) m) model_data
      = Ok (with_cqm (define_variables self model_data)
              (extend m disjunctive))
    ∧ ∀ j k i task_j task_k,
        j ∈ jobs model_data → k ∈ jobs model_data → j < k →
        i ∈ resources model_data →
        task_on model_data j i = Some task_j →
        task_on model_data k i = Some task_k →
        duration task_j ≤ 0 ∨ duration task_k ≤ 0 →
        (∀ lc, lc ∈ bilinear →
           lc.1 ≠ overlap_label j k i
           ∧ y_name j k i ∉ variables (lhs lc.2))
        ∧ disjunction1 model_data j k i task_k ∈ disjunctive
        ∧ disjunction2 model_data j k i task_j ∈ disjunctive.
Proof.
  intros Hj Hr Hs Hm.
  exists (overlap_constraints model_data),
    (disjunctive_constraints model_data).
  split_and!.
  - apply add_quadratic_overlap_constraint_emits; [done|].
    apply overlap_constraints_fresh; [done..|]. intros. apply Hm.
  - apply add_disjunctive_constraints_emits; [done|].
    apply disjunctive_constraints_fresh; [done..|]. intros. split; apply Hm.
  - intros j k i tj tk Hjin Hkin Hlt Hi Htj Htk Hzero. split_and!.
    + intros lc (j' & k' & i' & tj' & tk' & _ & _ & _ & _ & Htj' & Htk'
                 & Hpj & Hpk & ->)%overlap_constraints_elem_of.
      assert ((j', k', i') ≠ (j, k, i)) as Hne.
      { intros [= -> -> ->]. rewrite Htj in Htj'. rewrite Htk in Htk'.
        simplify_eq. lia. }
      split; simpl.
      * intros E. by apply overlap_label_inj in E as (-> & -> & ->).
      * unfold variables. rewrite elem_of_remove_dups. simpl.
        rewrite !elem_of_cons, elem_of_nil.
        intros Hin. repeat destruct Hin as [Hin|Hin]; try done;
          try (by apply y_name_inj in Hin as (-> & -> & ->));
          symmetry in Hin; by apply variable_names_differ in Hin.
    + apply disjunctive_constraints_elem_of.
      exists j, k, i, tj, tk. split_and!; auto.
    + apply disjunctive_constraints_elem_of.
      exists j, k, i, tj, tk. split_and!; auto.
Qed.

Lemma zero_duration_pairs_witness :
  ∃ bilinear disjunctive,
    add_quadratic_overlap_constraint
      (with_cqm (define_variables (init zero_duration) zero_duration)
         new_cqm) zero_duration
    = Ok (with_cqm (define_variables (init zero_duration) zero_duration)
            (extend new_cqm bilinear))
    ∧ add_disjunctive_constraints
        (with_cqm (define_variables (init zero_duration) zero_duration)
           new_cqm) zero_duration
      = Ok (with_cqm (define_variables (init zero_duration) zero_duration)
              (extend new_cqm disjunctive))
    ∧ (∀ lc, lc ∈ bilinear →
         lc.1 ≠ overlap_label 0 1 0 ∧ y_name 0 1 0 ∉ variables (lhs lc.2))
    ∧ disjunction1 zero_duration 0 1 0 {| resource := 0; duration := 4 |}
      ∈ disjunctive
    ∧ disjunction2 zero_duration 0 1 0 {| resource := 0; duration := 0 |}
      ∈ disjunctive.
Proof.
  destruct (zero_duration_pairs (init zero_duration) zero_duration new_cqm)
    as (bilinear & disjunctive & Hb & Hd & Hpairs).
  - by apply (bool_decide_unpack _); vm_compute.
  - by apply (bool_decide_unpack _); vm_compute.
  - by apply (bool_decide_unpack _); vm_compute.
  - intros j k i. split_and!; intros Hin; inversion Hin.
  - exists bilinear, disjunctive. split; [done|]. split; [done|].
    apply (Hpairs 0 1 0 {| resource := 0; duration := 0 |}
             {| resource := 0; duration := 4 |});
      try (by apply (bool_decide_unpack _); vm_compute);
      try (by vm_compute).
Defined.

(** C7: on [zero_duration] (two jobs on one resource, the task of job 0 of
    duration 0) the bilinear policy adds no exclusivity constraint for the
    pair, as the claim says, and the disjunctive policy adds both of its
    constraints.  The two models then differ on the schedules they admit:
    starting job 0 at 2 and job 1 at 0 is feasible for the bilinear model
    and, whatever the indicator, infeasible for the disjunctive one. *)
Theorem zero_duration_policies_differ :
  ∃ model_q model_d m_q m_d,
    build_model zero_duration true = Ok model_q ∧ cqm model_q = Some m_q
    ∧ build_model zero_duration false = Ok model_d ∧ cqm model_d = Some m_d
    ∧ task_on zero_duration 0 0 = Some {| resource := 0; duration := 0 |}
    ∧ task_on zero_duration 1 0 = Some {| resource := 0; duration := 4 |}
    ∧ (∀ lc, lc ∈ constraints m_q →
         lc.1 ≠ overlap_label 0 1 0
         ∧ y_name 0 1 0 ∉ variables (lhs lc.2))
    ∧ disjunction1 zero_duration 0 1 0 {| resource := 0; duration := 4 |}
        ∈ constraints m_d
    ∧ disjunction2 zero_duration 0 1 0 {| resource := 0; duration := 0 |}
        ∈ constraints m_d
    ∧ ∀ y,
        feasible [("x0_0", 2); ("x1_0", 0); ("y0_1_0", y); ("makespan", 4)]
          m_q
        ∧ ¬ feasible
              [("x0_0", 2); ("x1_0", 0); ("y0_1_0", y); ("makespan", 4)] m_d.
Proof.
  eexists _, _, _, _.
  split; [vm_compute; reflexivity|]. split; [reflexivity|].
  split; [vm_compute; reflexivity|]. split; [reflexivity|].
  split; [by vm_compute|]. split; [by vm_compute|].
  split_and!.
  - intros lc Hlc. cbn [constraints] in Hlc.
    repeat (apply elem_of_cons in Hlc as [->|Hlc]);
      [..|by apply elem_of_nil in Hlc];
      by apply (bool_decide_unpack _); vm_compute.
  - vm_compute. left.
  - vm_compute. right. left.
  - intros y. split.
    + intros lc Hlc. cbn [constraints] in Hlc.
      repeat (apply elem_of_cons in Hlc as [->|Hlc]);
        [..|by apply elem_of_nil in Hlc];
        (eexists; split; [vm_compute; reflexivity | simpl; lia]).
    + intros Hfeas.
      destruct (Hfeas ("disjunction10_j1_m0",
                  Integer "x0_0" 0 4 - Integer "x1_0" 0 4 - Num 4
                  + Binary "y0_1_0" * Num 4 >== 0)) as (v1 & Hv1 & Hle1).
      { left. }
      destruct (Hfeas ("disjunction20_j1_m0",
                  Integer "x1_0" 0 4 - Integer "x0_0" 0 4 - Num 0
                  + (Num 1 - Binary "y0_1_0") * Num 4 >== 0))
        as (v2 & Hv2 & Hle2).
      { right. left. }
      cbn in Hv1, Hv2. injection Hv1 as <-. injection Hv2 as <-.
      cbn in Hle1, Hle2. lia.
Qed.

(** ** Makespan constraints and the objective *)

Lemma terminated_elim model_data job :
  terminated model_data → job ∈ jobs model_data →
  ∃ tasks t, job_tasks model_data !! job = Some tasks
    ∧ last tasks = Some t ∧ resource t ∈ resources model_data.
Proof.
  intros Ht Hjob. unfold terminated in Ht.
  rewrite Forall_forall in Ht. specialize (Ht job Hjob).
  destruct (job_tasks model_data !! job) as [tasks|]; [|done].
  destruct (last tasks) as [t|] eqn:Hlast; [|done]. by exists tasks, t.
Qed.

Lemma makespan_constraints_elem_of model_data lc :
  lc ∈ makespan_constraints model_data ↔
  ∃ job t, job ∈ jobs model_data
    ∧ last (tasks_of model_data job) = Some t
    ∧ lc = makespan_constraint model_data job t.
Proof.
  unfold makespan_constraints. rewrite list_elem_of_bind. split.
  - intros (job & Hin & Hjob).
    destruct (last (tasks_of model_data job)) as [t|] eqn:Hlast;
      [|by apply elem_of_nil in Hin].
    apply list_elem_of_singleton in Hin. by exists job, t.
  - intros (job & t & Hjob & Hlast & ->). exists job. split; [|done].
    rewrite Hlast. left.
Qed.

Lemma makespan_constraints_fresh model_data m :
  NoDup (jobs model_data) →
  (∀ job, makespan_label job ∉ labels m) →
  fresh_for m (makespan_constraints model_data).
Proof.
  intros Hnd Hm.
  assert (∀ job lab,
    lab ∈ (match last (tasks_of model_data job) with
           | Some t => [makespan_constraint model_data job t]
           | None => []
           end).*1 → lab = makespan_label job) as Hlab.
  { intros job lab. destruct (last (tasks_of model_data job)); simpl.
    - by intros ->%list_elem_of_singleton.
    - by intros ?%elem_of_nil. }
  split.
  - apply NoDup_labels_bind; [done|..].
    + intros job _. destruct (last (tasks_of model_data job)); simpl;
        [apply NoDup_singleton | constructor].
    + intros j1 j2 lab _ _ ->%Hlab E%Hlab. by apply makespan_label_inj.
  - unfold makespan_constraints. rewrite fmap_bind_list.
    intros lab (job & ->%Hlab & _)%list_elem_of_bind. apply Hm.
Qed.

Lemma add_makespan_constraint_emits self model_data m :
  terminated model_data →
  fresh_for m (makespan_constraints model_data) →
  add_makespan_constraint
    (with_cqm (define_variables self model_data) m) model_data
  = Ok (with_cqm (define_variables self model_data)
          (extend m (makespan_constraints model_data))).
Proof.
  intros Ht Hfresh. unfold add_makespan_constraint.
  pose proof (x_define_variables self model_data) as Hx.
  assert (makespan (define_variables self model_data)
          = Some (makespan_var model_data)) as Hms by done.
  set (s := define_variables self model_data) in *. clearbody s.
  apply (for_each_emits s); [|done]. intros job m1 Hjob [_ Hfresh1].
  destruct (terminated_elim _ _ Ht Hjob) as (tasks & t & Htasks & Hlast & Hres).
  unfold tasks_of, py_last in *. rewrite Htasks in *; simpl in *.
  rewrite Hlast in *; simpl in *.
  rewrite Hms, Hx, decide_True by done. simpl.
  apply self_add_constraint_fresh, Hfresh1. left.
Qed.

Lemma satisfies_makespan model_data s job t a b :
  dict_get s "makespan" = Some a →
  dict_get s (x_name job (resource t)) = Some b →
  satisfies s (makespan_constraint model_data job t).2 ↔ duration t ≤ a - b.
Proof.
  intros Ha Hb. unfold satisfies; simpl. rewrite Ha, Hb; simpl.
  split; [by intros (v & [= <-] & ?) | intros ?; by eexists].
Qed.

(** C4: for every job the builder adds the constraint
    makespan - start(last task's resource) >= duration(last task), with the
    last task of the job's sequence, and the objective is the makespan
    variable alone. *)
Theorem makespan_constraints_added self model_data m :
  NoDup (jobs model_data) →
  terminated model_data →
  (∀ job, makespan_label job ∉ labels m) →
  add_makespan_constraint
    (with_cqm (define_variables self model_data) m) model_data
  = Ok (with_cqm (define_variables self model_data)
          (extend m (makespan_constraints model_data)))
  ∧ (∀ lc, lc ∈ makespan_constraints model_data ↔
       ∃ job t, job ∈ jobs model_data
         ∧ last (tasks_of model_data job) = Some t
         ∧ lc = (makespan_label job,
                 makespan_var model_data
                 - start_var model_data job (resource t) >== duration t))
  ∧ NoDup (makespan_constraints model_data).*1
  ∧ length (makespan_constraints model_data) = length (jobs model_data)
  ∧ (∀ s job t a b,
       dict_get s "makespan" = Some a →
       dict_get s (x_name job (resource t)) = Some b →
       satisfies s (makespan_constraint model_data job t).2 ↔
       duration t ≤ a - b)
  ∧ (∀ m', define_objective_function
             (with_cqm (define_variables self model_data) m')
           = Ok (with_cqm (define_variables self model_data)
                   (set_objective m' (makespan_var model_data)))
           ∧ objective (set_objective m' (makespan_var model_data))
             = Integer "makespan" 0 (get_max_makespan model_data)
           ∧ constraints (set_objective m' (makespan_var model_data))
             = constraints m').
Proof.
  intros Hnd Ht Hm.
  pose proof (makespan_constraints_fresh _ _ Hnd Hm) as Hfresh.
  split_and!.
  - by apply add_makespan_constraint_emits.
  - apply makespan_constraints_elem_of.
  - apply Hfresh.
  - replace (length (jobs model_data))
      with (1 * length (jobs model_data))%nat by lia.
    apply length_bind_const. intros job Hjob.
    destruct (terminated_elim _ _ Ht Hjob) as (tasks & t & Htasks & Hlast & _).
    unfold tasks_of. rewrite Htasks; simpl. by rewrite Hlast.
  - intros. by apply satisfies_makespan.
  - done.
Qed.

Lemma makespan_constraints_added_witness :
  add_makespan_constraint
    (with_cqm (define_variables (init two_by_two) two_by_two) new_cqm)
    two_by_two
  = Ok (with_cqm (define_variables (init two_by_two) two_by_two)
          (extend new_cqm
             [("makespan_ctr0",
               Integer "makespan" 0 10 - Integer "x0_2" 0 10 >== 2);
              ("makespan_ctr1",
               Integer "makespan" 0 10 - Integer "x1_1" 0 10 >== 1)])).
Proof.
  refine (proj1 (makespan_constraints_added
                   (init two_by_two) two_by_two new_cqm _ _ _)).
  - by apply (bool_decide_unpack _); vm_compute.
  - by apply (bool_decide_unpack _); vm_compute.
  - intros job Hin. inversion Hin.
Defined.

(** ** The entry point rejects the bilinear policy with the local solver *)

(** C6: asked for the bilinear policy together with the local MIP solver,
    the entry point raises the configuration error at once: whatever the
    data, the samplers and the clock, the world is left as it was (no clock
    reading, no solver call, no print), so no model was built and no solver
    was invoked. *)
Theorem run_shop_scheduler_rejects env job_data max_time verbose w :
  run_shop_scheduler env job_data max_time true verbose true w
  = (Raise (ValueError "Cannot use quadratic constraints with MIP solver"),
     w).
Proof. done. Qed.

(** ** Sample sets: the record of lowest energy *)

Lemma insert_by_energy_perm d l : insert_by_energy d l ≡ₚ d :: l.
Proof.
  induction l as [|d' l IH]; simpl; [done|].
  case_decide; [|done]. rewrite IH. apply Permutation_swap.
Qed.

Lemma sort_by_energy_perm l : sort_by_energy l ≡ₚ l.
Proof.
  induction l as [|d l IH]; simpl; [done|].
  by rewrite insert_by_energy_perm, IH.
Qed.

Lemma insert_by_energy_head_lowest d l :
  head_lowest l → head_lowest (insert_by_energy d l).
Proof.
  destruct l as [|d0 l]; intros Hl d1; simpl.
  - intros [= <-] d' ->%list_elem_of_singleton. lia.
  - case_decide as Hle; simpl; intros [= <-] d'.
    + intros [->|Hin]%elem_of_cons; [lia|].
      rewrite insert_by_energy_perm in Hin.
      apply elem_of_cons in Hin as [->|Hin]; [done|].
      apply (Hl d0); [done | by right].
    + intros [->|Hin]%elem_of_cons; [lia|].
      assert (energy d0 ≤ energy d') by by apply (Hl d0).
      lia.
Qed.

Lemma sort_by_energy_head_lowest l : head_lowest (sort_by_energy l).
Proof.
  induction l as [|d l IH]; simpl.
  - by intros d.
  - by apply insert_by_energy_head_lowest.
Qed.

(** [truncate n s .first], for a positive [n] and a set that is not empty,
    is a record of [s] of lowest energy. *)
Lemma first_truncate (n : nat) (s : SampleSet) :
  (0 < n)%nat → s ≠ [] →
  ∃ best, first (truncate n s) = Ok best ∧ best ∈ s
    ∧ ∀ d, d ∈ s → energy best ≤ energy d.
Proof.
  intros Hn Hs. unfold first, truncate.
  destruct (sort_by_energy s) as [|d0 r] eqn:Hsort.
  { pose proof (sort_by_energy_perm s) as Hp. rewrite Hsort in Hp.
    symmetry in Hp. by apply Permutation_nil_r in Hp. }
  destruct n as [|n]; [lia|].
  change (take (S n) (d0 :: r)) with (d0 :: take n r).
  destruct (sort_by_energy (d0 :: take n r)) as [|best r'] eqn:Hsort'.
  { pose proof (sort_by_energy_perm (d0 :: take n r)) as Hp.
    rewrite Hsort' in Hp. by apply Permutation_nil_l in Hp. }
  exists best. simpl. split; [done|].
  assert (best ∈ d0 :: take n r) as Hbest.
  { rewrite <- sort_by_energy_perm, Hsort'. left. }
  assert (energy best ≤ energy d0) as Hle.
  { pose proof (sort_by_energy_head_lowest (d0 :: take n r)) as Hlow.
    rewrite Hsort' in Hlow. apply (Hlow best); [done|].
    rewrite <- Hsort', sort_by_energy_perm. left. }
  split.
  - rewrite <- (sort_by_energy_perm s), Hsort.
    apply elem_of_cons in Hbest as [->|Hin]; [left|right].
    by eapply subseteq_take.
  - intros d Hd. rewrite <- (sort_by_energy_perm s) in Hd.
    pose proof (sort_by_energy_head_lowest s) as Hlow.
    assert (energy d0 ≤ energy d); [|lia].
    apply Hlow; [by rewrite Hsort | done].
Qed.

(** ** Extraction of the solution *)

Lemma dict_get_set {K V} `{EqDecision K} (d : list (K * V)) k v k' :
  dict_get (dict_set d k v) k'
  = if decide (k = k') then Some v else dict_get d k'.
Proof.
  induction d as [|[k0 v0] d IH]; simpl.
  - done.
  - destruct (decide (k0 = k)) as [->|Hne]; simpl.
    + by destruct (decide (k = k')).
    + rewrite IH. destruct (decide (k0 = k')) as [->|]; [|done].
      by rewrite decide_False.
Qed.

Lemma for_each_dict_set {K V} `{EqDecision K} (l : list K)
    (f : K → result (K * V)) (g : K → V) (acc : list (K * V)) :
  (∀ k, k ∈ l → f k = Ok (k, g k)) →
  ∃ acc',
    for_each l (λ k sol, e ← f k; Ok (dict_set sol e.1 e.2)) acc = Ok acc'
    ∧ ∀ k, dict_get acc' k
           = if decide (k ∈ l) then Some (g k) else dict_get acc k.
Proof.
  revert acc. induction l as [|k0 l IH]; intros acc Hf; simpl.
  - exists acc. split; [done|]. intros k.
    first [done | case_decide as Hin; [by inversion Hin | done]].
  - rewrite Hf by left. simpl.
    destruct (IH (dict_set acc k0 (g k0))) as (acc' & -> & Hacc').
    { intros k Hk. apply Hf. by right. }
    exists acc'. split; [done|]. intros k. rewrite Hacc', dict_get_set.
    destruct (decide (k ∈ l)) as [Hin|Hin].
    + rewrite decide_True; [done | by right].
    + destruct (decide (k0 = k)) as [->|Hne].
      * rewrite decide_True; [done | left].
      * rewrite decide_False; [done|]. by intros [?|?]%elem_of_cons.
Qed.

Lemma all_pairs_elem_of model_data j i :
  (j, i) ∈ all_pairs model_data ↔
  j ∈ jobs model_data ∧ i ∈ resources model_data.
Proof.
  unfold all_pairs. rewrite list_elem_of_bind. split.
  - intros (i' & (j' & Hin & Hj)%list_elem_of_bind & Hi).
    apply list_elem_of_singleton in Hin. by simplify_eq.
  - intros [Hj Hi]. exists i. split; [|done].
    apply list_elem_of_bind. exists j. split; [|done].
    by apply list_elem_of_singleton.
Qed.

Lemma extract_entry_defined self model_data m s j i task start :
  j ∈ jobs model_data → i ∈ resources model_data →
  task_on model_data j i = Some task →
  dict_get s (x_name j i) = Some start →
  extract_entry (with_cqm (define_variables self model_data) m)
    model_data s j i
  = Ok ((j, i), (task, start, duration task)).
Proof.
  intros Hj Hi Htask Hstart.
  pose proof (x_define_variables self model_data j i) as Hx.
  set (s0 := define_variables self model_data) in *. clearbody s0.
  unfold extract_entry, get_resource_job_tasks, task_on in *.
  rewrite Htask. simpl. rewrite Hx, decide_True by done.
  simpl. unfold sample_at, variables. simpl. by rewrite Hstart.
Qed.

Lemma dict_get_elem_of {K V} `{EqDecision K} (d : list (K * V)) k v :
  dict_get d k = Some v → (k, v) ∈ d.
Proof.
  induction d as [|[k0 v0] d IH]; simpl; [done|].
  case_decide as Hk.
  - intros [= ->]. subst. left.
  - intros Hget. right. by apply IH.
Qed.

Lemma filter_feasible_elem_of raw d :
  d ∈ filter_feasible raw ↔ d ∈ raw ∧ is_feasible d = true.
Proof. unfold filter_feasible. by rewrite list_elem_of_filter, (comm and). Qed.

(** ** The hybrid solver call *)

Lemma first_elem_of s best : first s = Ok best → best ∈ s.
Proof.
  unfold first. destruct (sort_by_energy s) as [|d r] eqn:Hsort; [done|].
  intros [= <-]. rewrite <- (sort_by_energy_perm s), Hsort. left.
Qed.

Lemma truncate_elem_of n s d : d ∈ truncate n s → d ∈ s.
Proof.
  unfold truncate. intros Hin%subseteq_take.
  by rewrite sort_by_energy_perm in Hin.
Qed.

(** A sampler that answers no sample at all leaves nothing to go on with:
    after the warning, [first] raises. *)
Lemma call_cqm_solver_empty env self m time_limit model_data w :
  cqm self = Some m →
  leap_sample_cqm env m time_limit = Ok [] →
  call_cqm_solver env self time_limit model_data w
  = (Raise (ValueError "SampleSet is empty"),
     {| trace := trace w ++
          [SampleCQM m time_limit;
           Warn "Warning: Did not find feasible solution";
           Print (banner 30 "BEST SAMPLE SET"); PrintSampleSet []];
        ticks := ticks w |}).
Proof.
  intros Hm Hleap. unfold call_cqm_solver, eff_bind, lift, emit, eff_ret.
  rewrite Hm. simpl. rewrite Hleap. simpl. by rewrite <- !app_assoc.
Qed.

(** C8, as stated, fails where the sampler answers no sample at all: no
    sample is feasible, the warning is emitted, and the run then aborts with
    the error of the empty sample set instead of returning a table. *)
Lemma empty_answer_aborts :
  leap_sample_cqm (answering []) = (λ _ _, Ok [])
  ∧ ∃ w, run_shop_scheduler (answering []) two_by_two (Some 5) false true
           true quiet
         = (Raise (ValueError "SampleSet is empty"), w)
    ∧ Warn "Warning: Did not find feasible solution" ∈ trace w.
Proof.
  split; [reflexivity|]. eexists. split; [vm_compute; reflexivity|].
  right; left.
Qed.

Local Opaque first truncate filter_feasible banner for_each Nat.min.

(** C8, amended: when the hybrid solver answers at least one sample and none
    is feasible, the solve step warns and goes on with the sample of lowest
    energy instead of aborting, so a schedule table is still produced; when
    it answers no sample at all, the step warns and then aborts; when some
    sample is feasible, nothing is warned, the sample set shown holds
    feasible samples only and the best sample is a feasible one, of lowest
    energy among the feasible ones. *)
Theorem call_cqm_solver_selects env self model_data m time_limit raw w :
  leap_sample_cqm env m time_limit = Ok raw →
  complete model_data →
  Forall (λ d, covers model_data (d_sample d)) raw →
  (raw = [] →
     call_cqm_solver env (with_cqm (define_variables self model_data) m)
       time_limit model_data w
     = (Raise (ValueError "SampleSet is empty"),
        {| trace := trace w ++
             [SampleCQM m time_limit;
              Warn "Warning: Did not find feasible solution";
              Print (banner 30 "BEST SAMPLE SET"); PrintSampleSet []];
           ticks := ticks w |}))
  ∧ (raw ≠ [] →
     ∃ best self' shown w',
       call_cqm_solver env (with_cqm (define_variables self model_data) m)
         time_limit model_data w = (Ok self', w')
       ∧ ticks w' = ticks w
       ∧ best ∈ raw
       ∧ best_sample self' = d_sample best
       ∧ ((∀ d, d ∈ raw → is_feasible d = false) →
            trace w'
            = (trace w ++
                 [SampleCQM m time_limit;
                  Warn "Warning: Did not find feasible solution";
                  Print (banner 30 "BEST SAMPLE SET");
                  PrintSampleSet shown])%list
            ∧ ∀ d, d ∈ raw → energy best ≤ energy d)
       ∧ ((∃ d, d ∈ raw ∧ is_feasible d = true) →
            trace w'
            = (trace w ++
                 [SampleCQM m time_limit;
                  Print (banner 30 "BEST SAMPLE SET");
                  PrintSampleSet shown])%list
            ∧ is_feasible best = true
            ∧ (∀ d, d ∈ shown → d ∈ raw ∧ is_feasible d = true)
            ∧ ∀ d, d ∈ raw → is_feasible d = true → energy best ≤ energy d)
       ∧ (∀ j i, j ∈ jobs model_data → i ∈ resources model_data →
            ∃ task start,
              task_on model_data j i = Some task
              ∧ dict_get (d_sample best) (x_name j i) = Some start
              ∧ dict_get (solution self') (j, i)
                = Some (task, start, duration task)
              ∧ (j, task, start, start + duration task, i)
                ∈ solution_as_dataframe self')
       ∧ dict_get (d_sample best) "makespan" = Some (completion_time self')).
Proof.
  intros Hleap Hcomplete Hcovers. split.
  { intros ->. by apply call_cqm_solver_empty. }
  intros Hraw.
  assert (∃ best shown warned,
    (if decide (0 < length (filter_feasible raw))%nat
     then shown = truncate (10 `min` length (filter_feasible raw))
                    (filter_feasible raw)
          ∧ warned = []
     else shown = truncate 10 raw
          ∧ warned = [Warn "Warning: Did not find feasible solution"])
    ∧ first shown = Ok best ∧ best ∈ raw
    ∧ ((∀ d, d ∈ raw → is_feasible d = false) →
         warned = [Warn "Warning: Did not find feasible solution"]
         ∧ ∀ d, d ∈ raw → energy best ≤ energy d)
    ∧ ((∃ d, d ∈ raw ∧ is_feasible d = true) →
         warned = []
         ∧ is_feasible best = true
         ∧ (∀ d, d ∈ shown → d ∈ raw ∧ is_feasible d = true)
         ∧ ∀ d, d ∈ raw → is_feasible d = true → energy best ≤ energy d))
    as (best & shown & warned & Hshown & Hfirst & Hin & Hnone & Hsome).
  { destruct (filter_feasible raw) as [|d0 fs] eqn:Hf.
    - destruct (first_truncate 10 raw) as (best & Hb & Hin & Hmin);
        [lia | done |].
      exists best, (truncate 10 raw),
        [Warn "Warning: Did not find feasible solution"].
      simpl. split_and!; try done.
      intros (d & Hd & Hfd). exfalso.
      assert (d ∈ filter_feasible raw) as Hdf
        by by apply filter_feasible_elem_of.
      rewrite Hf in Hdf. by apply elem_of_nil in Hdf.
    - destruct (first_truncate (10 `min` length (d0 :: fs)) (d0 :: fs))
        as (best & Hb & Hin & Hmin); [simpl; lia | done |].
      exists best, (truncate (10 `min` length (d0 :: fs)) (d0 :: fs)), [].
      rewrite decide_True by (simpl; lia).
      rewrite <- Hf in Hin, Hmin.
      apply filter_feasible_elem_of in Hin as [Hin Hfeas].
      split_and!; try done.
      + intros Hall. rewrite (Hall best Hin) in Hfeas. done.
      + intros _. split_and!; try done.
        * intros d Hd. rewrite <- Hf in Hd.
          by apply truncate_elem_of, filter_feasible_elem_of in Hd.
        * intros d Hd Hdf. apply Hmin. by apply filter_feasible_elem_of. }
  pose proof Hcovers as Hcov. rewrite Forall_forall in Hcov.
  destruct (Hcov best Hin) as [Hxs [t Ht]]. rewrite Forall_forall in Hxs.
  unfold complete in Hcomplete. rewrite Forall_forall in Hcomplete.
  set (entry := λ ji : Z * Z,
    (default {| resource := 0; duration := 0 |} (task_on model_data ji.1 ji.2),
     default 0 (dict_get (d_sample best) (x_name ji.1 ji.2)),
     duration (default {| resource := 0; duration := 0 |}
                 (task_on model_data ji.1 ji.2)))).
  destruct (for_each_dict_set (all_pairs model_data)
    (λ ji, extract_entry (with_cqm (define_variables self model_data) m)
             model_data (d_sample best) ji.1 ji.2) entry [])
    as (sol & Hsol & Hget).
  { intros [j i] Hji. simpl.
    destruct (Hcomplete _ Hji) as [task Htask].
    destruct (Hxs _ Hji) as [start Hstart].
    apply all_pairs_elem_of in Hji as [Hj Hi].
    rewrite (extract_entry_defined _ _ _ _ _ _ task start) by done.
    unfold entry. simpl in *. by rewrite Htask, Hstart. }
  exists best, (with_result (with_cqm (define_variables self model_data) m)
                  (d_sample best) sol t), shown,
    {| trace := trace w ++
         SampleCQM m time_limit :: warned ++
         [Print (banner 30 "BEST SAMPLE SET"); PrintSampleSet shown];
       ticks := ticks w |}.
  split_and!; try done.
  - unfold call_cqm_solver, eff_bind, lift, emit, eff_ret. simpl.
    rewrite Hleap. simpl.
    destruct (decide (0 < length (filter_feasible raw))%nat) as [Hpos|Hpos];
      destruct Hshown as [-> ->]; simpl.
    + rewrite Hfirst. simpl. unfold all_pairs in Hsol. rewrite Hsol. simpl.
      rewrite Ht. simpl. by rewrite <- !app_assoc.
    + rewrite Hfirst. simpl. unfold all_pairs in Hsol. rewrite Hsol. simpl.
      rewrite Ht. simpl. by rewrite <- !app_assoc.
  - intros Hall. destruct (Hnone Hall) as [-> Hmin]. done.
  - intros Hex. destruct (Hsome Hex) as (-> & Hfb & Hsh & Hmin). done.
  - intros j i Hj Hi.
    assert ((j, i) ∈ all_pairs model_data) as Hji
      by by apply all_pairs_elem_of.
    destruct (Hcomplete _ Hji) as [task Htask].
    destruct (Hxs _ Hji) as [start Hstart]. simpl in *.
    exists task, start.
    assert (dict_get sol (j, i) = Some (task, start, duration task)) as Hd.
    { rewrite Hget, decide_True by done. unfold entry. simpl.
      by rewrite Htask, Hstart. }
    split_and!; try done.
    unfold solution_as_dataframe. simpl.
    apply list_elem_of_fmap. exists ((j, i), (task, start, duration task)).
    split; [done|]. by apply dict_get_elem_of.
Qed.

Local Transparent first truncate filter_feasible banner for_each Nat.min.

Lemma call_cqm_solver_selects_witness :
  (∃ self' w',
     call_cqm_solver (answering infeasible_answer)
       (with_cqm (define_variables (init two_by_two) two_by_two) new_cqm)
       (Some 5) two_by_two quiet = (Ok self', w')
     ∧ best_sample self' = all_at_0 3
     ∧ Warn "Warning: Did not find feasible solution" ∈ trace w')
  ∧ (∃ self' w',
       call_cqm_solver (answering mixed_answer)
         (with_cqm (define_variables (init two_by_two) two_by_two) new_cqm)
         (Some 5) two_by_two quiet = (Ok self', w')
       ∧ best_sample self' = schedule_6
       ∧ Warn "Warning: Did not find feasible solution" ∉ trace w')
  ∧ ∃ w',
      call_cqm_solver (answering [])
        (with_cqm (define_variables (init two_by_two) two_by_two) new_cqm)
        (Some 5) two_by_two quiet
      = (Raise (ValueError "SampleSet is empty"), w').
Proof.
  split_and!.
  - destruct (call_cqm_solver_selects (answering infeasible_answer)
                (init two_by_two) two_by_two new_cqm (Some 5)
                infeasible_answer quiet) as [_ Hrun].
    + reflexivity.
    + by apply (bool_decide_unpack _); vm_compute.
    + by apply (bool_decide_unpack _); vm_compute.
    + destruct Hrun
        as (best & self' & shown & w' & Hcall & _ & Hin & Hbest & Hnone & _);
        [discriminate|].
      destruct Hnone as [Htrace Hmin].
      { intros d Hd. unfold infeasible_answer in Hd.
        apply elem_of_cons in Hd as [->|Hd]; [done|].
        apply list_elem_of_singleton in Hd as ->. done. }
      exists self', w'. split; [done|]. split.
      * rewrite Hbest. unfold infeasible_answer in Hin, Hmin.
        apply elem_of_cons in Hin as [->|Hin].
        -- specialize (Hmin {| d_sample := all_at_0 3; energy := 3;
                               is_feasible := false |}).
           simpl in Hmin. exfalso. assert (5 ≤ 3); [|lia].
           apply Hmin. right; left.
        -- apply list_elem_of_singleton in Hin as ->. done.
      * rewrite Htrace. apply elem_of_app. right. right; left.
  - destruct (call_cqm_solver_selects (answering mixed_answer)
                (init two_by_two) two_by_two new_cqm (Some 5)
                mixed_answer quiet) as [_ Hrun].
    + reflexivity.
    + by apply (bool_decide_unpack _); vm_compute.
    + by apply (bool_decide_unpack _); vm_compute.
    + destruct Hrun
        as (best & self' & shown & w' & Hcall & _ & Hin & Hbest & _ & Hsome
            & _); [discriminate|].
      destruct Hsome as (Htrace & Hfeas & _).
      { exists {| d_sample := schedule_6; energy := 6;
                  is_feasible := true |}.
        split; [right; left | done]. }
      exists self', w'. split; [done|]. split.
      * rewrite Hbest. unfold mixed_answer in Hin.
        apply elem_of_cons in Hin as [->|Hin]; [done|].
        apply list_elem_of_singleton in Hin as ->. done.
      * rewrite Htrace. simpl. intros Hw.
        repeat (apply elem_of_cons in Hw as [Hw|Hw]; [done|]).
        by apply elem_of_nil in Hw.
  - eexists.
    apply (call_cqm_solver_selects (answering []) (init two_by_two)
             two_by_two new_cqm (Some 5) [] quiet); try done.
    by apply (bool_decide_unpack _); vm_compute.
Defined.

(** ** Which indicators the constraints mention *)

Lemma x_built self model_data m j i e :
  x (with_cqm (define_variables self model_data) m) !! (j, i) = Some e →
  e = start_var model_data j i.
Proof.
  change (x (with_cqm (define_variables self model_data) m))
    with (x (define_variables self model_data)).
  rewrite x_define_variables. case_decide; congruence.
Qed.

Lemma y_built self model_data m j k i e :
  y (with_cqm (define_variables self model_data) m) !! (j, k, i) = Some e →
  e = order_var j k i ∧ j ∈ jobs model_data ∧ k ∈ jobs model_data
  ∧ i ∈ resources model_data.
Proof.
  change (y (with_cqm (define_variables self model_data) m))
    with (y (define_variables self model_data)).
  rewrite y_define_variables. case_decide as H; [|done].
  intros [= <-]. by destruct H as (? & ? & ?).
Qed.

Lemma self_add_constraint_built_on model_data s0 self c label self' :
  built_on model_data s0 self →
  (∀ v, v ∈ symbols (lhs c) → allowed_symbol model_data v) →
  self_add_constraint self c label = Ok self' →
  built_on model_data s0 self'.
Proof.
  intros (m & -> & Hm) Hc. unfold self_add_constraint, add_constraint; simpl.
  case_decide; simpl; [done|]. intros [= <-].
  eexists. split; [done|]. intros lc v; simpl.
  intros [Hin|Hin%list_elem_of_singleton]%elem_of_app; [by eapply Hm|].
  subst lc. apply Hc.
Qed.

(** Read the variables an object built on [define_variables] holds. *)
Ltac read_variables :=
  repeat match goal with
  | H : x (with_cqm (define_variables _ _) _) !! _ = Some _ |- _ =>
      apply x_built in H; subst
  | H : y (with_cqm (define_variables _ _) _) !! _ = Some _ |- _ =>
      apply y_built in H as (-> & ? & ? & ?)
  end.

Lemma add_precedence_constraints_built_on model_data self0 self self' :
  built_on model_data (define_variables self0 model_data) self →
  add_precedence_constraints self model_data = Ok self' →
  built_on model_data (define_variables self0 model_data) self'.
Proof.
  intros Hself. unfold add_precedence_constraints.
  apply for_each_invariant; [done|]. clear self self' Hself.
  intros job s1 s2 _ Hs1 Hrun. bind_inv. revert Hrun.
  apply for_each_invariant; [done|]. clear s1 s2 Hs1.
  intros [prev curr] s1 s2 _ Hs1 Hrun. cbn [fst snd] in Hrun. bind_inv.
  revert Hrun. apply self_add_constraint_built_on; [done|].
  destruct Hs1 as (m & -> & _). read_variables.
  intros v. simpl.
  intros [->|[->|?%elem_of_nil]%elem_of_cons]%elem_of_cons; [| |done];
    right; left; by eexists _, _.
Qed.

(** Settle the membership of a variable in the short list of symbols of a
    constraint the builder writes. *)
Ltac allowed_cases model_data :=
  let v := fresh "v" in
  intros v; simpl; rewrite !elem_of_cons, elem_of_nil;
  intros Hv; repeat destruct Hv as [Hv|Hv]; try done; subst v;
  first [ by left
        | right; left; by eexists _, _
        | right; right; eexists _, _, _; by split_and! ].

Lemma add_quadratic_overlap_constraint_built_on model_data self0 self self' :
  built_on model_data (define_variables self0 model_data) self →
  add_quadratic_overlap_constraint self model_data = Ok self' →
  built_on model_data (define_variables self0 model_data) self'.
Proof.
  intros Hself. unfold add_quadratic_overlap_constraint.
  apply for_each_invariant; [done|]. clear self self' Hself.
  intros j s1 s2 Hj Hs1. apply for_each_invariant; [done|]. clear s1 s2 Hs1.
  intros k s1 s2 Hk Hs1. case_decide as Hlt; [|by intros [= <-]].
  apply for_each_invariant; [done|]. clear s1 s2 Hs1.
  intros i s1 s2 Hi Hs1 Hrun. bind_inv.
  case_decide; [|by injection Hrun as <-]. bind_inv.
  revert Hrun. apply self_add_constraint_built_on; [done|].
  destruct Hs1 as (m & -> & _). read_variables.
  allowed_cases model_data.
Qed.

Lemma add_disjunctive_constraints_built_on model_data self0 self self' :
  built_on model_data (define_variables self0 model_data) self →
  add_disjunctive_constraints self model_data = Ok self' →
  built_on model_data (define_variables self0 model_data) self'.
Proof.
  intros Hself. unfold add_disjunctive_constraints.
  apply for_each_invariant; [done|]. clear self self' Hself.
  intros j s1 s2 Hj Hs1. apply for_each_invariant; [done|]. clear s1 s2 Hs1.
  intros k s1 s2 Hk Hs1. case_decide as Hlt; [|by intros [= <-]].
  apply for_each_invariant; [done|]. clear s1 s2 Hs1.
  intros i s1 s2 Hi Hs1 Hrun. bind_inv.
  destruct Hs1 as (m & -> & Hm). read_variables.
  revert Hrun. apply self_add_constraint_built_on;
    [|allowed_cases model_data].
  match goal with
  | H : self_add_constraint _ _ _ = Ok _ |- _ =>
      revert H; apply self_add_constraint_built_on;
        [by exists m | allowed_cases model_data]
  end.
Qed.

Lemma add_makespan_constraint_built_on model_data self0 self self' :
  built_on model_data (define_variables self0 model_data) self →
  add_makespan_constraint self model_data = Ok self' →
  built_on model_data (define_variables self0 model_data) self'.
Proof.
  intros Hself. unfold add_makespan_constraint.
  apply for_each_invariant; [done|]. clear self self' Hself.
  intros job s1 s2 _ Hs1 Hrun. unfold py_last in Hrun. bind_inv.
  revert Hrun. apply self_add_constraint_built_on; [done|].
  destruct Hs1 as (m & -> & _). read_variables.
  match goal with
  | H : makespan _ = Some _ |- _ => injection H as <-
  end.
  allowed_cases model_data.
Qed.

(** The model [build_model] returns: the variables are those of
    [define_variables], the objective is the makespan variable, and the
    constraints mention allowed variables only. *)
Lemma build_model_built_on job_data allow model :
  build_model job_data allow = Ok model →
  ∃ m, model = with_cqm (define_variables (init job_data) job_data)
                 (set_objective m (makespan_var job_data))
    ∧ allowed_constraints job_data m.
Proof.
  unfold build_model. intros Hrun.
  change (define_variables (define_cqm_model (init job_data)) job_data)
    with (define_cqm_model (define_variables (init job_data) job_data))
    in Hrun.
  assert (built_on job_data (define_variables (init job_data) job_data)
            (define_cqm_model (define_variables (init job_data) job_data)))
    as H0.
  { exists new_cqm. split; [done|]. by intros lc v ?%elem_of_nil. }
  destruct (add_precedence_constraints _ job_data) as [s1|] eqn:E1;
    [|done].
  apply (add_precedence_constraints_built_on _ _ _ _ H0) in E1.
  cbn [mbind result_bind] in Hrun.
  destruct (if allow then _ else _) as [s2|] eqn:E2; [|done].
  assert (built_on job_data (define_variables (init job_data) job_data) s2)
    as H2.
  { destruct allow.
    - eapply add_quadratic_overlap_constraint_built_on; [exact E1|exact E2].
    - eapply add_disjunctive_constraints_built_on; [exact E1|exact E2]. }
  cbn [mbind result_bind] in Hrun.
  destruct (add_makespan_constraint s2 job_data) as [s3|] eqn:E3; [|done].
  apply (add_makespan_constraint_built_on _ _ _ _ H2) in E3
    as (m & -> & Hm).
  unfold define_objective_function in Hrun. simpl in Hrun.
  injection Hrun as <-. by exists m.
Qed.

Lemma eval_dict_set_other s name val e :
  name ∉ variables e → eval (dict_set s name val) e = eval s e.
Proof.
  unfold variables. rewrite elem_of_remove_dups.
  induction e as [v|n|a IHa b IHb|a IHa b IHb|a IHa b IHb]; simpl;
    intros Hname; try done.
  - rewrite dict_get_set, decide_False; [done|].
    intros ->. apply Hname. left.
  - rewrite fmap_app, elem_of_app in Hname. rewrite IHa, IHb; tauto.
  - rewrite fmap_app, elem_of_app in Hname. rewrite IHa, IHb; tauto.
  - rewrite fmap_app, elem_of_app in Hname. rewrite IHa, IHb; tauto.
Qed.

Lemma allowed_symbol_not_reverse model_data v j k i :
  allowed_symbol model_data v → k ≤ j → vname v ≠ y_name j k i.
Proof.
  intros [->|[(j' & i' & ->)|(j' & k' & i' & Hlt & _ & _ & _ & ->)]] Hle;
    simpl; intros E.
  - symmetry in E. by apply variable_names_differ in E.
  - by apply variable_names_differ in E.
  - apply y_name_inj in E as (-> & -> & ->). lia.
Qed.

(** C10: the constraints of the built model mention, among the indicators,
    only y[j,k,i] with j < k.  The indicators y[j,k,i] with k <= j (the
    reverse direction and the diagonal) are created by the variable step but
    are in no constraint and not in the objective, so changing their value
    in a sample changes neither feasibility nor the objective. *)
Theorem reverse_indicators_unused job_data allow model :
  build_model job_data allow = Ok model →
  ∃ m, cqm model = Some m
    ∧ (∀ j k i, j ∈ jobs job_data → k ∈ jobs job_data →
         i ∈ resources job_data →
         y model !! (j, k, i) = Some (Binary (y_name j k i)))
    ∧ (∀ lc v, lc ∈ constraints m → v ∈ symbols (lhs lc.2) →
         vtype v = BINARY →
         ∃ j k i, j < k ∧ j ∈ jobs job_data ∧ k ∈ jobs job_data
           ∧ i ∈ resources job_data ∧ vname v = y_name j k i)
    ∧ (∀ j k i, k ≤ j →
         (y_name j k i ∉ variables (objective m))
         ∧ ∀ lc, lc ∈ constraints m → y_name j k i ∉ variables (lhs lc.2))
    ∧ (∀ j k i s val, k ≤ j →
         (feasible s m → feasible (dict_set s (y_name j k i) val) m)
         ∧ eval (dict_set s (y_name j k i) val) (objective m)
           = eval s (objective m)).
Proof.
  intros (m & -> & Hm)%build_model_built_on.
  exists (set_objective m (makespan_var job_data)).
  assert (∀ j k i, k ≤ j →
    (y_name j k i ∉ variables (makespan_var job_data))
    ∧ ∀ lc, lc ∈ constraints m → y_name j k i ∉ variables (lhs lc.2))
    as Hunused.
  { intros j k i Hle. split.
    - intros E%list_elem_of_singleton.
      by apply variable_names_differ in E.
    - intros lc Hlc. unfold variables. rewrite elem_of_remove_dups.
      intros (v & E & Hv)%list_elem_of_fmap.
      symmetry in E. revert E.
      apply (allowed_symbol_not_reverse job_data v j k i);
        [by eapply Hm | done]. }
  split_and!.
  - done.
  - intros j k i Hj Hk Hi.
    change (y (with_cqm (define_variables (init job_data) job_data)
                 (set_objective m (makespan_var job_data))))
      with (y (define_variables (init job_data) job_data)).
    by rewrite y_define_variables, decide_True.
  - intros lc v Hlc Hv Hbin.
    destruct (Hm lc v Hlc Hv)
      as [->|[(j & i & ->)|(j & k & i & ? & ? & ? & ? & ->)]]; try done.
    by exists j, k, i.
  - apply Hunused.
  - intros j k i s val Hle. destruct (Hunused j k i Hle) as [Hobj Hcs].
    split.
    + intros Hfeas lc Hlc. destruct (Hfeas lc Hlc) as (z & Hz & Hge).
      exists z. split; [|done]. rewrite eval_dict_set_other; [done|].
      by apply Hcs.
    + by apply eval_dict_set_other.
Qed.

Lemma reverse_indicators_unused_witness :
  ∃ model m, build_model two_by_two false = Ok model
    ∧ cqm model = Some m
    ∧ y model !! (1, 0, 2) = Some (Binary "y1_0_2")
    ∧ y model !! (1, 1, 2) = Some (Binary "y1_1_2")
    ∧ (∀ lc, lc ∈ constraints m → "y1_0_2" ∉ variables (lhs lc.2))
    ∧ (∀ s val, feasible s m → feasible (dict_set s "y1_0_2" val) m).
Proof.
  destruct (build_model two_by_two false) as [model|e] eqn:E.
  - destruct (reverse_indicators_unused two_by_two false model E)
      as (m & Hm & Hy & _ & Hunused & Hfeas).
    exists model, m. split_and!; try done.
    + apply (Hy 1 0 2); by apply (bool_decide_unpack _); vm_compute.
    + apply (Hy 1 1 2); by apply (bool_decide_unpack _); vm_compute.
    + apply (Hunused 1 0 2). lia.
    + intros s val. apply (Hfeas 1 0 2). lia.
  - vm_compute in E. discriminate E.
Defined.

(** A whole run on [two_by_two] whose solver answers infeasible samples
    only: the warning is in the trace and the schedule table is returned. *)
Lemma infeasible_run_returns_table :
  ∃ w, run_shop_scheduler (answering infeasible_answer) two_by_two (Some 5)
         false true true quiet
       = (Ok [(0, {| resource := 1; duration := 3 |}, 0, 3, 1);
              (1, {| resource := 1; duration := 1 |}, 0, 1, 1);
              (0, {| resource := 2; duration := 2 |}, 0, 2, 2);
              (1, {| resource := 2; duration := 4 |}, 0, 4, 2)], w)
    ∧ Warn "Warning: Did not find feasible solution" ∈ trace w
    ∧ last (trace w) = Some (Tabulate 3 10 0 1 3).
Proof.
  eexists. split; [vm_compute; reflexivity|].
  split; [|reflexivity]. right; left.
Qed.

(** ** The local solver call *)

Lemma call_mip_solver_completion_time env self time_limit w r self' w' :
  call_mip_solver env self time_limit w = (Ok (r, self'), w') →
  completion_time self' = completion_time self
  ∧ best_sample self' = best_sample self.
Proof.
  unfold call_mip_solver, eff_bind, lift, emit, eff_ret.
  destruct (cqm self) as [m|]; simpl; [|done].
  destruct (mip_sample_cqm env m time_limit) as [sol|]; simpl; [|done].
  destruct (first sol) as [best|]; simpl; [|done].
  destruct (for_each (d_sample best) (mip_entry self) []) as [table|];
    simpl; [|done].
  by intros [= _ <- _].
Qed.

(** The assignment [schedule_6] is feasible for the disjunctive model of
    [two_by_two]. *)
Lemma schedule_6_feasible model :
  build_model two_by_two false = Ok model →
  ∃ m, cqm model = Some m ∧ feasible schedule_6 m
    ∧ eval schedule_6 (objective m) = Some 6.
Proof.
  intros E. vm_compute in E. injection E as <-.
  eexists. split; [reflexivity|]. split; [|reflexivity].
  intros lc Hlc. simpl in Hlc.
  repeat (apply elem_of_cons in Hlc as [->|Hlc]);
    [..|by apply elem_of_nil in Hlc];
    (eexists; split; [vm_compute; reflexivity | simpl; lia]).
Qed.

(** C9 holds on the hybrid path and fails on the local one: on [two_by_two]
    with the disjunctive policy and a solver that answers [schedule_6], whose
    makespan is 6, the run through the hybrid solver reports completion time
    6, and the run through the local solver reports 0, the value the
    constructor gave the attribute. *)
Theorem mip_completion_time_unset :
  dict_get schedule_6 "makespan" = Some 6
  ∧ (∃ df w, run_shop_scheduler (answering optimal_answer) two_by_two None
               false true false quiet = (Ok df, w)
       ∧ last (trace w) = Some (Tabulate 6 10 0 1 3))
  ∧ (∃ df w, run_shop_scheduler (answering optimal_answer) two_by_two None
               true true false quiet = (Ok df, w)
       ∧ last (trace w) = Some (Tabulate 0 10 0 1 3)
       ∧ df = [(0, {| resource := 1; duration := 3 |}, 0, 3, 1);
               (0, {| resource := 2; duration := 2 |}, 4, 6, 2);
               (1, {| resource := 1; duration := 1 |}, 4, 5, 1);
               (1, {| resource := 2; duration := 4 |}, 0, 4, 2)]).
Proof.
  split; [reflexivity|]. split.
  - eexists _, _. split; [vm_compute; reflexivity | reflexivity].
  - eexists _, _. split; [vm_compute; reflexivity | by split].
Qed.

(** ** The whole model

    The four families of labels start differently, so the steps of
    [build_model] never clash, and the model it returns is the objective
    with the three lists of constraints in the order of the calls. *)

Lemma precedence_constraints_labels model_data lab :
  lab ∈ (precedence_constraints model_data).*1 →
  ∃ job i, lab = precedence_label job i.
Proof.
  unfold precedence_constraints. rewrite fmap_bind_list.
  intros (job & Hlab & _)%list_elem_of_bind.
  rewrite precedence_labels in Hlab.
  apply list_elem_of_fmap in Hlab as (i & -> & _). by exists job, i.
Qed.

Lemma disjunctive_constraints_labels model_data lab :
  lab ∈ (disjunctive_constraints model_data).*1 →
  ∃ j k i, lab = disjunction1_label j k i ∨ lab = disjunction2_label j k i.
Proof.
  unfold disjunctive_constraints. rewrite fmap_bind_list.
  intros ([[j k] i] & Hlab%disjunctive_at_labels & _)%list_elem_of_bind.
  by exists j, k, i.
Qed.

Lemma overlap_constraints_labels model_data lab :
  lab ∈ (overlap_constraints model_data).*1 →
  ∃ j k i, lab = overlap_label j k i.
Proof.
  unfold overlap_constraints. rewrite fmap_bind_list.
  intros ([[j k] i] & Hlab%overlap_at_labels & _)%list_elem_of_bind.
  by exists j, k, i.
Qed.

Lemma label_families_differ job i j k i' job' :
  precedence_label job i ≠ overlap_label j k i'
  ∧ precedence_label job i ≠ disjunction1_label j k i'
  ∧ precedence_label job i ≠ disjunction2_label j k i'
  ∧ precedence_label job i ≠ makespan_label job'
  ∧ overlap_label j k i' ≠ makespan_label job'
  ∧ disjunction1_label j k i' ≠ makespan_label job'
  ∧ disjunction2_label j k i' ≠ makespan_label job'.
Proof.
  unfold precedence_label, overlap_label, disjunction1_label,
    disjunction2_label, makespan_label.
  split_and!; norm_str; congruence.
Qed.

Lemma build_model_constraints job_data allow :
  NoDup (jobs job_data) → NoDup (resources job_data) →
  sequenced job_data → all_shared job_data → terminated job_data →
  build_model job_data allow
  = Ok (with_cqm (define_variables (init job_data) job_data)
          {| objective := makespan_var job_data;
             constraints :=
               precedence_constraints job_data
               ++ (if allow then overlap_constraints job_data
                   else disjunctive_constraints job_data)
               ++ makespan_constraints job_data |}).
Proof.
  intros Hj Hr Hseq Hshared Hterm. unfold build_model.
  change (define_variables (define_cqm_model (init job_data)) job_data)
    with (with_cqm (define_variables (init job_data) job_data) new_cqm).
  rewrite add_precedence_constraints_emits; [|done|].
  2:{ apply precedence_constraints_fresh; [done..|].
      intros job i Hin. inversion Hin. }
  cbn [mbind result_bind].
  assert (∀ lab, lab ∈ labels (extend new_cqm
                                 (precedence_constraints job_data)) →
                 ∃ job i, lab = precedence_label job i) as Hprec.
  { intros lab. rewrite labels_extend. simpl.
    apply precedence_constraints_labels. }
  destruct allow.
  - rewrite add_quadratic_overlap_constraint_emits; [|done|].
    2:{ apply overlap_constraints_fresh; [done..|].
        intros j k i (job & i' & E)%Hprec. symmetry in E.
        by apply label_families_differ in E. }
    cbn [mbind result_bind]. rewrite extend_extend.
    rewrite add_makespan_constraint_emits; [|done|].
    2:{ apply makespan_constraints_fresh; [done|].
        intros job. rewrite labels_extend, fmap_app. simpl.
        intros [(j & i & E)%precedence_constraints_labels
               |(j & k & i & E)%overlap_constraints_labels]%elem_of_app;
          symmetry in E; by apply label_families_differ in E. }
    cbn [mbind result_bind]. rewrite extend_extend.
    unfold define_objective_function. simpl.
    by rewrite <- app_assoc.
  - rewrite add_disjunctive_constraints_emits; [|done|].
    2:{ apply disjunctive_constraints_fresh; [done..|].
        intros j k i. split; intros (job & i' & E)%Hprec; symmetry in E;
          by apply label_families_differ in E. }
    cbn [mbind result_bind]. rewrite extend_extend.
    rewrite add_makespan_constraint_emits; [|done|].
    2:{ apply makespan_constraints_fresh; [done|].
        intros job. rewrite labels_extend, fmap_app. simpl.
        intros [(j & i & E)%precedence_constraints_labels
               |(j & k & i & [E|E])%disjunctive_constraints_labels]
               %elem_of_app;
          symmetry in E; by apply label_families_differ in E. }
    cbn [mbind result_bind]. rewrite extend_extend.
    unfold define_objective_function. simpl.
    by rewrite <- app_assoc.
Qed.

(** ** The local solver call: decoding the variable names *)

Lemma string_forall_impl (P Q : ascii → Prop) s :
  (∀ c, P c → Q c) → string_forall P s → string_forall Q s.
Proof. intros HPQ. induction s as [|c s IH]; simpl; [done|]. intros [??]. auto. Qed.

Lemma string_forall_app P s1 s2 :
  string_forall P s1 → string_forall P s2 → string_forall P (s1 +:+ s2).
Proof.
  induction s1 as [|c s1 IH]; [done|]. intros [Hc H1] H2.
  change (String c s1 +:+ s2) with (String c (s1 +:+ s2)). split; auto.
Qed.

Lemma pretty_N_go_forall P n s :
  (∀ d, P (pretty_N_char d)) → string_forall P s →
  string_forall P (pretty_N_go n s).
Proof.
  intros HP. revert s. induction (N.lt_wf_0 n) as [n _ IH]; intros s Hs.
  destruct (decide (n = 0)%N) as [->|Hn].
  - by rewrite pretty_N_go_0.
  - rewrite pretty_N_go_step by lia. apply IH; [apply N.div_lt; lia|].
    by split.
Qed.

Lemma pretty_N_char_digit d :
  (d < 10)%N → digit (pretty_N_char d) = Some (Z.of_N d).
Proof.
  intros Hd.
  assert (d = 0 ∨ d = 1 ∨ d = 2 ∨ d = 3 ∨ d = 4 ∨ d = 5 ∨ d = 6 ∨ d = 7
          ∨ d = 8 ∨ d = 9)%N as Hcases by lia.
  repeat (destruct Hcases as [->|Hcases]; [reflexivity|]). by subst.
Qed.

Lemma pretty_N_char_is_digit d : is_Some (digit (pretty_N_char d)).
Proof.
  destruct (decide (d < 10)%N) as [Hd|Hd].
  - rewrite pretty_N_char_digit by done. by eexists.
  - unfold pretty_N_char.
    destruct d as [|p]; [lia|].
    do 4 (destruct p as [p|p|]; try (by eexists); try lia).
Qed.

Lemma digits_go_digit acc d r :
  (d < 10)%N →
  digits_go acc (String (pretty_N_char d) r)
  = digits_go (10 * acc + Z.of_N d) r.
Proof.
  intros Hd. pose proof (pretty_N_char_digit d Hd) as Hdig.
  cbn [digits_go]. destruct (decide (pretty_N_char d = "_"%char)) as [E|_].
  - rewrite E in Hdig. discriminate Hdig.
  - by rewrite Hdig.
Qed.

(** Reading back the digits [pretty_N_go] writes. *)
Lemma digits_go_pretty_N_go n :
  ∃ k : nat, ∀ acc s,
    digits_go acc (pretty_N_go n s) = digits_go (acc * 10 ^ Z.of_nat k + Z.of_N n) s.
Proof.
  induction (N.lt_wf_0 n) as [n _ IH].
  destruct (decide (n = 0)%N) as [->|Hn].
  - exists 0%nat. intros acc s. rewrite pretty_N_go_0. f_equal. lia.
  - destruct (IH (n `div` 10)%N) as [k Hk]; [apply N.div_lt; lia|].
    exists (S k). intros acc s. rewrite pretty_N_go_step by lia.
    rewrite Hk, digits_go_digit by (apply N.mod_lt; lia). f_equal.
    rewrite Nat2Z.inj_succ, Z.pow_succ_r by lia.
    pose proof (N.div_mod n 10) as Hdm.
    assert (Z.of_N n = 10 * Z.of_N (n `div` 10) + Z.of_N (n `mod` 10)) by lia.
    lia.
Qed.

Lemma pretty_N_go_nonempty n s : (0 < n)%N → pretty_N_go n s ≠ EmptyString.
Proof.
  assert (∀ m t, t ≠ EmptyString → pretty_N_go m t ≠ EmptyString) as Hgrow.
  { intros m. induction (N.lt_wf_0 m) as [m _ IH]; intros t Ht.
    destruct (decide (m = 0)%N) as [->|Hm].
    - by rewrite pretty_N_go_0.
    - rewrite pretty_N_go_step by lia. apply IH; [apply N.div_lt; lia|done]. }
  intros Hn. rewrite pretty_N_go_step by done. by apply Hgrow.
Qed.

Lemma digits_digits_go s :
  s ≠ EmptyString → string_forall (λ c, is_Some (digit c)) s →
  digits s = digits_go 0 s.
Proof.
  destruct s as [|c r]; [done|]. intros _ [[d Hd] _]. cbn [digits digits_go].
  destruct (decide (c = "_"%char)) as [->|_]; [discriminate Hd|].
  rewrite Hd. done.
Qed.

Lemma digits_pretty_N (n : N) : digits (pretty n) = Some (Z.of_N n).
Proof.
  unfold pretty, pretty_N. case_decide as Hn; [by subst|].
  rewrite digits_digits_go.
  - destruct (digits_go_pretty_N_go n) as [k Hk]. rewrite Hk.
    cbn [digits_go]. f_equal; lia.
  - apply pretty_N_go_nonempty. lia.
  - apply pretty_N_go_forall; [apply pretty_N_char_is_digit | done].
Qed.

Lemma pretty_N_digits (n : N) :
  string_forall (λ c, is_Some (digit c)) (pretty n).
Proof.
  unfold pretty, pretty_N. case_decide; [by compute; eauto|].
  apply pretty_N_go_forall; [apply pretty_N_char_is_digit | done].
Qed.

Lemma pretty_N_nonempty (n : N) : pretty n ≠ EmptyString.
Proof.
  unfold pretty, pretty_N. case_decide; [done|].
  apply pretty_N_go_nonempty. lia.
Qed.

(** Stripping leaves a string without white space as it is. *)
Lemma rev_app_rev_app s1 s2 s3 :
  String.rev_app (String.rev_app s1 s2) s3 = String.rev_app s2 (s1 +:+ s3).
Proof.
  revert s2. induction s1 as [|c s1 IH]; intros s2; [done|].
  cbn [String.rev_app]. by rewrite IH.
Qed.

Lemma app_empty_r s : s +:+ EmptyString = s.
Proof.
  induction s as [|c s IH]; [done|].
  change (String c s +:+ EmptyString) with (String c (s +:+ EmptyString)).
  by rewrite IH.
Qed.

Lemma rev_app_forall P s1 s2 :
  string_forall P s1 → string_forall P s2 →
  string_forall P (String.rev_app s1 s2).
Proof.
  revert s2. induction s1 as [|c s1 IH]; intros s2; [done|].
  intros [Hc H1] H2. cbn [String.rev_app]. apply IH; [done|by split].
Qed.

Lemma lstrip_no_space s :
  string_forall (λ c, is_py_space c = false) s → lstrip s = s.
Proof. destruct s as [|c r]; [done|]. intros [Hc _]. simpl. by rewrite Hc. Qed.

Lemma strip_no_space s :
  string_forall (λ c, is_py_space c = false) s → strip s = s.
Proof.
  intros Hs. unfold strip, String.rev.
  rewrite (lstrip_no_space s) by done.
  rewrite lstrip_no_space by (by apply rev_app_forall).
  by rewrite rev_app_rev_app, app_empty_r.
Qed.

Lemma digit_no_space c : is_Some (digit c) → is_py_space c = false.
Proof.
  intros [d Hd]. unfold digit, is_py_space in *.
  case_decide; [|done]. apply bool_decide_eq_false. lia.
Qed.

Lemma py_int_unsigned c r :
  is_Some (digit c) → strip (String c r) = String c r →
  py_int (String c r)
  = of_option (digits (String c r))
      (ValueError "invalid literal for int() with base 10").
Proof.
  intros [v Hv] Hstrip. unfold py_int. rewrite Hstrip.
  destruct c as [[] [] [] [] [] [] [] []]; try reflexivity;
    by vm_compute in Hv.
Qed.

(** [int(str(z)) = z] *)
Lemma py_int_pretty (z : Z) : py_int (pretty z) = Ok z.
Proof.
  destruct z as [|p|p]; [reflexivity|..]; unfold pretty, pretty_Z.
  - pose proof (pretty_N_digits (N.pos p)) as Hdig.
    pose proof (pretty_N_nonempty (N.pos p)) as Hne.
    pose proof (digits_pretty_N (N.pos p)) as Hval.
    change (pretty (N.pos p)) with (pretty p) in *.
    destruct (pretty p) as [|c r]; [done|].
    rewrite py_int_unsigned; [by rewrite Hval | apply Hdig |].
    apply strip_no_space.
    eapply string_forall_impl; [apply digit_no_space | done].
  - pose proof (pretty_N_digits (N.pos p)) as Hdig.
    pose proof (digits_pretty_N (N.pos p)) as Hval.
    change (pretty (N.pos p)) with (pretty p) in *.
    change ("-" +:+ pretty p) with (String "-" (pretty p)).
    unfold py_int. rewrite strip_no_space.
    + rewrite Hval. done.
    + split; [done|].
      eapply string_forall_impl; [apply digit_no_space | done].
Qed.

Lemma split_no_underscore s : no_underscore s → split "_" s = [s].
Proof.
  induction s as [|c s IH]; [done|]. intros [Hc Hs]. cbn [split].
  rewrite decide_False by done. by rewrite IH.
Qed.

Lemma split_at_underscore a b :
  no_underscore a → split "_" (a +:+ String "_" b) = a :: split "_" b.
Proof.
  induction a as [|c a IH]; intros Ha.
  - change (EmptyString +:+ String "_" b) with (String "_" b). cbn [split].
    by rewrite decide_True.
  - destruct Ha as [Hc Ha].
    change (String c a +:+ String "_" b)
      with (String c (a +:+ String "_" b)).
    cbn [split]. rewrite decide_False by done. by rewrite IH.
Qed.

Lemma mip_entry_x self j i val sol :
  mip_entry self (x_name j i, val) sol
  = task ← get_resource_job_tasks (model_data self) j i;
    Ok (dict_set sol (j, i) (task, val, duration task)).
Proof.
  unfold mip_entry, x_name. cbn [fst snd]. norm_str.
  cbn [startswith_x str_tail]. rewrite bool_decide_eq_true_2 by done.
  rewrite split_at_underscore by apply pretty_Z_no_underscore.
  rewrite split_no_underscore by apply pretty_Z_no_underscore.
  by rewrite !py_int_pretty.
Qed.

Lemma x_names_elem_of model_data name :
  name ∈ x_names model_data ↔
  ∃ j i task, name = x_name j i ∧ task_on model_data j i = Some task.
Proof.
  unfold x_names, task_on. rewrite list_elem_of_fmap. split.
  - intros ([j i] & -> & ([ji task] & Hji & Hin)%list_elem_of_fmap).
    simpl in Hji. subst ji. apply elem_of_map_to_list in Hin.
    by exists j, i, task.
  - intros (j & i & task & -> & Htask). exists (j, i). split; [done|].
    apply list_elem_of_fmap. exists ((j, i), task). split; [done|].
    by apply elem_of_map_to_list.
Qed.

Lemma x_name_startswith_x j i : startswith_x (x_name j i) = true.
Proof. unfold x_name. norm_str. by apply bool_decide_eq_true_2. Qed.

Lemma dict_get_None {K V} `{EqDecision K} (d : list (K * V)) k :
  dict_get d k = None ↔ k ∉ d.*1.
Proof.
  induction d as [|[k0 v0] d IH]; simpl.
  - split; [intros _; apply not_elem_of_nil | done].
  - rewrite not_elem_of_cons. case_decide as Hk; [subst|]; split.
    + done.
    + by intros [? _].
    + intros Hd. split; [done | by apply IH].
    + intros [_ Hd]. by apply IH.
Qed.

Lemma mip_entry_skip self name val sol :
  startswith_x name = false → mip_entry self (name, val) sol = Ok sol.
Proof. intros Hx. unfold mip_entry. cbn [fst]. by rewrite Hx. Qed.

(** The loop over the items of the best sample. *)
Lemma mip_loop self (items : sample) acc :
  decodable (model_data self) items → NoDup items.*1 →
  ∃ table,
    for_each items (mip_entry self) acc = Ok table
    ∧ ∀ j i, dict_get table (j, i)
        = match dict_get items (x_name j i) with
          | Some val =>
              task ← task_on (model_data self) j i;
              Some (task, val, duration task)
          | None => dict_get acc (j, i)
          end.
Proof.
  revert acc. induction items as [|[name val] items IH]; intros acc Hdec Hnd.
  - exists acc. by split.
  - apply Forall_cons in Hdec as [Hname Hdec].
    rewrite fmap_cons in Hnd. apply NoDup_cons in Hnd as [Hfresh Hnd].
    cbn [fst] in Hname, Hfresh. cbn [for_each].
    destruct Hname as [Hskip|(j0 & i0 & task0 & -> & Htask0)%x_names_elem_of].
    + rewrite mip_entry_skip by done. cbn [mbind result_bind].
      destruct (IH acc Hdec Hnd) as (table & -> & Htable).
      exists table. split; [done|]. intros j i. rewrite Htable.
      cbn [dict_get]. rewrite decide_False; [done|].
      intros ->. by rewrite x_name_startswith_x in Hskip.
    + rewrite mip_entry_x. unfold get_resource_job_tasks.
      unfold task_on in Htask0. rewrite Htask0. cbn [of_option mbind result_bind].
      destruct (IH (dict_set acc (j0, i0) (task0, val, duration task0))
                  Hdec Hnd) as (table & -> & Htable).
      exists table. split; [done|]. intros j i. rewrite Htable.
      cbn [dict_get]. destruct (decide (x_name j0 i0 = x_name j i)) as [E|Hne].
      * apply x_name_inj in E as [-> ->].
        apply dict_get_None in Hfresh. rewrite Hfresh.
        rewrite dict_get_set, decide_True by done.
        unfold task_on. by rewrite Htask0.
      * destruct (dict_get items (x_name j i)); [done|].
        rewrite dict_get_set, decide_False; [done|]. by intros [= -> ->].
Qed.

(** X1: the loop of [call_mip_solver] decodes the names the builder gives the
    start-time variables: the item of [x_name j i] puts the entry of the
    pair (j, i) in the table (or raises when the pair has no task); the
    indicators and the makespan are skipped; a name that starts with [x] and
    has no underscore cannot be unpacked. *)
Theorem mip_entry_decodes self val sol :
  (∀ j i, mip_entry self (x_name j i, val) sol
          = task ← get_resource_job_tasks (model_data self) j i;
            Ok (dict_set sol (j, i) (task, val, duration task)))
  ∧ (∀ j k i, mip_entry self (y_name j k i, val) sol = Ok sol)
  ∧ mip_entry self ("makespan", val) sol = Ok sol
  ∧ (∀ r, no_underscore r →
       mip_entry self (String "x" r, val) sol
       = Raise (ValueError "not enough or too many values to unpack")).
Proof.
  split_and!.
  - intros j i. apply mip_entry_x.
  - intros j k i. apply mip_entry_skip. unfold y_name. norm_str. done.
  - done.
  - intros r Hr. unfold mip_entry. cbn [fst snd startswith_x str_tail].
    rewrite bool_decide_eq_true_2 by done.
    by rewrite split_no_underscore.
Qed.

(** X2: when the best sample of the local solver has distinct names and
    its [x] variables are start-time variables of pairs that have a task,
    [call_mip_solver] returns, after the one solver call, a table that has an
    entry for (j, i) exactly when the sample gives [x_name j i] a value: the
    task of the pair, that value, and the task's duration. *)
Theorem call_mip_solver_table env self m time_limit sol best w :
  cqm self = Some m →
  mip_sample_cqm env m time_limit = Ok sol →
  first sol = Ok best →
  decodable (model_data self) (d_sample best) →
  NoDup (d_sample best).*1 →
  ∃ table,
    call_mip_solver env self time_limit w
    = (Ok (tt, with_solution self table),
       {| trace := trace w ++ [SampleMIP m time_limit]; ticks := ticks w |})
    ∧ ∀ j i e, dict_get table (j, i) = Some e ↔
        ∃ task val,
          task_on (model_data self) j i = Some task
          ∧ dict_get (d_sample best) (x_name j i) = Some val
          ∧ e = (task, val, duration task).
Proof.
  intros Hm Hsol Hbest Hdec Hnd.
  destruct (mip_loop self (d_sample best) [] Hdec Hnd)
    as (table & Hloop & Htable).
  exists table. split.
  - unfold call_mip_solver, eff_bind, lift, emit, eff_ret.
    rewrite Hm. cbn [of_option trace ticks]. rewrite Hsol, Hbest, Hloop.
    done.
  - intros j i e. rewrite Htable. split.
    + destruct (dict_get (d_sample best) (x_name j i)) as [val|]; [|done].
      destruct (task_on (model_data self) j i) as [task|]; [|done].
      intros [= <-]. by exists task, val.
    + intros (task & val & -> & -> & ->). done.
Qed.

Lemma call_mip_solver_table_witness :
  ∃ table,
    call_mip_solver (answering optimal_answer)
      (with_cqm (init two_by_two) new_cqm) 100 quiet
    = (Ok (tt, with_solution (with_cqm (init two_by_two) new_cqm) table),
       {| trace := trace quiet ++ [SampleMIP new_cqm 100];
          ticks := ticks quiet |})
    ∧ ∀ j i e, dict_get table (j, i) = Some e ↔
        ∃ task val,
          task_on two_by_two j i = Some task
          ∧ dict_get schedule_6 (x_name j i) = Some val
          ∧ e = (task, val, duration task).
Proof.
  apply (call_mip_solver_table (answering optimal_answer)
           (with_cqm (init two_by_two) new_cqm) new_cqm 100 optimal_answer
           {| d_sample := schedule_6; energy := 6; is_feasible := true |}
           quiet).
  - reflexivity.
  - reflexivity.
  - reflexivity.
  - by apply (bool_decide_unpack _); vm_compute.
  - by apply (bool_decide_unpack _); vm_compute.
Defined.

(** ** What the exclusivity constraints say about a sample *)

Lemma satisfies_overlap_values model_data s j k i task_j task_k :
  satisfies s (overlap model_data j k i task_j task_k).2 →
  ∃ a b c, dict_get s (x_name j i) = Some a
    ∧ dict_get s (x_name k i) = Some b
    ∧ dict_get s (y_name j k i) = Some c.
Proof.
  intros (v & Hv & _). simpl in Hv.
  destruct (dict_get s (x_name j i)) as [a|]; [|done].
  destruct (dict_get s (x_name k i)) as [b|]; [|done].
  destruct (dict_get s (y_name j k i)) as [c|]; [|done].
  by exists a, b, c.
Qed.

Lemma satisfies_disjunction_values model_data s j k i task_k :
  satisfies s (disjunction1 model_data j k i task_k).2 →
  ∃ a b c, dict_get s (x_name j i) = Some a
    ∧ dict_get s (x_name k i) = Some b
    ∧ dict_get s (y_name j k i) = Some c.
Proof.
  intros (v & Hv & _). simpl in Hv.
  destruct (dict_get s (x_name j i)) as [a|]; [|done].
  destruct (dict_get s (x_name k i)) as [b|]; [|done].
  destruct (dict_get s (y_name j k i)) as [c|]; [|done].
  by exists a, b, c.
Qed.

(** X3: the quadratic constraint the bilinear policy adds for the tasks of
    jobs j < k on resource i (both of positive duration) needs a value for
    the two start times and the indicator, and with a 0/1 indicator it says:
    indicator 1, the task of j ends before the task of k starts; indicator
    0, the task of k ends before the task of j starts. *)
Theorem overlap_constraint_orders self model_data m :
  NoDup (jobs model_data) → NoDup (resources model_data) →
  all_shared model_data →
  (∀ j k i, overlap_label j k i ∉ labels m) →
  ∃ added,
    add_quadratic_overlap_constraint
      (with_cqm (define_variables self model_data) m) model_data
    = Ok (with_cqm (define_variables self model_data) (extend m added))
    ∧ ∀ j k i task_j task_k,
        j ∈ jobs model_data → k ∈ jobs model_data → j < k →
        i ∈ resources model_data →
        task_on model_data j i = Some task_j →
        task_on model_data k i = Some task_k →
        0 < duration task_j → 0 < duration task_k →
        ∃ c, (overlap_label j k i, c) ∈ added
          ∧ ∀ s,
              (satisfies s c →
                 ∃ a b y, dict_get s (x_name j i) = Some a
                   ∧ dict_get s (x_name k i) = Some b
                   ∧ dict_get s (y_name j k i) = Some y)
              ∧ ∀ a b y,
                  dict_get s (x_name j i) = Some a →
                  dict_get s (x_name k i) = Some b →
                  dict_get s (y_name j k i) = Some y →
                  y = 0 ∨ y = 1 →
                  satisfies s c ↔
                  (y = 1 ∧ a + duration task_j ≤ b)
                  ∨ (y = 0 ∧ b + duration task_k ≤ a).
Proof.
  intros Hj Hr Hs Hm. exists (overlap_constraints model_data). split.
  - apply add_quadratic_overlap_constraint_emits; [done|].
    by apply overlap_constraints_fresh.
  - intros j k i tj tk Hjin Hkin Hlt Hi Htj Htk Hpj Hpk.
    exists (overlap model_data j k i tj tk).2. split.
    + apply overlap_constraints_elem_of.
      by exists j, k, i, tj, tk.
    + intros s. split; [apply satisfies_overlap_values|].
      intros a b y Ha Hb Hy Hbin.
      rewrite (satisfies_overlap _ _ _ _ _ _ _ a b y) by done.
      destruct Hbin as [-> | ->]; lia.
Qed.

Lemma overlap_constraint_orders_witness :
  ∃ added,
    add_quadratic_overlap_constraint
      (with_cqm (define_variables (init two_by_two) two_by_two) new_cqm)
      two_by_two
    = Ok (with_cqm (define_variables (init two_by_two) two_by_two)
            (extend new_cqm added))
    ∧ ∃ c, (overlap_label 0 1 1, c) ∈ added
        ∧ ∀ s a b y,
            dict_get s (x_name 0 1) = Some a →
            dict_get s (x_name 1 1) = Some b →
            dict_get s (y_name 0 1 1) = Some y →
            y = 0 ∨ y = 1 →
            satisfies s c ↔ (y = 1 ∧ a + 3 ≤ b) ∨ (y = 0 ∧ b + 1 ≤ a).
Proof.
  destruct (overlap_constraint_orders (init two_by_two) two_by_two new_cqm)
    as (added & Hrun & Hadded).
  - by apply (bool_decide_unpack _); vm_compute.
  - by apply (bool_decide_unpack _); vm_compute.
  - by apply (bool_decide_unpack _); vm_compute.
  - intros j k i Hin. inversion Hin.
  - exists added. split; [done|].
    destruct (Hadded 0 1 1 {| resource := 1; duration := 3 |}
                {| resource := 1; duration := 1 |})
      as (c & Hc & Hsem);
      try (by apply (bool_decide_unpack _); vm_compute);
      try (by vm_compute).
    exists c. split; [done|]. intros s. apply (Hsem s).
Defined.

(** X4: the two constraints the disjunctive policy adds for the tasks of
    jobs j < k on resource i say, with a 0/1 indicator: indicator 1, the task
    of j ends before the task of k starts; indicator 0, the reverse; and in
    both cases the other constraint asks only that the two tasks lie within
    V of each other, which holds when both run between 0 and V. *)
Theorem disjunctive_pair_orders self model_data m :
  NoDup (jobs model_data) → NoDup (resources model_data) →
  all_shared model_data →
  (∀ j k i, (disjunction1_label j k i ∉ labels m)
            ∧ (disjunction2_label j k i ∉ labels m)) →
  let V := get_max_makespan model_data in
  ∃ added,
    add_disjunctive_constraints
      (with_cqm (define_variables self model_data) m) model_data
    = Ok (with_cqm (define_variables self model_data) (extend m added))
    ∧ ∀ j k i task_j task_k,
        j ∈ jobs model_data → k ∈ jobs model_data → j < k →
        i ∈ resources model_data →
        task_on model_data j i = Some task_j →
        task_on model_data k i = Some task_k →
        ∃ c1 c2,
          (disjunction1_label j k i, c1) ∈ added
          ∧ (disjunction2_label j k i, c2) ∈ added
          ∧ ∀ s a b y,
              dict_get s (x_name j i) = Some a →
              dict_get s (x_name k i) = Some b →
              dict_get s (y_name j k i) = Some y →
              y = 0 ∨ y = 1 →
              (satisfies s c1 ∧ satisfies s c2 ↔
               (y = 1 ∧ a + duration task_j ≤ b
                ∧ b + duration task_k ≤ a + V)
               ∨ (y = 0 ∧ b + duration task_k ≤ a
                  ∧ a + duration task_j ≤ b + V))
              ∧ (0 ≤ a → 0 ≤ b →
                 a + duration task_j ≤ V → b + duration task_k ≤ V →
                 satisfies s c1 ∧ satisfies s c2 ↔
                 (y = 1 ∧ a + duration task_j ≤ b)
                 ∨ (y = 0 ∧ b + duration task_k ≤ a)).
Proof.
  intros Hj Hr Hs Hm V. exists (disjunctive_constraints model_data). split.
  - apply add_disjunctive_constraints_emits; [done|].
    by apply disjunctive_constraints_fresh.
  - intros j k i tj tk Hjin Hkin Hlt Hi Htj Htk.
    exists (disjunction1 model_data j k i tk).2,
      (disjunction2 model_data j k i tj).2.
    split_and!.
    + apply disjunctive_constraints_elem_of.
      exists j, k, i, tj, tk. split_and!; auto.
    + apply disjunctive_constraints_elem_of.
      exists j, k, i, tj, tk. split_and!; auto.
    + intros s a b y Ha Hb Hy Hbin.
      destruct (satisfies_disjunction model_data s j k i tj tk a b y)
        as [H1 H2]; [done..|].
      rewrite H1, H2. unfold V, get_max_makespan.
      destruct Hbin as [-> | ->]; split; lia.
Qed.

Lemma disjunctive_pair_orders_witness :
  ∃ added,
    add_disjunctive_constraints
      (with_cqm (define_variables (init two_by_two) two_by_two) new_cqm)
      two_by_two
    = Ok (with_cqm (define_variables (init two_by_two) two_by_two)
            (extend new_cqm added))
    ∧ ∃ c1 c2,
        (disjunction1_label 0 1 1, c1) ∈ added
        ∧ (disjunction2_label 0 1 1, c2) ∈ added
        ∧ ∀ s a b y,
            dict_get s (x_name 0 1) = Some a →
            dict_get s (x_name 1 1) = Some b →
            dict_get s (y_name 0 1 1) = Some y →
            y = 0 ∨ y = 1 →
            0 ≤ a → 0 ≤ b → a + 3 ≤ 10 → b + 1 ≤ 10 →
            satisfies s c1 ∧ satisfies s c2 ↔
            (y = 1 ∧ a + 3 ≤ b) ∨ (y = 0 ∧ b + 1 ≤ a).
Proof.
  destruct (disjunctive_pair_orders (init two_by_two) two_by_two new_cqm)
    as (added & Hrun & Hadded).
  - by apply (bool_decide_unpack _); vm_compute.
  - by apply (bool_decide_unpack _); vm_compute.
  - by apply (bool_decide_unpack _); vm_compute.
  - intros j k i. split; intros Hin; inversion Hin.
  - exists added. split; [done|].
    destruct (Hadded 0 1 1 {| resource := 1; duration := 3 |}
                {| resource := 1; duration := 1 |})
      as (c1 & c2 & Hc1 & Hc2 & Hsem);
      try (by apply (bool_decide_unpack _); vm_compute);
      try (by vm_compute).
    exists c1, c2. split; [done|]. split; [done|].
    intros s a b y Ha Hb Hy Hbin. by apply (Hsem s a b y).
Defined.

(** ** What a feasible sample of the built model is *)

Lemma satisfies_precedence_values model_data s job prev curr :
  satisfies s (precedence_constraint model_data job prev curr).2 →
  ∃ a b, dict_get s (x_name job (resource curr)) = Some a
    ∧ dict_get s (x_name job (resource prev)) = Some b
    ∧ b + duration prev ≤ a.
Proof.
  intros Hsat. pose proof Hsat as (v & Hv & _). simpl in Hv.
  destruct (dict_get s (x_name job (resource curr))) as [a|] eqn:Ha; [|done].
  destruct (dict_get s (x_name job (resource prev))) as [b|] eqn:Hb; [|done].
  exists a, b. split_and!; [done..|].
  apply (satisfies_precedence model_data s job prev curr a b) in Hsat;
    [lia|done..].
Qed.

Lemma satisfies_makespan_values model_data s job t :
  satisfies s (makespan_constraint model_data job t).2 →
  ∃ a ms, dict_get s (x_name job (resource t)) = Some a
    ∧ dict_get s "makespan" = Some ms
    ∧ a + duration t ≤ ms.
Proof.
  intros Hsat. pose proof Hsat as (v & Hv & _). simpl in Hv.
  destruct (dict_get s "makespan") as [ms|] eqn:Hms; [|done].
  destruct (dict_get s (x_name job (resource t))) as [a|] eqn:Ha; [|done].
  exists a, ms. split_and!; [done..|].
  apply (satisfies_makespan model_data s job t ms a) in Hsat; [lia|done..].
Qed.

Lemma build_model_feasible job_data allow :
  NoDup (jobs job_data) → NoDup (resources job_data) →
  sequenced job_data → all_shared job_data → terminated job_data →
  ∃ model m,
    build_model job_data allow = Ok model ∧ cqm model = Some m
    ∧ ∀ s, feasible s m ↔
        (∀ lc, lc ∈ precedence_constraints job_data → satisfies s lc.2)
        ∧ (∀ lc, lc ∈ (if allow then overlap_constraints job_data
                       else disjunctive_constraints job_data) →
                 satisfies s lc.2)
        ∧ (∀ lc, lc ∈ makespan_constraints job_data → satisfies s lc.2).
Proof.
  intros Hj Hr Hseq Hsh Hterm.
  eexists _, _. split; [by apply build_model_constraints|].
  split; [reflexivity|]. intros s. unfold feasible. cbn [constraints]. split.
  - intros Hall. split_and!; intros lc Hlc; apply Hall;
      rewrite !elem_of_app; auto.
  - intros (Hp & He & Hm) lc. rewrite !elem_of_app. intros [?|[?|?]]; auto.
Qed.

(** What the exclusivity constraints of either policy say together about the
    two tasks of a triple. *)
Lemma exclusivity_orders job_data (allow : bool) s j k i task_j task_k :
  (∀ lc, lc ∈ (if allow then overlap_constraints job_data
               else disjunctive_constraints job_data) →
         satisfies s lc.2) →
  j ∈ jobs job_data → k ∈ jobs job_data → j < k →
  i ∈ resources job_data →
  task_on job_data j i = Some task_j →
  task_on job_data k i = Some task_k →
  (allow = true → 0 < duration task_j ∧ 0 < duration task_k) →
  ∃ a b y,
    dict_get s (x_name j i) = Some a
    ∧ dict_get s (x_name k i) = Some b
    ∧ dict_get s (y_name j k i) = Some y
    ∧ (y = 0 ∨ y = 1 →
       a + duration task_j ≤ b ∨ b + duration task_k ≤ a).
Proof.
  intros Hexcl Hjin Hkin Hlt Hi Htj Htk Hpos.
  destruct allow.
  - destruct Hpos as [Hpj Hpk]; [done|].
    assert (satisfies s (overlap job_data j k i task_j task_k).2) as Hsat.
    { apply Hexcl, overlap_constraints_elem_of.
      by exists j, k, i, task_j, task_k. }
    destruct (satisfies_overlap_values _ _ _ _ _ _ _ Hsat)
      as (a & b & y & Ha & Hb & Hy).
    exists a, b, y. split_and!; [done..|]. intros Hbin.
    apply (satisfies_overlap _ _ _ _ _ _ _ a b y) in Hsat; [|done..].
    destruct Hbin as [-> | ->]; lia.
  - assert (satisfies s (disjunction1 job_data j k i task_k).2) as Hsat1.
    { apply Hexcl, disjunctive_constraints_elem_of.
      exists j, k, i, task_j, task_k. split_and!; auto. }
    assert (satisfies s (disjunction2 job_data j k i task_j).2) as Hsat2.
    { apply Hexcl, disjunctive_constraints_elem_of.
      exists j, k, i, task_j, task_k. split_and!; auto. }
    destruct (satisfies_disjunction_values _ _ _ _ _ _ Hsat1)
      as (a & b & y & Ha & Hb & Hy).
    exists a, b, y. split_and!; [done..|]. intros Hbin.
    destruct (satisfies_disjunction job_data s j k i task_j task_k a b y)
      as [H1 H2]; [done..|].
    apply H1 in Hsat1. apply H2 in Hsat2.
    destruct Hbin as [-> | ->]; lia.
Qed.

(** X5: in a sample that is feasible for the model the entry point builds,
    and gives the indicators the value 0 or 1, the tasks of two jobs on a
    resource do not overlap: one ends before the other starts.  Under the
    bilinear policy this holds for the pairs of tasks of positive duration,
    the only ones that policy constrains. *)
Theorem feasible_no_overlap job_data allow :
  NoDup (jobs job_data) → NoDup (resources job_data) →
  sequenced job_data → all_shared job_data → terminated job_data →
  ∃ model m,
    build_model job_data allow = Ok model ∧ cqm model = Some m
    ∧ ∀ s j k i task_j task_k,
        feasible s m →
        j ∈ jobs job_data → k ∈ jobs job_data → j < k →
        i ∈ resources job_data →
        task_on job_data j i = Some task_j →
        task_on job_data k i = Some task_k →
        (allow = true → 0 < duration task_j ∧ 0 < duration task_k) →
        ∃ a b y,
          dict_get s (x_name j i) = Some a
          ∧ dict_get s (x_name k i) = Some b
          ∧ dict_get s (y_name j k i) = Some y
          ∧ (y = 0 ∨ y = 1 →
             a + duration task_j ≤ b ∨ b + duration task_k ≤ a).
Proof.
  intros Hj Hr Hseq Hsh Hterm.
  destruct (build_model_feasible job_data allow)
    as (model & m & Hrun & Hm & Hfeasible); [done..|].
  exists model, m. split; [done|]. split; [done|].
  intros s j k i tj tk Hfeas Hjin Hkin Hlt Hi Htj Htk Hpos.
  apply Hfeasible in Hfeas as (_ & Hexcl & _).
  by apply (exclusivity_orders job_data allow).
Qed.

Lemma feasible_no_overlap_witness :
  ∃ model m,
    build_model two_by_two false = Ok model ∧ cqm model = Some m
    ∧ feasible schedule_6 m
    ∧ ∃ a b y,
        dict_get schedule_6 (x_name 0 1) = Some a
        ∧ dict_get schedule_6 (x_name 1 1) = Some b
        ∧ dict_get schedule_6 (y_name 0 1 1) = Some y
        ∧ (y = 0 ∨ y = 1 → a + 3 ≤ b ∨ b + 1 ≤ a).
Proof.
  destruct (feasible_no_overlap two_by_two false)
    as (model & m & Hrun & Hm & Hsched).
  - by apply (bool_decide_unpack _); vm_compute.
  - by apply (bool_decide_unpack _); vm_compute.
  - by apply (bool_decide_unpack _); vm_compute.
  - by apply (bool_decide_unpack _); vm_compute.
  - by apply (bool_decide_unpack _); vm_compute.
  - destruct (schedule_6_feasible model Hrun) as (m' & Hm' & Hfeas & _).
    rewrite Hm in Hm'. injection Hm' as <-.
    exists model, m. split; [done|]. split; [done|]. split; [done|].
    apply (Hsched schedule_6 0 1 1 {| resource := 1; duration := 3 |}
             {| resource := 1; duration := 1 |});
      try done;
      try (by apply (bool_decide_unpack _); vm_compute).
Defined.

Lemma consecutive_drop {A} (l : list A) n prev curr :
  (prev, curr) ∈ consecutive (drop n l) → (prev, curr) ∈ consecutive l.
Proof.
  rewrite !consecutive_lookup. intros (m & Hp & Hc).
  rewrite lookup_drop in Hp, Hc. exists (n + m)%nat.
  split; [done|]. by replace (S (n + m)) with (n + S m)%nat by lia.
Qed.

Lemma last_drop {A} (l : list A) n :
  (n < length l)%nat → last (drop n l) = last l.
Proof.
  intros Hn. rewrite !last_lookup, lookup_drop, length_drop. f_equal. lia.
Qed.

(** Along the task sequence of a job: from the start of a task, the rest of
    the sequence fits before the makespan. *)
Lemma chain_from_head model_data s job t r :
  (∀ prev curr, (prev, curr) ∈ consecutive (t :: r) →
     satisfies s (precedence_constraint model_data job prev curr).2) →
  (∀ t', last (t :: r) = Some t' →
     satisfies s (makespan_constraint model_data job t').2) →
  ∃ a ms, dict_get s (x_name job (resource t)) = Some a
    ∧ dict_get s "makespan" = Some ms
    ∧ a + total_duration (t :: r) ≤ ms.
Proof.
  revert t. induction r as [|t1 r IH]; intros t Hprec Hlast.
  - destruct (satisfies_makespan_values model_data s job t)
      as (a & ms & Ha & Hms & Hle); [by apply Hlast|].
    exists a, ms. split_and!; [done..|]. simpl. lia.
  - destruct (IH t1) as (a1 & ms & Ha1 & Hms & Hle1).
    { intros prev curr Hin. apply Hprec.
      change (consecutive (t :: t1 :: r))
        with ((t, t1) :: consecutive (t1 :: r)). by right. }
    { intros t' Ht'. apply Hlast. by rewrite last_cons_cons. }
    destruct (satisfies_precedence_values model_data s job t t1)
      as (a1' & a & Ha1' & Ha & Hle).
    { apply Hprec. left. }
    rewrite Ha1 in Ha1'. injection Ha1' as <-.
    exists a, ms. split_and!; [done..|].
    change (total_duration (t :: t1 :: r))
      with (duration t + total_duration (t1 :: r)). lia.
Qed.

(** From the start of the n-th task of a job on, the rest of its sequence
    fits before the makespan. *)
Lemma chain_from_task model_data s job (n : nat) t :
  (∀ prev curr, (prev, curr) ∈ consecutive (tasks_of model_data job) →
     satisfies s (precedence_constraint model_data job prev curr).2) →
  (∀ t', last (tasks_of model_data job) = Some t' →
     satisfies s (makespan_constraint model_data job t').2) →
  tasks_of model_data job !! n = Some t →
  ∃ a ms, dict_get s (x_name job (resource t)) = Some a
    ∧ dict_get s "makespan" = Some ms
    ∧ a + total_duration (drop n (tasks_of model_data job)) ≤ ms.
Proof.
  intros Hpairs Hmake Ht.
  destruct (drop n (tasks_of model_data job)) as [|t0 r] eqn:Hdrop.
  { apply (f_equal length) in Hdrop. rewrite length_drop in Hdrop.
    apply lookup_lt_Some in Ht. simpl in Hdrop. lia. }
  assert (t0 = t) as ->.
  { apply (f_equal head) in Hdrop. rewrite head_lookup, lookup_drop in Hdrop.
    rewrite Nat.add_0_r, Ht in Hdrop. by injection Hdrop. }
  apply (chain_from_head model_data).
  - intros prev curr Hin. rewrite <- Hdrop in Hin.
    apply consecutive_drop in Hin. by apply Hpairs.
  - intros t' Hlast. rewrite <- Hdrop, last_drop in Hlast
      by (by eapply lookup_lt_Some).
    by apply Hmake.
Qed.

(** X6: in a sample that is feasible for the model the entry point builds,
    every task of a job starts after the task before it has ended, and from
    the start of any task the remaining tasks of the job, run back to back,
    end by the makespan: the makespan is at least the start of the task plus
    the durations of that task and of all the later ones. *)
Theorem feasible_job_chain job_data allow :
  NoDup (jobs job_data) → NoDup (resources job_data) →
  sequenced job_data → all_shared job_data → terminated job_data →
  ∃ model m,
    build_model job_data allow = Ok model ∧ cqm model = Some m
    ∧ ∀ s job, feasible s m → job ∈ jobs job_data →
        (∀ (n : nat) prev curr,
           tasks_of job_data job !! n = Some prev →
           tasks_of job_data job !! S n = Some curr →
           ∃ a b, dict_get s (x_name job (resource prev)) = Some a
             ∧ dict_get s (x_name job (resource curr)) = Some b
             ∧ a + duration prev ≤ b)
        ∧ (∀ (n : nat) t,
             tasks_of job_data job !! n = Some t →
             ∃ a ms, dict_get s (x_name job (resource t)) = Some a
               ∧ dict_get s "makespan" = Some ms
               ∧ a + total_duration (drop n (tasks_of job_data job)) ≤ ms).
Proof.
  intros Hj Hr Hseq Hsh Hterm.
  destruct (build_model_feasible job_data allow)
    as (model & m & Hrun & Hm & Hfeasible); [done..|].
  exists model, m. split; [done|]. split; [done|].
  intros s job Hfeas Hjob. apply Hfeasible in Hfeas as (Hprec & _ & Hmake).
  assert (∀ prev curr, (prev, curr) ∈ consecutive (tasks_of job_data job) →
            satisfies s (precedence_constraint job_data job prev curr).2)
    as Hpairs.
  { intros prev curr Hin.
    apply (Hprec (precedence_constraint job_data job prev curr)).
    apply precedence_constraints_elem_of. by exists job, prev, curr. }
  split.
  - intros n prev curr Hp Hc.
    destruct (satisfies_precedence_values job_data s job prev curr)
      as (b & a & Hb & Ha & Hle).
    { apply Hpairs, consecutive_lookup. by exists n. }
    by exists a, b.
  - intros n t Ht. apply chain_from_task; [done| |done].
    intros t' Hlast.
    apply (Hmake (makespan_constraint job_data job t')).
    apply makespan_constraints_elem_of. by exists job, t'.
Qed.

Lemma feasible_job_chain_witness :
  ∃ model m,
    build_model two_by_two false = Ok model ∧ cqm model = Some m
    ∧ feasible schedule_6 m
    ∧ ∃ a ms, dict_get schedule_6 (x_name 0 1) = Some a
        ∧ dict_get schedule_6 "makespan" = Some ms
        ∧ a + total_duration (drop 0 (tasks_of two_by_two 0)) ≤ ms.
Proof.
  destruct (feasible_job_chain two_by_two false)
    as (model & m & Hrun & Hm & Hchain).
  - by apply (bool_decide_unpack _); vm_compute.
  - by apply (bool_decide_unpack _); vm_compute.
  - by apply (bool_decide_unpack _); vm_compute.
  - by apply (bool_decide_unpack _); vm_compute.
  - by apply (bool_decide_unpack _); vm_compute.
  - destruct (schedule_6_feasible model Hrun) as (m' & Hm' & Hfeas & _).
    rewrite Hm in Hm'. injection Hm' as <-.
    exists model, m. split; [done|]. split; [done|]. split; [done|].
    destruct (Hchain schedule_6 0 Hfeas) as [_ Hbound].
    + by apply (bool_decide_unpack _); vm_compute.
    + apply (Hbound 0%nat {| resource := 1; duration := 3 |}). reflexivity.
Defined.

(** ** The entry point outside the script *)

(** X7: the entry point reads the global [start_time], which only the
    script's main block defines.  Where it is not defined (the module is
    imported), every call that passes the configuration check raises
    [NameError] after one reading of the clock: no model is built and no
    solver is called. *)
Theorem run_shop_scheduler_needs_start_time env job_data max_time
    use_mip_solver verbose allow_quadratic_constraints w :
  start_time env = None →
  allow_quadratic_constraints && use_mip_solver = false →
  run_shop_scheduler env job_data max_time use_mip_solver verbose
    allow_quadratic_constraints w
  = (Raise (NameError "start_time"),
     {| trace := trace w; ticks := S (ticks w) |}).
Proof.
  intros Hstart Hconfig. unfold run_shop_scheduler. rewrite Hconfig.
  unfold eff_bind, time, lift. by rewrite Hstart.
Qed.

Lemma run_shop_scheduler_needs_start_time_witness :
  run_shop_scheduler
    {| leap_sample_cqm := λ _ _, Ok optimal_answer;
       mip_sample_cqm := λ _ _, Ok optimal_answer;
       clock := Z.of_nat;
       start_time := None |}
    two_by_two None false true false quiet
  = (Raise (NameError "start_time"),
     {| trace := trace quiet; ticks := S (ticks quiet) |}).
Proof.
  apply (run_shop_scheduler_needs_start_time
           {| leap_sample_cqm := λ _ _, Ok optimal_answer;
              mip_sample_cqm := λ _ _, Ok optimal_answer;
              clock := Z.of_nat;
              start_time := None |}
           two_by_two None false true false quiet); reflexivity.
Defined.

(** ** What the hybrid solver call returns, whenever it returns *)

Lemma for_each_dict_set_inv {K V} `{EqDecision K} (l : list K)
    (f : K → result (K * V)) (acc acc' : list (K * V)) :
  (∀ k e, f k = Ok e → e.1 = k) →
  for_each l (λ k sol, e ← f k; Ok (dict_set sol e.1 e.2)) acc = Ok acc' →
  (∀ k, k ∈ l → ∃ v, f k = Ok (k, v) ∧ dict_get acc' k = Some v)
  ∧ (∀ k, k ∉ l → dict_get acc' k = dict_get acc k).
Proof.
  intros Hkey. revert acc. induction l as [|k0 l IH]; intros acc; simpl.
  - intros [= <-]. split; [by intros k ?%elem_of_nil | done].
  - destruct (f k0) as [[k0' v0]|] eqn:Hf; simpl; [|done].
    apply Hkey in Hf as Hk. simpl in Hk. subst k0'.
    intros [Hin Hout]%IH. split.
    + intros k [->|Hk]%elem_of_cons; [|by apply Hin].
      destruct (decide (k0 ∈ l)) as [Hl|Hl]; [by apply Hin|].
      exists v0. split; [done|].
      by rewrite Hout, dict_get_set, decide_True.
    + intros k [Hne Hk]%not_elem_of_cons.
      by rewrite Hout, dict_get_set, decide_False.
Qed.

Lemma extract_entry_inv self model_data s j i e :
  extract_entry self model_data s j i = Ok e →
  ∃ task start,
    task_on model_data j i = Some task
    ∧ e = ((j, i), (task, start, duration task)).
Proof.
  unfold extract_entry, get_resource_job_tasks, task_on. intros Hrun.
  destruct (resource_job_tasks model_data !! (j, i)) as [task|]; [|done].
  simpl in Hrun. bind_inv. injection Hrun as <-. by eexists _, _.
Qed.

(** A call that returns has gone through every step: the sampler answered,
    the sample set shown had a first record, the solution table was filled
    from it and the makespan read off it. *)
Lemma call_cqm_solver_inv env self time_limit model_data w self' w' :
  call_cqm_solver env self time_limit model_data w = (Ok self', w') →
  ∃ m raw best sol t,
    cqm self = Some m
    ∧ leap_sample_cqm env m time_limit = Ok raw
    ∧ best ∈ raw
    ∧ (is_feasible best = true ∨ ∀ d, d ∈ raw → is_feasible d = false)
    ∧ for_each (all_pairs model_data)
        (λ ji sol,
           entry ← extract_entry self model_data (d_sample best) ji.1 ji.2;
           Ok (dict_set sol entry.1 entry.2)) [] = Ok sol
    ∧ dict_get (d_sample best) "makespan" = Some t
    ∧ self' = with_result self (d_sample best) sol t
    ∧ ticks w' = ticks w.
Proof.
  unfold call_cqm_solver, eff_bind, lift, emit, eff_ret.
  destruct (cqm self) as [m|] eqn:Hm; [|done]. cbn [of_option trace ticks].
  destruct (leap_sample_cqm env m time_limit) as [raw|] eqn:Hleap; [|done].
  set (shown := if decide (0 < length (filter_feasible raw))%nat
                then truncate (10 `min` length (filter_feasible raw))
                       (filter_feasible raw)
                else truncate 10 raw).
  assert (∀ best, first shown = Ok best →
            best ∈ raw
            ∧ (is_feasible best = true
               ∨ ∀ d, d ∈ raw → is_feasible d = false)) as Hshown.
  { intros best Hin%first_elem_of. unfold shown in Hin.
    case_decide as Hpos.
    - apply truncate_elem_of, filter_feasible_elem_of in Hin as [??]. auto.
    - apply truncate_elem_of in Hin. split; [done|]. right.
      intros d Hd. destruct (is_feasible d) eqn:Hfd; [|done].
      assert (d ∈ filter_feasible raw) as Hdf
        by by apply filter_feasible_elem_of.
      destruct (filter_feasible raw); [by apply elem_of_nil in Hdf|].
      simpl in Hpos. lia. }
  intros Hrun.
  assert (∃ best sol t wt,
    first shown = Ok best
    ∧ for_each (resources model_data ≫= λ i, jobs model_data ≫= λ j, [(j, i)])
        (λ ji sol,
           entry ← extract_entry self model_data (d_sample best) ji.1 ji.2;
           Ok (dict_set sol entry.1 entry.2)) [] = Ok sol
    ∧ dict_get (d_sample best) "makespan" = Some t
    ∧ self' = with_result self (d_sample best) sol t
    ∧ w' = {| trace := wt; ticks := ticks w |})
    as (best & sol & t & wt & Hfirst & Hsol & Ht & -> & ->).
  { clear Hshown. revert Hrun. fold shown.
    set (tr := if decide (0 < length (filter_feasible raw))%nat
               then (trace w ++ [SampleCQM m time_limit])%list
               else ((trace w ++ [SampleCQM m time_limit])
                     ++ [Warn "Warning: Did not find feasible solution"])%list).
    intros Hrun.
    assert (match first shown with
            | Ok best =>
                match for_each
                  (resources model_data ≫= λ i, jobs model_data ≫= λ j, [(j, i)])
                  (λ ji sol,
                     entry ← extract_entry self model_data (d_sample best)
                               ji.1 ji.2;
                     Ok (dict_set sol entry.1 entry.2)) [] with
                | Ok sol =>
                    match dict_get (d_sample best) "makespan" with
                    | Some t =>
                        (Ok (with_result self (d_sample best) sol t),
                         {| trace := (tr ++ [Print (banner 30 "BEST SAMPLE SET")])
                                     ++ [PrintSampleSet shown];
                            ticks := ticks w |})
                    | None => (Raise KeyError, w')
                    end
                | Raise e => (Raise e, w')
                end
            | Raise e => (Raise e, w')
            end = (Ok self', w')) as Hrun'.
    { rewrite <- Hrun. unfold shown, tr.
      case_decide; cbn [trace ticks];
        (destruct (first _) as [best|]; [|done]); cbn [trace ticks];
        (destruct (for_each _ _ _) as [sol|]; [|done]);
        by destruct (dict_get (d_sample best) "makespan"). }
    clear Hrun. destruct (first shown) as [best|]; [|done].
    destruct (for_each _ _ _) as [sol|] eqn:Hsol; [|done].
    destruct (dict_get (d_sample best) "makespan") as [t|] eqn:Ht; [|done].
    injection Hrun' as <- <-. by eexists best, sol, t, _. }
  destruct (Hshown best Hfirst) as [Hin Hfeas].
  by exists m, raw, best, sol, t.
Qed.

(** X8: whenever [call_cqm_solver] returns, the best sample is one of the
    samples the solver answered, a feasible one if any is feasible; the
    completion time is the value that sample gives the makespan; the solution
    table has, for every job and resource, the task of that pair with its
    duration, and no other key; the model and the variables are as before
    and the clock was not read. *)
Theorem call_cqm_solver_returns env self time_limit model_data w self' w' :
  call_cqm_solver env self time_limit model_data w = (Ok self', w') →
  ∃ m raw best,
    cqm self = Some m
    ∧ leap_sample_cqm env m time_limit = Ok raw
    ∧ best ∈ raw
    ∧ (is_feasible best = true ∨ ∀ d, d ∈ raw → is_feasible d = false)
    ∧ best_sample self' = d_sample best
    ∧ dict_get (d_sample best) "makespan" = Some (completion_time self')
    ∧ (∀ j i, j ∈ jobs model_data → i ∈ resources model_data →
         ∃ task start,
           task_on model_data j i = Some task
           ∧ dict_get (solution self') (j, i)
             = Some (task, start, duration task))
    ∧ (∀ j i e, dict_get (solution self') (j, i) = Some e →
         j ∈ jobs model_data ∧ i ∈ resources model_data)
    ∧ cqm self' = cqm self ∧ x self' = x self ∧ y self' = y self
    ∧ ticks w' = ticks w.
Proof.
  intros (m & raw & best & sol & t & Hm & Hleap & Hin & Hfeas & Hsol & Ht
          & -> & Hticks)%call_cqm_solver_inv.
  apply (for_each_dict_set_inv _
           (λ ji, extract_entry self model_data (d_sample best) ji.1 ji.2))
    in Hsol as [Hkeys Hother].
  2:{ intros [j i] e (task & start & _ & ->)%extract_entry_inv. done. }
  exists m, raw, best. split_and!; try done.
  - intros j i Hj Hi. destruct (Hkeys (j, i)) as (v & Hv & Hget).
    { by apply all_pairs_elem_of. }
    apply extract_entry_inv in Hv as (task & start & Htask & [= ->]).
    by exists task, start.
  - intros j i e Hget. apply all_pairs_elem_of.
    destruct (decide ((j, i) ∈ all_pairs model_data)) as [|Hout]; [done|].
    cbn [solution with_result] in Hget. by rewrite (Hother _ Hout) in Hget.
Qed.

Lemma call_cqm_solver_returns_witness :
  ∃ self' w' m raw best,
    call_cqm_solver (answering infeasible_answer)
      (with_cqm (define_variables (init two_by_two) two_by_two) new_cqm)
      (Some 5) two_by_two quiet = (Ok self', w')
    ∧ leap_sample_cqm (answering infeasible_answer) m (Some 5) = Ok raw
    ∧ best ∈ raw
    ∧ best_sample self' = d_sample best
    ∧ dict_get (d_sample best) "makespan" = Some (completion_time self').
Proof.
  destruct (call_cqm_solver (answering infeasible_answer)
      (with_cqm (define_variables (init two_by_two) two_by_two) new_cqm)
      (Some 5) two_by_two quiet) as [[self'|e] w'] eqn:Hrun.
  - destruct (call_cqm_solver_returns _ _ _ _ _ _ _ Hrun)
      as (m & raw & best & _ & Hleap & Hin & _ & Hbest & Hms & _).
    by exists self', w', m, raw, best.
  - vm_compute in Hrun. discriminate Hrun.
Defined.

(** ** The solver calls of the entry point *)

Lemma solver_calls_app tr1 tr2 :
  solver_calls (tr1 ++ tr2) = (solver_calls tr1 ++ solver_calls tr2)%list.
Proof. apply List.filter_app. Qed.

Lemma solver_calls_snoc tr e :
  solver_calls (tr ++ [e])
  = (solver_calls tr ++ (if is_solver_call e then [e] else []))%list.
Proof. rewrite solver_calls_app. simpl. by destruct (is_solver_call e). Qed.

Ltac count_calls :=
  cbn [of_option snd trace ticks];
  rewrite ?solver_calls_snoc; cbn [is_solver_call]; rewrite ?app_nil_r;
  try done.

Lemma call_cqm_solver_calls env self time_limit model_data w m :
  cqm self = Some m →
  solver_calls (trace (call_cqm_solver env self time_limit model_data w).2)
  = (solver_calls (trace w) ++ [SampleCQM m time_limit])%list.
Proof.
  intros Hm. unfold call_cqm_solver, eff_bind, lift, emit, eff_ret.
  rewrite Hm. cbn [of_option trace ticks].
  destruct (leap_sample_cqm env m time_limit) as [raw|]; [|count_calls].
  case_decide; cbn [trace ticks];
    (destruct (first _) as [best|]; [|count_calls]);
    cbn [trace ticks];
    (destruct (for_each _ _ _) as [sol|]; [|count_calls]);
    destruct (dict_get (d_sample best) "makespan"); count_calls.
Qed.

Lemma call_mip_solver_calls env self time_limit w m :
  cqm self = Some m →
  solver_calls (trace (call_mip_solver env self time_limit w).2)
  = (solver_calls (trace w) ++ [SampleMIP m time_limit])%list.
Proof.
  intros Hm. unfold call_mip_solver, eff_bind, lift, emit, eff_ret.
  rewrite Hm. cbn [of_option trace ticks].
  destruct (mip_sample_cqm env m time_limit) as [sol|]; [|count_calls].
  destruct (first sol) as [best|]; [|count_calls].
  destruct (for_each _ _ _) as [table|]; count_calls.
Qed.

(** X9: once the global [start_time] is defined, the configuration is
    accepted and the model is built, a run calls a solver exactly once,
    whatever happens afterwards: the local solver with the time limit 100,
    whatever [max_time] the caller passed, or the hybrid solver with
    [max_time]; in both cases on the model that was built. *)
Theorem run_shop_scheduler_solver_call env job_data max_time use_mip_solver
    verbose allow_quadratic_constraints w t0 model :
  start_time env = Some t0 →
  allow_quadratic_constraints && use_mip_solver = false →
  build_model job_data allow_quadratic_constraints = Ok model →
  ∃ m,
    cqm model = Some m
    ∧ solver_calls
        (trace (run_shop_scheduler env job_data max_time use_mip_solver
                  verbose allow_quadratic_constraints w).2)
      = (solver_calls (trace w)
         ++ [if use_mip_solver then SampleMIP m 100
             else SampleCQM m max_time])%list.
Proof.
  intros Hstart Hconfig Hbuild.
  destruct (build_model_built_on _ _ _ Hbuild) as (m0 & Hmodel & _).
  exists (set_objective m0 (makespan_var job_data)).
  split; [by rewrite Hmodel|].
  unfold run_shop_scheduler. rewrite Hconfig.
  unfold eff_bind at 1. unfold time at 1.
  unfold eff_bind at 1. unfold lift at 1. rewrite Hstart. cbn [of_option].
  unfold eff_bind at 1. unfold lift at 1. rewrite Hbuild.
  unfold eff_bind at 1. unfold time at 1. cbn [trace ticks].
  set (w1 := {| trace := trace w; ticks := S (S (ticks w)) |}).
  change (trace w) with (trace w1).
  assert (cqm model = Some (set_objective m0 (makespan_var job_data)))
    as Hm by by rewrite Hmodel.
  clear Hmodel Hbuild. revert Hm.
  generalize (set_objective m0 (makespan_var job_data)).
  intros m Hm. unfold eff_bind at 1. destruct use_mip_solver.
  - pose proof (call_mip_solver_calls env model 100 w1 m Hm) as Hcall.
    unfold eff_bind at 1.
    destruct (call_mip_solver env model 100 w1) as [[[[] self']|e] w2];
      [|done].
    cbn [snd] in Hcall. unfold eff_ret at 1.
    unfold eff_bind, time, emit, eff_ret. cbn [trace ticks snd].
    destruct verbose; count_calls.
  - pose proof (call_cqm_solver_calls env model max_time job_data w1 m Hm)
      as Hcall.
    destruct (call_cqm_solver env model max_time job_data w1)
      as [[self'|e] w2]; [|done].
    cbn [snd] in Hcall.
    unfold eff_bind, time, emit, eff_ret. cbn [trace ticks snd].
    destruct verbose; count_calls.
Qed.

Lemma run_shop_scheduler_solver_call_witness :
  ∃ m,
    cqm (with_cqm (define_variables (init two_by_two) two_by_two)
           {| objective := makespan_var two_by_two;
              constraints :=
                precedence_constraints two_by_two
                ++ disjunctive_constraints two_by_two
                ++ makespan_constraints two_by_two |}) = Some m
    ∧ solver_calls
        (trace (run_shop_scheduler (answering infeasible_answer) two_by_two
                  (Some 5) true true false quiet).2)
      = (solver_calls (trace quiet) ++ [SampleMIP m 100])%list.
Proof.
  apply (run_shop_scheduler_solver_call (answering infeasible_answer)
           two_by_two (Some 5) true true false quiet 0); reflexivity.
Defined.

(** ** What the builder needs of the data *)

(** X10: a model is built only for data in which every job has a last task
    and, for every two jobs [j < k] and every resource, both jobs have a task
    on that resource: on any other data one of the loops raises, under
    either exclusivity policy. *)
Theorem build_model_needs_complete_data job_data
    allow_quadratic_constraints model :
  build_model job_data allow_quadratic_constraints = Ok model →
  (∀ j, j ∈ jobs job_data →
     ∃ tasks t, job_tasks job_data !! j = Some tasks ∧ last tasks = Some t)
  ∧ (∀ j k i, j ∈ jobs job_data → k ∈ jobs job_data → j < k →
       i ∈ resources job_data →
       is_Some (task_on job_data j i) ∧ is_Some (task_on job_data k i)).
Proof.
  unfold build_model. intros Hrun.
  destruct (add_precedence_constraints _ job_data) as [s1|]; [|done].
  simpl in Hrun.
  destruct (if allow_quadratic_constraints
            then add_quadratic_overlap_constraint s1 job_data
            else add_disjunctive_constraints s1 job_data)
    as [s2|] eqn:Hexcl; [|done].
  simpl in Hrun.
  destruct (add_makespan_constraint s2 job_data) as [s3|] eqn:Hms; [|done].
  clear Hrun. split.
  - intros j Hj. unfold add_makespan_constraint in Hms.
    eapply for_each_visits in Hms as (s4 & s5 & Hbody); [|exact Hj].
    destruct (job_tasks job_data !! j) as [tasks|]; [|done].
    simpl in Hbody. unfold py_last in Hbody.
    destruct (last tasks) as [t|] eqn:Hlast; [|done]. by exists tasks, t.
  - intros j k i Hj Hk Hlt Hi.
    apply exclusivity_needs_shared in Hexcl.
    unfold all_shared in Hexcl. rewrite Forall_forall in Hexcl.
    apply (Hexcl (j, k, i)). by apply pair_resources_elem_of.
Qed.

Lemma build_model_needs_complete_data_witness :
  (∀ j, j ∈ jobs two_by_two →
     ∃ tasks t, job_tasks two_by_two !! j = Some tasks ∧ last tasks = Some t)
  ∧ (∀ j k i, j ∈ jobs two_by_two → k ∈ jobs two_by_two → j < k →
       i ∈ resources two_by_two →
       is_Some (task_on two_by_two j i) ∧ is_Some (task_on two_by_two k i)).
Proof.
  apply (build_model_needs_complete_data two_by_two true
    (with_cqm (define_variables (init two_by_two) two_by_two)
       {| objective := makespan_var two_by_two;
          constraints :=
            precedence_constraints two_by_two
            ++ overlap_constraints two_by_two
            ++ makespan_constraints two_by_two |})).
  reflexivity.
Defined.

(** ** The schedule table a run through the hybrid solver returns *)

Lemma dict_set_elem_of {K V} `{EqDecision K} (d : list (K * V)) k v e :
  e ∈ dict_set d k v → e ∈ d ∨ e = (k, v).
Proof.
  induction d as [|[k0 v0] d IH]; simpl.
  - intros ->%list_elem_of_singleton. by right.
  - case_decide.
    + intros [->|Hin]%elem_of_cons; [by right|]. left. by right.
    + intros [->|Hin]%elem_of_cons; [left; left|].
      destruct (IH Hin) as [?|?]; [left; by right | by right].
Qed.


Lemma for_each_dict_set_entries {K V} `{EqDecision K} (l : list K)
    (f : K → result (K * V)) (acc acc' : list (K * V)) e :
  for_each l (λ k sol, e ← f k; Ok (dict_set sol e.1 e.2)) acc = Ok acc' →
  e ∈ acc' → e ∈ acc ∨ ∃ k, k ∈ l ∧ f k = Ok e.
Proof.
  revert acc. induction l as [|k0 l IH]; intros acc; simpl.
  - intros [= <-]. by left.
  - destruct (f k0) as [[k0' v0]|] eqn:Hf; simpl; [|done].
    intros Hrun He. destruct (IH _ Hrun He) as [Hin|(k & Hk & Hfk)].
    + apply dict_set_elem_of in Hin as [?| ->]; [by left|].
      right. exists k0. split; [left | done].
    + right. exists k. split; [by right | done].
Qed.



Lemma extract_entry_built self model_data m s j i e :
  extract_entry (with_cqm (define_variables self model_data) m)
    model_data s j i = Ok e →
  ∃ task start,
    j ∈ jobs model_data ∧ i ∈ resources model_data
    ∧ task_on model_data j i = Some task
    ∧ dict_get s (x_name j i) = Some start
    ∧ e = ((j, i), (task, start, duration task)).
Proof.
  pose proof (x_define_variables self model_data j i) as Hx.
  set (s0 := define_variables self model_data) in *. clearbody s0.
  unfold extract_entry, get_resource_job_tasks, task_on in *.
  destruct (resource_job_tasks model_data !! (j, i)) as [task|]; [|done].
  simpl. rewrite Hx. case_decide as Hin; [|done].
  simpl. unfold sample_at, variables. simpl.
  destruct (dict_get s (x_name j i)) as [start|]; [|done].
  simpl. intros [= <-]. destruct Hin. by exists task, start.
Qed.


(** The rows of the table filled from a sample by the model that was
    built. *)
Lemma dataframe_rows job_data allow model s sol t j task start finish i :
  build_model job_data allow = Ok model →
  for_each (all_pairs job_data)
    (λ ji sol,
       entry ← extract_entry model job_data s ji.1 ji.2;
       Ok (dict_set sol entry.1 entry.2)) [] = Ok sol →
  (j, task, start, finish, i)
    ∈ solution_as_dataframe (with_result model s sol t) →
  j ∈ jobs job_data ∧ i ∈ resources job_data
  ∧ task_on job_data j i = Some task
  ∧ dict_get s (x_name j i) = Some start
  ∧ finish = start + duration task.
Proof.
  intros Hbuild Hsol Hrow.
  unfold solution_as_dataframe in Hrow. cbn [solution with_result] in Hrow.
  apply list_elem_of_fmap in Hrow
    as ([[j' i'] [[task' start'] dur]] & [= -> -> -> -> ->] & Hentry).
  destruct (for_each_dict_set_entries _ _ _ _ _ Hsol Hentry)
    as [Hnil|(ji & _ & Hrun)]; [by apply elem_of_nil in Hnil|].
  apply build_model_built_on in Hbuild as (m0 & -> & _).
  apply extract_entry_built in Hrun
    as (task0 & start0 & ? & ? & Htask & Hstart & Heq).
  destruct ji as [j0 i0]. cbn [fst snd] in *.
  injection Heq as -> -> -> -> ->. done.
Qed.



(** The object the solver call returns does not depend on the world the
    call runs in. *)
Lemma call_cqm_solver_world env self time_limit model_data w1 w2 :
  (call_cqm_solver env self time_limit model_data w1).1
  = (call_cqm_solver env self time_limit model_data w2).1.
Proof.
  unfold call_cqm_solver, eff_bind, lift, emit, eff_ret.
  destruct (cqm self) as [m|]; [|done]. cbn [of_option trace ticks].
  destruct (leap_sample_cqm env m time_limit) as [raw|]; [|done].
  case_decide; cbn [trace ticks];
    (destruct (first _) as [best|]; [|done]); cbn [trace ticks];
    (destruct (for_each _ _ _) as [sol|]; [|done]);
    by destruct (dict_get (d_sample best) "makespan").
Qed.

(** A run through the hybrid solver returns the table of the object the
    solver call leaves, and a verbose run tabulates its completion time. *)
Lemma run_shop_scheduler_cqm_call env job_data max_time verbose
    allow_quadratic_constraints w df w' model self' w1 w2 :
  run_shop_scheduler env job_data max_time false verbose
    allow_quadratic_constraints w = (Ok df, w') →
  build_model job_data allow_quadratic_constraints = Ok model →
  call_cqm_solver env model max_time job_data w1 = (Ok self', w2) →
  df = solution_as_dataframe self'
  ∧ (verbose = true →
     ∃ building solving total,
       last (trace w')
       = Some (Tabulate (completion_time self') (get_max_makespan job_data)
                 building solving total)).
Proof.
  intros Hrun Hbuild Hcall. revert Hrun.
  unfold run_shop_scheduler. rewrite andb_false_r.
  unfold eff_bind at 1. unfold time at 1.
  unfold eff_bind at 1. unfold lift at 1.
  destruct (start_time env) as [t0|]; [|done]. cbn [of_option].
  unfold eff_bind at 1. unfold lift at 1. rewrite Hbuild.
  unfold eff_bind at 1. unfold time at 1. cbn [trace ticks].
  unfold eff_bind at 1.
  pose proof (call_cqm_solver_world env model max_time job_data w1
                {| trace := trace w; ticks := S (S (ticks w)) |}) as Hworld.
  rewrite Hcall in Hworld. cbn [fst] in Hworld.
  destruct (call_cqm_solver env model max_time job_data
              {| trace := trace w; ticks := S (S (ticks w)) |})
    as [[self''|] w3]; [|done].
  cbn [fst] in Hworld. injection Hworld as <-.
  unfold eff_bind, time, emit, eff_ret.
  destruct verbose; intros [= <- <-]; split; try done.
  intros _. cbn [trace]. eexists _, _, _. by rewrite last_snoc.
Qed.

(** X12: [self'] being the object the solver call leaves on the model the
    run has built: when the best sample it holds satisfies the constraints
    of the model and gives the indicators the value 0 or 1, the rows of two
    jobs on a resource in the table returned do not overlap: one finishes
    before the other starts.  Under the bilinear policy this is so for the
    rows of tasks of positive duration. *)
Theorem run_shop_scheduler_rows_disjoint env job_data max_time verbose
    allow_quadratic_constraints w df w' model m self' w1 w2 :
  NoDup (jobs job_data) → NoDup (resources job_data) →
  sequenced job_data → terminated job_data →
  run_shop_scheduler env job_data max_time false verbose
    allow_quadratic_constraints w = (Ok df, w') →
  build_model job_data allow_quadratic_constraints = Ok model →
  cqm model = Some m →
  call_cqm_solver env model max_time job_data w1 = (Ok self', w2) →
  feasible (best_sample self') m →
  (∀ j k i y, dict_get (best_sample self') (y_name j k i) = Some y →
              y = 0 ∨ y = 1) →
  ∀ j k i task_j task_k start_j finish_j start_k finish_k,
    (j, task_j, start_j, finish_j, i) ∈ df →
    (k, task_k, start_k, finish_k, i) ∈ df →
    j ≠ k →
    (allow_quadratic_constraints = true →
     0 < duration task_j ∧ 0 < duration task_k) →
    finish_j ≤ start_k ∨ finish_k ≤ start_j.
Proof.
  intros Hj Hr Hseq Hterm Hrun Hbuild Hm Hcall.
  destruct (run_shop_scheduler_cqm_call _ _ _ _ _ _ _ _ _ _ _ _
              Hrun Hbuild Hcall) as [-> _].
  apply call_cqm_solver_inv in Hcall
    as (m' & raw & best & sol & t & Hm' & Hleap & Hin & _ & Hsol & Ht & ->
        & _).
  cbn [best_sample with_result]. intros Hfeas Hbin.
  assert (all_shared job_data) as Hsh.
  { revert Hbuild. unfold build_model.
    destruct (add_precedence_constraints _ job_data) as [s1|]; [|done].
    simpl.
    destruct (if allow_quadratic_constraints
              then add_quadratic_overlap_constraint s1 job_data
              else add_disjunctive_constraints s1 job_data)
      as [s2|] eqn:Hexcl; [|done].
    intros _. by apply exclusivity_needs_shared in Hexcl. }
  destruct (build_model_feasible job_data allow_quadratic_constraints)
    as (model' & m0 & Hbuild' & Hm0 & Hfeasible); [done..|].
  rewrite Hbuild in Hbuild'. injection Hbuild' as <-.
  rewrite Hm in Hm0. injection Hm0 as <-.
  apply Hfeasible in Hfeas as (_ & Hexcl & _).
  pose proof (λ j task start finish i,
    dataframe_rows job_data allow_quadratic_constraints model
      (d_sample best) sol t j task start finish i Hbuild Hsol) as Hrows.
  intros j k i tj tk sj fj sk fk
    (Hjin & Hi & Htj & Hsj & ->)%Hrows (Hkin & _ & Htk & Hsk & ->)%Hrows
    Hne Hpos.
  destruct (decide (j < k)) as [Hlt|Hge].
  - destruct (exclusivity_orders job_data allow_quadratic_constraints
                (d_sample best) j k i tj tk)
      as (a & b & y & Ha & Hb & Hy & Hord); [done..|].
    rewrite Hsj in Ha. rewrite Hsk in Hb. simplify_eq.
    by apply Hord, (Hbin j k i).
  - destruct (exclusivity_orders job_data allow_quadratic_constraints
                (d_sample best) k j i tk tj)
      as (a & b & y & Ha & Hb & Hy & Hord);
      [done | done | done | lia | done | done | done | |].
    { intros Hallow. by destruct (Hpos Hallow). }
    rewrite Hsk in Ha. rewrite Hsj in Hb. simplify_eq.
    destruct (Hord (Hbin k j i y Hy)); auto.
Qed.

Lemma run_shop_scheduler_rows_disjoint_witness :
  ∃ df w' model m self' w2,
    run_shop_scheduler (answering mixed_answer) two_by_two None false true
      false quiet = (Ok df, w')
    ∧ build_model two_by_two false = Ok model
    ∧ cqm model = Some m
    ∧ call_cqm_solver (answering mixed_answer) model None two_by_two quiet
      = (Ok self', w2)
    ∧ best_sample self' = schedule_6
    ∧ feasible (best_sample self') m
    ∧ ∀ j k i task_j task_k start_j finish_j start_k finish_k,
        (j, task_j, start_j, finish_j, i) ∈ df →
        (k, task_k, start_k, finish_k, i) ∈ df →
        j ≠ k →
        finish_j ≤ start_k ∨ finish_k ≤ start_j.
Proof.
  destruct (run_shop_scheduler (answering mixed_answer) two_by_two None
              false true false quiet) as [[df|e] w'] eqn:Hrun;
    [|vm_compute in Hrun; discriminate Hrun].
  destruct (build_model two_by_two false) as [model|e] eqn:Hbuild;
    [|vm_compute in Hbuild; discriminate Hbuild].
  destruct (schedule_6_feasible model Hbuild) as (m & Hm & Hfeas & _).
  destruct (call_cqm_solver (answering mixed_answer) model None two_by_two
              quiet) as [[self'|e] w2] eqn:Hcall.
  2:{ vm_compute in Hbuild. injection Hbuild as <-.
      vm_compute in Hcall. discriminate Hcall. }
  assert (best_sample self' = schedule_6) as Hbest.
  { vm_compute in Hbuild. injection Hbuild as <-.
    vm_compute in Hcall. injection Hcall as <- _. reflexivity. }
  exists df, w', model, m, self', w2.
  split; [done|]. split; [done|]. split; [done|]. split; [done|].
  split; [done|]. split; [by rewrite Hbest|].
  intros j k i tj tk sj fj sk fk Hrj Hrk Hne.
  apply (run_shop_scheduler_rows_disjoint (answering mixed_answer)
           two_by_two None true false quiet df w' model m self' quiet w2)
    with (j := j) (k := k) (i := i) (task_j := tj) (task_k := tk);
    try done.
  - by apply (bool_decide_unpack _); vm_compute.
  - by apply (bool_decide_unpack _); vm_compute.
  - by apply (bool_decide_unpack _); vm_compute.
  - by apply (bool_decide_unpack _); vm_compute.
  - by rewrite Hbest.
  - rewrite Hbest. intros j' k' i' y. unfold schedule_6. simpl.
    repeat case_decide; intros [= <-]; auto.
Defined.

(** ** The completion time and the rows of the table *)



